(** * The record log codec of pebble: 32 KiB block framing

    A shallow embedding of package [record] (Reader, Writer and the
    payload source [singleReader]) and the properties of its wire
    format: header layout, writer bookkeeping, reader recovery and the
    write/read round trip.

    Conventions.
    - Go's [int] and [int64] fields are [Z]; buffer indexes never leave
      [0 .. blockSize + headerSize + 65535], so no index arithmetic wraps.
      The [int64] offset arithmetic of the writer is reduced with
      [wrap64]. The reader's [seq] counter is a plain [Z]: it only ever
      grows by one per call.
    - A byte is [Init.Byte.byte]; [byte.unsigned] and [byte.of_Z] (which
      reduces modulo 256) convert from and to [Z].
    - A Go [error] value is [option error], [None] being [nil].
    - The arrays [buf [blockSize]byte] are lists of length [blockSize].
    - [binary.LittleEndian.Uint16/Uint32] is [le_combine] and
      [PutUint16/PutUint32] is [le_split 2]/[le_split 4].
    - The checksum package is not part of the sources at hand; it enters
      as the section variable [crc], reduced to 32 bits as the [uint32]
      result type of [Value()] dictates. *)

From Stdlib Require Import String ZArith List Bool Lia.
From coqutil Require Import Byte Word.LittleEndianList.
Import ListNotations.
Local Open Scope Z_scope.

Set Implicit Arguments.

(** ** Constants of the wire format *)

Definition fullChunkType : Z := 1.
Definition firstChunkType : Z := 2.
Definition middleChunkType : Z := 3.
Definition lastChunkType : Z := 4.

Definition blockSize : Z := 32 * 1024.
Definition blockSizeMask : Z := blockSize - 1.
Definition headerSize : Z := 7.

(** ** Errors *)

Inductive error : Type :=
| EOF                      (* io.EOF *)
| ErrUnexpectedEOF         (* io.ErrUnexpectedEOF *)
| ErrNotAnIOSeeker
| ErrNoLastRecord
| ErrZeroedBlock           (* "block appears to be zeroed" *)
| ErrInvalidChunk          (* "invalid chunk" *)
| ErrLengthOverflow        (* "invalid chunk (length overflows block)" *)
| ErrChecksumMismatch      (* "invalid chunk (checksum mismatch)" *)
| ErrStaleReader           (* "stale reader" *)
| ErrClosedWriter          (* "closed Writer" *)
| ErrNegativeSeek          (* a seek before the start of the source *)
| ErrIO (msg : string).    (* any error of the underlying stream *)

Definition error_eqb (a b : error) : bool :=
  match a, b with
  | EOF, EOF | ErrUnexpectedEOF, ErrUnexpectedEOF
  | ErrNotAnIOSeeker, ErrNotAnIOSeeker | ErrNoLastRecord, ErrNoLastRecord
  | ErrZeroedBlock, ErrZeroedBlock | ErrInvalidChunk, ErrInvalidChunk
  | ErrLengthOverflow, ErrLengthOverflow
  | ErrChecksumMismatch, ErrChecksumMismatch
  | ErrStaleReader, ErrStaleReader | ErrClosedWriter, ErrClosedWriter
  | ErrNegativeSeek, ErrNegativeSeek => true
  | ErrIO m1, ErrIO m2 => String.eqb m1 m2
  | _, _ => false
  end.

(** ** Slices of a buffer *)

Definition len {A} (l : list A) : Z := Z.of_nat (length l).

(** [l[lo:hi]] *)
Definition slice {A} (l : list A) (lo hi : Z) : list A :=
  firstn (Z.to_nat (hi - lo)) (skipn (Z.to_nat lo) l).

(** [l[k]] *)
Definition at_ (l : list byte) (k : Z) : byte := nth (Z.to_nat k) l Byte.x00.

(** [l] with [l[k : k + len x]] overwritten by [x]. *)
Definition splice {A} (l : list A) (k : Z) (x : list A) : list A :=
  firstn (Z.to_nat k) l ++ x ++ skipn (Z.to_nat k + length x) l.

(** [copy(l[k:], p)]: the bytes that fit are copied, their count returned. *)
Definition copy (l : list byte) (k : Z) (p : list byte) : list byte * Z :=
  let n := Z.min (len l - k) (len p) in
  (splice l k (firstn (Z.to_nat n) p), n).

Definition zeros (k : Z) : list byte := repeat Byte.x00 (Z.to_nat k).

Definition wrap64 (z : Z) : Z := (z + 2 ^ 63) mod 2 ^ 64 - 2 ^ 63.

(** ** Loops with [continue] and [return] *)

Inductive loop (A B : Type) : Type :=
| Continue (a : A)
| Return (b : B).
Arguments Continue {A B} a.
Arguments Return {A B} b.

Fixpoint run_loop {A B} (step : A -> loop A B) (fuel : nat) (a : A) : option B :=
  match fuel with
  | O => None
  | S fuel' =>
      match step a with
      | Continue a' => run_loop step fuel' a'
      | Return b => Some b
      end
  end.

(** ** The underlying source: an in-memory reader

    [io.Reader] over a byte string, as [bytes.Reader] or
    [strings.Reader]; [seekable] tells whether the dynamic type also
    implements [io.Seeker]. *)

Record Source : Type := mkSource {
  s_data : list byte;
  s_pos : nat;
  s_seekable : bool
}.

Definition s_remaining (s : Source) : list byte :=
  skipn (s_pos s) (s_data s).

(** [io.ReadFull(s, buf)] for a buffer of [size] bytes: the bytes read
    and [EOF] when none could be read, [ErrUnexpectedEOF] when fewer
    than [size]. *)
Definition ReadFull (s : Source) (size : Z) : Source * (list byte * option error) :=
  let d := firstn (Z.to_nat size) (s_remaining s) in
  let s' := mkSource (s_data s) (s_pos s + length d) (s_seekable s) in
  (s', (d, if len d =? 0 then Some EOF
           else if len d <? size then Some ErrUnexpectedEOF
           else None)).

(** [s.Seek(offset, io.SeekStart)] *)
Definition Seek (s : Source) (offset : Z) : Source * option error :=
  if offset <? 0 then (s, Some ErrNegativeSeek)
  else (mkSource (s_data s) (Z.to_nat offset) (s_seekable s), None).

(** ** The underlying sink

    [io.Writer], with the optional capabilities the writer looks for
    through type assertions: [Flush], [Sync] and [Seek]. *)

Class IoWriter (S : Type) : Type := {
  io_write : S -> list byte -> S * option error;
  io_flush : option (S -> S * option error);
  io_sync : option (S -> S * option error);
  (** [Seek(0, io.SeekCurrent)] *)
  io_tell : option (S -> S * (Z * option error))
}.

(** The outcome of a writer operation: a value, the panic of
    [fillHeader], or a loop that did not end within its bound. *)
Inductive result (A : Type) : Type :=
| Ok (a : A)
| Panic
| Diverged.
Arguments Ok {A} a.
Arguments Panic {A}.
Arguments Diverged {A}.

Definition bind {A B} (m : result A) (k : A -> result B) : result B :=
  match m with
  | Ok a => k a
  | Panic => Panic
  | Diverged => Diverged
  end.

Notation "x <- m ;; k" := (bind m (fun x => k))
  (at level 61, m at next level, right associativity).
Notation "' pat <- m ;; k" := (bind m (fun x => let 'pat := x in k))
  (at level 61, pat pattern, m at next level, right associativity).

Section Record.

(** [crc b] stands for [crc.New(b).Value()]. *)
Variable crc : list byte -> Z.

Definition crcValue (b : list byte) : Z := crc b mod 2 ^ 32.

(** ** Reader *)

Record Reader : Type := mkReader {
  r_r : Source;
  r_seq : Z;
  r_i : Z;
  r_j : Z;
  r_n : Z;
  r_started : bool;
  r_recovering : bool;
  r_last : bool;
  r_err : option error;
  r_buf : list byte
}.

Definition NewReader (r : Source) : Reader :=
  mkReader r 0 0 0 0 false false false None (zeros blockSize).

Definition set_r_err (e : option error) (r : Reader) : Reader :=
  mkReader (r_r r) (r_seq r) (r_i r) (r_j r) (r_n r) (r_started r)
           (r_recovering r) (r_last r) e (r_buf r).

Definition set_r_seq (s : Z) (r : Reader) : Reader :=
  mkReader (r_r r) s (r_i r) (r_j r) (r_n r) (r_started r)
           (r_recovering r) (r_last r) (r_err r) (r_buf r).

Definition set_r_i (i : Z) (r : Reader) : Reader :=
  mkReader (r_r r) (r_seq r) i (r_j r) (r_n r) (r_started r)
           (r_recovering r) (r_last r) (r_err r) (r_buf r).

Definition set_r_j (j : Z) (r : Reader) : Reader :=
  mkReader (r_r r) (r_seq r) (r_i r) j (r_n r) (r_started r)
           (r_recovering r) (r_last r) (r_err r) (r_buf r).

Definition set_r_started (b : bool) (r : Reader) : Reader :=
  mkReader (r_r r) (r_seq r) (r_i r) (r_j r) (r_n r) b
           (r_recovering r) (r_last r) (r_err r) (r_buf r).

(** [Recover] *)
Definition Recover (r : Reader) : Reader :=
  match r_err r with
  | None => r
  | Some _ =>
      mkReader (r_r r) (r_seq r + 1) (r_n r) (r_n r) (r_n r) (r_started r)
               true false None (r_buf r)
  end.

(** One turn of the [for] loop of [nextChunk]. *)
Definition nextChunkStep (wantFirst : bool) (r : Reader)
  : loop Reader (Reader * option error) :=
  if r_j r + headerSize <=? r_n r then
    let checksum := le_combine (slice (r_buf r) (r_j r + 0) (r_j r + 4)) in
    let length := le_combine (slice (r_buf r) (r_j r + 4) (r_j r + 6)) in
    let chunkType := byte.unsigned (at_ (r_buf r) (r_j r + 6)) in
    if (checksum =? 0) && (length =? 0) && (chunkType =? 0) then
      if wantFirst || r_recovering r then
        Continue (Recover (set_r_err (Some ErrZeroedBlock) r))
      else
        Return (r, Some ErrInvalidChunk)
    else
      let r := set_r_j (r_j r + headerSize + length)
                 (set_r_i (r_j r + headerSize) r) in
      if r_j r >? r_n r then
        if r_recovering r then Continue (Recover r)
        else Return (r, Some ErrLengthOverflow)
      else if negb (checksum =? crcValue (slice (r_buf r) (r_i r - 1) (r_j r))) then
        if r_recovering r then Continue (Recover r)
        else Return (r, Some ErrChecksumMismatch)
      else if wantFirst && negb (chunkType =? fullChunkType)
                        && negb (chunkType =? firstChunkType) then
        Continue r
      else
        Return (mkReader (r_r r) (r_seq r) (r_i r) (r_j r) (r_n r) (r_started r)
                  false
                  ((chunkType =? fullChunkType) || (chunkType =? lastChunkType))
                  (r_err r) (r_buf r), None)
  else if (r_n r <? blockSize) && r_started r then
    if negb (r_j r =? r_n r) then Return (r, Some ErrUnexpectedEOF)
    else Return (r, Some EOF)
  else
    let '(src, (d, err)) := ReadFull (r_r r) blockSize in
    let r := mkReader src (r_seq r) (r_i r) (r_j r) (r_n r) (r_started r)
               (r_recovering r) (r_last r) (r_err r)
               (splice (r_buf r) 0 d) in
    if match err with
       | Some e => negb (error_eqb e ErrUnexpectedEOF)
       | None => false
       end
    then Return (r, err)
    else Continue (mkReader (r_r r) (r_seq r) 0 0 (len d) (r_started r)
                     (r_recovering r) (r_last r) (r_err r) (r_buf r)).

(** Every turn of the loop lowers this measure, which bounds the number
    of turns. *)
Definition r_measure (r : Reader) : nat :=
  (2 * length (s_remaining (r_r r)) + Z.to_nat (r_n r - r_j r))%nat.

Definition nextChunk (wantFirst : bool) (r : Reader) : Reader * option error :=
  match run_loop (nextChunkStep wantFirst) (S (r_measure r)) r with
  | Some res => res
  | None => (r, Some (ErrIO "unreachable"%string))
  end.

(** The value returned by [Next]: a payload source is the reader it
    belongs to (threaded through every call) and its sequence number. *)
Record singleReader : Type := mkSingleReader { x_seq : Z }.

Definition Next (r : Reader) : Reader * (option singleReader * option error) :=
  let r := set_r_seq (r_seq r + 1) r in
  match r_err r with
  | Some e => (r, (None, Some e))
  | None =>
      let r := set_r_i (r_j r) r in
      let '(r, e) := nextChunk true r in
      let r := set_r_err e r in
      match r_err r with
      | Some e => (r, (None, Some e))
      | None =>
          let r := set_r_started true r in
          (r, (Some (mkSingleReader (r_seq r)), None))
      end
  end.

(** [SeekRecord] *)
Definition SeekRecord (offset : Z) (r : Reader) : Reader * option error :=
  let r := set_r_seq (r_seq r + 1) r in
  match r_err r with
  | Some e => (r, Some e)
  | None =>
      if negb (s_seekable (r_r r)) then (r, Some ErrNotAnIOSeeker)
      else
        let c := Z.land offset blockSizeMask in
        let '(src, e) := Seek (r_r r) (Z.ldiff offset blockSizeMask) in
        let r := mkReader src (r_seq r) (r_i r) (r_j r) (r_n r) (r_started r)
                   (r_recovering r) (r_last r) e (r_buf r) in
        match r_err r with
        | Some e => (r, Some e)
        | None =>
            let r := mkReader (r_r r) (r_seq r) 0 0 0 false false false
                       (r_err r) (r_buf r) in
            let '(r, e) := nextChunk false r in
            let r := set_r_err e r in
            match r_err r with
            | Some e => (r, Some e)
            | None => (set_r_j c (set_r_i c r), None)
            end
        end
  end.

(** One turn of the loop [for r.i == r.j] of [singleReader.Read];
    [Return (r, None)] is the exit of the loop through its condition. *)
Definition readStep (r : Reader) : loop Reader (Reader * option error) :=
  if r_i r =? r_j r then
    if r_last r then Return (r, Some EOF)
    else
      let '(r, e) := nextChunk false r in
      let r := set_r_err e r in
      match r_err r with
      | Some e => Return (r, Some e)
      | None => Continue r
      end
  else Return (r, None).

Definition readLoop (r : Reader) : Reader * option error :=
  match run_loop readStep (S (r_measure r)) r with
  | Some res => res
  | None => (r, Some (ErrIO "unreachable"%string))
  end.

(** [x.Read(p)] with [len(p) = c]: the new reader state, the bytes
    stored into [p] and the error. *)
Definition Read (x : singleReader) (c : Z) (r : Reader)
  : Reader * (list byte * option error) :=
  if negb (r_seq r =? x_seq x) then (r, ([], Some ErrStaleReader))
  else
    match r_err r with
    | Some e => (r, ([], Some e))
    | None =>
        match readLoop r with
        | (r, Some e) => (r, ([], Some e))
        | (r, None) =>
            let src := slice (r_buf r) (r_i r) (r_j r) in
            let n := Z.min c (len src) in
            (set_r_i (r_i r + n) r, (firstn (Z.to_nat n) src, None))
        end
    end.

(** ** Writer

    The fields [f] and [s] of the Go struct are [w] seen as a flusher
    and as a syncer: here [io_flush] and [io_sync] of the sink. *)

Context {Sink : Type} {sink_ops : IoWriter Sink}.

Record Writer : Type := mkWriter {
  w_w : Sink;
  w_i : Z;
  w_j : Z;
  w_written : Z;
  w_baseOffset : Z;
  w_blockNumber : Z;
  w_lastRecordOffset : Z;
  w_first : bool;
  w_pending : bool;
  w_err : option error;
  w_buf : list byte
}.

Definition NewWriter (w : Sink) : Writer :=
  let '(w, o) :=
    match io_tell with
    | Some tell =>
        let '(w', (o, err)) := tell w in
        (w', match err with Some _ => 0 | None => o end)
    | None => (w, 0)
    end in
  mkWriter w 0 0 0 o 0 (-1) false false None (zeros blockSize).

Definition set_w_buf (b : list byte) (w : Writer) : Writer :=
  mkWriter (w_w w) (w_i w) (w_j w) (w_written w) (w_baseOffset w)
    (w_blockNumber w) (w_lastRecordOffset w) (w_first w) (w_pending w)
    (w_err w) b.

Definition set_w_pending (b : bool) (w : Writer) : Writer :=
  mkWriter (w_w w) (w_i w) (w_j w) (w_written w) (w_baseOffset w)
    (w_blockNumber w) (w_lastRecordOffset w) (w_first w) b
    (w_err w) (w_buf w).

Definition set_w_first (b : bool) (w : Writer) : Writer :=
  mkWriter (w_w w) (w_i w) (w_j w) (w_written w) (w_baseOffset w)
    (w_blockNumber w) (w_lastRecordOffset w) b (w_pending w)
    (w_err w) (w_buf w).

Definition set_w_err (e : option error) (w : Writer) : Writer :=
  mkWriter (w_w w) (w_i w) (w_j w) (w_written w) (w_baseOffset w)
    (w_blockNumber w) (w_lastRecordOffset w) (w_first w) (w_pending w)
    e (w_buf w).

Definition set_w_ij (i j : Z) (w : Writer) : Writer :=
  mkWriter (w_w w) i j (w_written w) (w_baseOffset w)
    (w_blockNumber w) (w_lastRecordOffset w) (w_first w) (w_pending w)
    (w_err w) (w_buf w).

(** [fillHeader] *)
Definition fillHeader (last : bool) (w : Writer) : result Writer :=
  if (w_i w + headerSize >? w_j w) || (w_j w >? blockSize) then Panic
  else
    let t := if last
             then (if w_first w then fullChunkType else lastChunkType)
             else (if w_first w then firstChunkType else middleChunkType) in
    let buf := splice (w_buf w) (w_i w + 6) [byte.of_Z t] in
    let buf := splice buf (w_i w + 0)
                 (le_split 4 (crcValue (slice buf (w_i w + 6) (w_j w)))) in
    let buf := splice buf (w_i w + 4)
                 (le_split 2 (w_j w - w_i w - headerSize)) in
    Ok (set_w_buf buf w).

(** [writeBlock] *)
Definition writeBlock (w : Writer) : Writer :=
  let '(snk, e) :=
    io_write (w_w w) (slice (w_buf w) (w_written w) (len (w_buf w))) in
  mkWriter snk 0 headerSize 0 (w_baseOffset w)
    (wrap64 (w_blockNumber w + 1)) (w_lastRecordOffset w) (w_first w)
    (w_pending w) e (w_buf w).

(** [writePending] *)
Definition writePending (w : Writer) : result Writer :=
  match w_err w with
  | Some _ => Ok w
  | None =>
      w <- (if w_pending w
            then w <- fillHeader true w ;; Ok (set_w_pending false w)
            else Ok w) ;;
      let '(snk, e) :=
        io_write (w_w w) (slice (w_buf w) (w_written w) (w_j w)) in
      Ok (mkWriter snk (w_i w) (w_j w) (w_j w) (w_baseOffset w)
            (w_blockNumber w) (w_lastRecordOffset w) (w_first w)
            (w_pending w) e (w_buf w))
  end.

(** [Close] *)
Definition Close (w : Writer) : result (Writer * option error) :=
  w <- writePending w ;;
  match w_err w with
  | Some e => Ok (w, Some e)
  | None => Ok (set_w_err (Some ErrClosedWriter) w, None)
  end.

(** [Flush] *)
Definition Flush (w : Writer) : result (Writer * option error) :=
  w <- writePending w ;;
  match w_err w with
  | Some e => Ok (w, Some e)
  | None =>
      match io_flush with
      | Some flush =>
          let '(snk, e) := flush (w_w w) in
          Ok (mkWriter snk (w_i w) (w_j w) (w_written w) (w_baseOffset w)
                (w_blockNumber w) (w_lastRecordOffset w) (w_first w)
                (w_pending w) e (w_buf w), e)
      | None => Ok (w, None)
      end
  end.

(** [Sync] *)
Definition Sync (w : Writer) : result (Writer * option error) :=
  '(w, err) <- Flush w ;;
  match err with
  | Some e => Ok (w, Some e)
  | None =>
      match io_sync with
      | Some sync =>
          let '(snk, e) := sync (w_w w) in
          Ok (mkWriter snk (w_i w) (w_j w) (w_written w) (w_baseOffset w)
                (w_blockNumber w) (w_lastRecordOffset w) (w_first w)
                (w_pending w) e (w_buf w), e)
      | None => Ok (w, None)
      end
  end.

(** One turn of the loop [for len(p) > 0] of [Write]; the state is the
    writer and what is left of [p]. [Return (w, None)] is the exit of
    the loop through its condition. *)
Definition writeStep (st : Writer * list byte)
  : loop (Writer * list byte) (result (Writer * option error)) :=
  let '(w, p) := st in
  match p with
  | [] => Return (Ok (w, None))
  | _ :: _ =>
      let flushed :=
        if w_j w =? blockSize then
          w <- fillHeader false w ;;
          let w := writeBlock w in
          match w_err w with
          | Some e => Ok (w, Some e)
          | None => Ok (set_w_first false w, None)
          end
        else Ok (w, None) in
      match flushed with
      | Ok (w, Some e) => Return (Ok (w, Some e))
      | Ok (w, None) =>
          let '(buf, n) := copy (w_buf w) (w_j w) p in
          Continue (set_w_ij (w_i w) (w_j w + n) (set_w_buf buf w),
                    skipn (Z.to_nat n) p)
      | Panic => Return Panic
      | Diverged => Return Diverged
      end
  end.

(** The block [if !w.pending { ... }] of [Write], which starts a
    record; the error is the one [Write] returns from inside it. *)
Definition startRecord (w : Writer) : Writer * option error :=
  if negb (w_pending w) then
    let w := set_w_ij (w_j w) (w_j w + headerSize) w in
    let w :=
      if w_j w >? blockSize then
        writeBlock
          (set_w_buf (splice (w_buf w) (w_i w) (zeros (blockSize - w_i w))) w)
      else w in
    match w_err w with
    | Some e => (w, Some e)
    | None =>
        (mkWriter (w_w w) (w_i w) (w_j w) (w_written w) (w_baseOffset w)
           (w_blockNumber w)
           (wrap64 (w_baseOffset w + w_blockNumber w * blockSize + w_i w))
           true true (w_err w) (w_buf w), None)
    end
  else (w, None).

(** [Write]: the new state, the count and the error. *)
Definition Write (p : list byte) (w : Writer) : result (Writer * (Z * option error)) :=
  match w_err w with
  | Some e => Ok (w, (0, Some e))
  | None =>
      match startRecord w with
      | (w, Some e) => Ok (w, (0, Some e))
      | (w, None) =>
          let n0 := len p in
          match run_loop writeStep (S (length p)) (w, p) with
          | Some res =>
              '(w, err) <- res ;;
              match err with
              | Some e => Ok (w, (0, Some e))
              | None => Ok (w, (n0, None))
              end
          | None => Diverged
          end
      end
  end.

(** [Finish] *)
Definition Finish (w : Writer) : result (Writer * option error) :=
  w <- (if w_pending w
        then w <- fillHeader true w ;; Ok (set_w_pending false w)
        else Ok w) ;;
  Ok (w, w_err w).

(** [LastRecordOffset] *)
Definition LastRecordOffset (w : Writer) : Z * option error :=
  match w_err w with
  | Some e => (0, Some e)
  | None =>
      if w_lastRecordOffset w <? 0 then (0, Some ErrNoLastRecord)
      else (w_lastRecordOffset w, None)
  end.

End Record.

Arguments Writer : clear implicits.

(** ** Buffer contents

    [holds buf k x]: the bytes [x] sit in [buf] from offset [k] on. *)

Definition holds (buf : list byte) (k : Z) (x : list byte) : Prop :=
  0 <= k /\ exists a c, buf = a ++ x ++ c /\ len a = k.

(** ** The wire format, as data

    A chunk is its type and payload; a block is its chunks and the
    number of zero bytes that pad it. *)

Record chunk : Type := mkChunk {
  c_type : Z;
  c_data : list byte
}.

Record block : Type := mkBlock {
  b_chunks : list chunk;
  b_pad : Z
}.

Definition is_last (c : chunk) : bool :=
  (c_type c =? fullChunkType) || (c_type c =? lastChunkType).

Definition is_first (c : chunk) : bool :=
  (c_type c =? fullChunkType) || (c_type c =? firstChunkType).

Definition valid_chunk (c : chunk) : Prop := 1 <= c_type c <= 4.

(** Chunks regrouped into records: [FULL], or [FIRST MIDDLE* LAST];
    [acc] is the payload of the record under way, if any. *)
Fixpoint assemble (acc : option (list byte)) (cs : list chunk)
  : option (list (list byte)) :=
  match cs with
  | [] => match acc with None => Some [] | Some _ => None end
  | c :: cs' =>
      match acc with
      | None =>
          if c_type c =? fullChunkType then
            option_map (cons (c_data c)) (assemble None cs')
          else if c_type c =? firstChunkType then
            assemble (Some (c_data c)) cs'
          else None
      | Some a =>
          if c_type c =? middleChunkType then
            assemble (Some (a ++ c_data c)) cs'
          else if c_type c =? lastChunkType then
            option_map (cons (a ++ c_data c)) (assemble None cs')
          else None
      end
  end.

(** The sequences of writer operations of the public interface. *)
Inductive op : Type :=
| OpWrite (p : list byte)
| OpFinish
| OpFlush
| OpSync
| OpClose
| OpLastRecordOffset.

(** The in-memory sink ([bytes.Buffer]): no flush, no sync, no seek. *)
#[export] Instance memSink : IoWriter (list byte) := {
  io_write s d := (s ++ d, None);
  io_flush := None;
  io_sync := None;
  io_tell := None
}.

(** A sink of bounded capacity: what does not fit is refused with an
    error after a short write. *)
Record QuotaSink : Type := mkQuotaSink {
  q_data : list byte;
  q_room : Z
}.

#[export] Instance quotaSink : IoWriter QuotaSink := {
  io_write s d :=
    if len d <=? q_room s
    then (mkQuotaSink (q_data s ++ d) (q_room s - len d), None)
    else (mkQuotaSink (q_data s ++ firstn (Z.to_nat (q_room s)) d) 0,
          Some (ErrIO "no space left"%string));
  io_flush := Some (fun s => (s, None));
  io_sync := Some (fun s => (s, None));
  io_tell := Some (fun s => (s, (len (q_data s), None)))
}.

(** Modelled from the spec: the checksum package is not among the
    sources; the spec names the function CRC-32C, a pure function over
    byte spans. This is the bitwise CRC-32C (Castagnoli polynomial,
    reflected), used wherever a closed instance of [crc] is needed. *)
Definition crc32c_bit (c : Z) : Z :=
  if Z.testbit c 0 then Z.lxor (Z.shiftr c 1) 0x82F63B78 else Z.shiftr c 1.

Definition crc32c_byte (c : Z) (b : byte) : Z :=
  Nat.iter 8 crc32c_bit (Z.lxor c (byte.unsigned b)).

Definition crc32c (l : list byte) : Z :=
  Z.lxor (fold_left crc32c_byte l 0xFFFFFFFF) 0xFFFFFFFF.

Definition bytes_of (s : string) : list byte := list_byte_of_string s.

Section Layout.
Variable crc : list byte -> Z.

Definition encChunk (c : chunk) : list byte :=
  le_split 4 (crcValue crc (byte.of_Z (c_type c) :: c_data c))
  ++ le_split 2 (len (c_data c))
  ++ byte.of_Z (c_type c) :: c_data c.

Definition encChunks (cs : list chunk) : list byte :=
  concat (map encChunk cs).

Definition encBlock (b : block) : list byte :=
  encChunks (b_chunks b) ++ zeros (b_pad b).

Definition encBlocks (bs : list block) : list byte :=
  concat (map encBlock bs).

(** *** Clients of the reader *)

(** [io.ReadAll] on a payload source, reading [c] bytes at a time: one
    turn of its loop, the state being the reader and the bytes so far. *)
Definition readAllStep (x : singleReader) (c : Z) (st : Reader * list byte)
  : loop (Reader * list byte) (Reader * (list byte * option error)) :=
  let '(r, acc) := st in
  let '(r, (d, err)) := Read crc x c r in
  match err with
  | None => Continue (r, acc ++ d)
  | Some EOF => Return (r, (acc ++ d, None))
  | Some e => Return (r, (acc ++ d, Some e))
  end.

(** The bytes not yet delivered, those still in the source counted
    twice: every turn of the loop lowers it. *)
Definition x_measure (st : Reader * list byte) : nat :=
  (2 * length (s_remaining (r_r (fst st)))
   + Z.to_nat (r_n (fst st) - r_i (fst st)))%nat.

Definition ReadAll (x : singleReader) (c : Z) (r : Reader)
  : Reader * (list byte * option error) :=
  match run_loop (readAllStep x c) (S (x_measure (r, []))) (r, []) with
  | Some res => res
  | None => (r, ([], Some (ErrIO "unreachable"%string)))
  end.

(** [k] times: [Next], then [ReadAll] on the source it returns. Stops
    at the first error. *)
Fixpoint readRecords (k : nat) (c : Z) (r : Reader)
  : Reader * (list (list byte) * option error) :=
  match k with
  | O => (r, ([], None))
  | S k' =>
      match Next crc r with
      | (r, (Some x, None)) =>
          match ReadAll x c r with
          | (r, (d, None)) =>
              let '(r, (ds, e)) := readRecords k' c r in
              (r, (d :: ds, e))
          | (r, (_, Some e)) => (r, ([], Some e))
          end
      | (r, (_, e)) => (r, ([], e))
      end
  end.

(** *** Clients of the writer *)

Context {Sink : Type} {sink_ops : IoWriter Sink}.

Definition apply_op (o : op) (w : Writer Sink) : result (Writer Sink) :=
  match o with
  | OpWrite p => '(w, _) <- Write crc p w ;; Ok w
  | OpFinish => '(w, _) <- Finish crc w ;; Ok w
  | OpFlush => '(w, _) <- Flush crc w ;; Ok w
  | OpSync => '(w, _) <- Sync crc w ;; Ok w
  | OpClose => '(w, _) <- Close crc w ;; Ok w
  | OpLastRecordOffset => Ok w
  end.

Fixpoint run_ops (ops : list op) (w : Writer Sink) : result (Writer Sink) :=
  match ops with
  | [] => Ok w
  | o :: ops' => w <- apply_op o w ;; run_ops ops' w
  end.

(** One [Write] and one [Finish] per record. *)
Fixpoint writeRecords (rs : list (list byte)) (w : Writer Sink)
  : result (Writer Sink) :=
  match rs with
  | [] => Ok w
  | p :: rs' =>
      '(w, _) <- Write crc p w ;;
      '(w, _) <- Finish crc w ;;
      writeRecords rs' w
  end.

(** The bookkeeping of the writer. *)
Definition WSafe (w : Writer Sink) : Prop :=
  0 <= w_i w /\ w_i w <= w_j w /\ w_j w <= blockSize /\
  (w_pending w = true -> w_i w + headerSize <= w_j w) /\
  len (w_buf w) = blockSize.

End Layout.

(** The type [fillHeader] gives a chunk. *)
Definition chunkTypeOf (last first : bool) : Z :=
  if last
  then (if first then fullChunkType else lastChunkType)
  else (if first then firstChunkType else middleChunkType).

(** The reader state after the chunk at [r_j r] has been accepted. *)
Definition accepted (r : Reader) (c : chunk) : Reader :=
  mkReader (r_r r) (r_seq r) (r_j r + headerSize)
    (r_j r + headerSize + len (c_data c)) (r_n r) (r_started r)
    false (is_last c) (r_err r) (r_buf r).

(** The reader state after the chunk at [r_j r] has been passed over. *)
Definition skipped (r : Reader) (c : chunk) : Reader :=
  set_r_j (r_j r + headerSize + len (c_data c))
    (set_r_i (r_j r + headerSize) r).

(** ** Concrete states for the examples *)

(** A reader at offset 3 of a final block of 5 bytes. *)
Definition exReader : Reader :=
  mkReader (mkSource [] 0 false) 1 0 3 5 true false false None (zeros blockSize).


(** A writer with a pending chunk of five payload bytes at offset 0. *)
Definition exWriter : Writer (list byte) :=
  mkWriter [] 0 12 0 0 0 0 true true None (zeros blockSize).

(** A writer over a sink with room for ten bytes, and a record that
    does not fit in one block. *)
Definition exQuotaWriter : Writer QuotaSink := NewWriter (mkQuotaSink [] 10).

Definition exPayload : list byte := repeat Byte.x61 (Z.to_nat 40000).

(** ** Runs of a loop

    [loops_to step m a b]: from [a] the loop returns [b], every turn
    lowering the measure [m]. *)
Inductive loops_to {A B : Type} (step : A -> loop A B) (m : A -> nat)
  : A -> B -> Prop :=
| loops_return a b : step a = Return b -> loops_to step m a b
| loops_continue a a' b :
    step a = Continue a' -> (m a' < m a)%nat ->
    loops_to step m a' b -> loops_to step m a b.

Section Streams.
Variable crc : list byte -> Z.

(** The chunks of a list of blocks, in order. *)
Definition chunks_of (bs : list block) : list chunk := flat_map b_chunks bs.

(** What is left of a record after its first chunk: the payloads up to
    the first chunk that ends a record, and the chunks after it. *)
Fixpoint tailOf (cs : list chunk) : option (list byte * list chunk) :=
  match cs with
  | [] => None
  | c :: cs' =>
      if is_last c then Some (c_data c, cs')
      else match tailOf cs' with
           | Some (p, rest) => Some (c_data c ++ p, rest)
           | None => None
           end
  end.

(** Blocks as a source delivers them: each within [blockSize], all but
    the last of exactly that size. *)
Fixpoint wf_blocks (bs : list block) : Prop :=
  match bs with
  | [] => True
  | b :: bs' =>
      Forall valid_chunk (b_chunks b) /\ 0 <= b_pad b /\
      len (encBlock crc b) <= blockSize /\
      (bs' <> [] -> len (encBlock crc b) = blockSize) /\
      wf_blocks bs'
  end.

(** Blocks as the writer lays them out: fewer than 7 bytes of padding,
    none in the last block, no block without a chunk. [pad] is the
    padding of the block before [bs]. *)
Fixpoint tight (pad : Z) (bs : list block) : Prop :=
  match bs with
  | [] => pad = 0
  | b :: bs' => pad < headerSize /\ b_chunks b <> [] /\ tight (b_pad b) bs'
  end.

(** From a block that holds the chunks [todo] and [pad] bytes of padding,
    with the blocks [later] after it, the chunks [cs] follow one another
    without a gap, and after them the block in hand has [epad] bytes of
    padding left and the blocks [elater] come after it. *)
Fixpoint leads (todo : list chunk) (pad : Z) (later : list block)
    (cs : list chunk) (epad : Z) (elater : list block) {struct later} : Prop :=
  (cs = todo /\ epad = pad /\ elater = later) \/
  match later with
  | [] => False
  | b :: later' =>
      pad < headerSize /\ b_chunks b <> [] /\
      exists rest, cs = todo ++ rest /\
                   leads (b_chunks b) (b_pad b) later' rest epad elater
  end.

(** The reader in the middle of a stream: from [r_j r] on its buffer
    holds the chunks [todo] and [pad] zero bytes, which end the block,
    and the source still holds the blocks [later]. *)
Definition RInv (r : Reader) (todo : list chunk) (pad : Z) (later : list block)
  : Prop :=
  len (r_buf r) = blockSize /\
  holds (r_buf r) (r_j r) (encChunks crc todo ++ zeros pad) /\
  r_n r = r_j r + len (encChunks crc todo) + pad /\
  r_n r <= blockSize /\ 0 <= pad /\
  Forall valid_chunk todo /\
  s_remaining (r_r r) = encBlocks crc later /\
  wf_blocks later /\
  (later <> [] -> r_n r = blockSize \/ (r_started r = false /\ r_n r = 0)).

End Streams.

(** The reader state after [io.ReadFull] has delivered the block [d]. *)
Definition fetched (r : Reader) (d : list byte) : Reader :=
  mkReader (mkSource (s_data (r_r r)) (s_pos (r_r r) + length d)
              (s_seekable (r_r r)))
    (r_seq r) 0 0 (len d) (r_started r) (r_recovering r) (r_last r)
    (r_err r) (splice (r_buf r) 0 d).

(** The reader inside a chunk: [u] is the unread part of its payload
    and [l] tells whether the chunk ends a record. *)
Definition at_chunk (r : Reader) (u : list byte) (l : bool) : Prop :=
  headerSize <= r_i r /\ r_j r = r_i r + len u /\ r_j r <= r_n r /\
  slice (r_buf r) (r_i r) (r_j r) = u /\ r_last r = l.

Section Positions.
Variable crc : list byte -> Z.
Variables (epad : Z) (elater : list block).

(** The reader has no error stored and the chunks [cs] come next in the
    stream, after which [epad] bytes of padding and the blocks [elater]
    are left. *)
Definition Reading (r : Reader) (cs : list chunk) : Prop :=
  exists todo pad later,
    RInv crc r todo pad later /\ leads todo pad later cs epad elater /\
    r_err r = None.

(** After the chunk the reader is in, the record goes on with the
    payload [p], and the chunks [cs'] follow it. *)
Definition Rest (r : Reader) (l : bool) (p : list byte) (cs' : list chunk)
  : Prop :=
  if l then p = [] /\ Reading r cs'
  else exists cs, Reading r cs /\ tailOf cs = Some (p, cs').

End Positions.

(** ** The writer in the middle of a stream *)

Section WriterStream.
Variable crc : list byte -> Z.

(** A block the writer has handed to the sink. *)
Definition full_block (b : block) : Prop :=
  len (encBlock crc b) = blockSize /\ 0 <= b_pad b < headerSize /\
  Forall valid_chunk (b_chunks b) /\ b_chunks b <> [].

(** The chunks [cs] written so far make the records [rs], up to a
    record under way whose payload so far is [acc]. *)
Definition Linked (acc : option (list byte)) (cs : list chunk)
  (rs : list (list byte)) : Prop :=
  forall tail l,
    assemble acc tail = Some l -> assemble None (cs ++ tail) = Some (rs ++ l).

(** The sink holds the blocks [done] and the buffer starts with the
    finished chunks [cs] of the current block. *)
Definition WInv (w : Writer (list byte)) (done : list block) (cs : list chunk)
  : Prop :=
  WSafe w /\ w_err w = None /\ w_written w = 0 /\
  w_w w = encBlocks crc done /\
  Forall full_block done /\ Forall valid_chunk cs /\
  holds (w_buf w) 0 (encChunks crc cs) /\
  (if w_pending w then w_i w else w_j w) = len (encChunks crc cs).

(** Between records, the records [rs] written. *)
Definition WIdle (w : Writer (list byte)) (rs : list (list byte)) : Prop :=
  exists done cs,
    WInv w done cs /\ w_pending w = false /\
    Linked None (chunks_of done ++ cs) rs /\ (cs = [] -> done = []).

(** Inside a record whose payload so far is [rec], after the records
    [rs]. *)
Definition WOpen (w : Writer (list byte)) (rs : list (list byte))
  (rec : list byte) : Prop :=
  exists done cs cur acc,
    WInv w done cs /\ w_pending w = true /\
    holds (w_buf w) (w_i w + headerSize) cur /\
    w_j w = w_i w + headerSize + len cur /\
    Linked (if w_first w then None else Some acc) (chunks_of done ++ cs) rs /\
    rec = (if w_first w then [] else acc) ++ cur.

(** The blocks of the stream once the writer is closed. *)
Definition layout (done : list block) (cs : list chunk) : list block :=
  done ++ match cs with [] => [] | _ => [mkBlock cs 0] end.

End WriterStream.

(** ** Whole runs of the writer over an in-memory sink *)

Section Runs.
Variable crc : list byte -> Z.

(** The records [rs] written to a fresh writer, which is then closed. *)
Definition writeAll (rs : list (list byte))
  : result (Writer (list byte) * option error) :=
  w <- writeRecords crc rs (NewWriter (@nil byte)) ;; Close crc w.

(** The bytes the sink has received in that run. *)
Definition emitted (rs : list (list byte)) : list byte :=
  match writeAll rs with
  | Ok (w, _) => w_w w
  | _ => []
  end.

End Runs.

Definition helloWorld : list (list byte) :=
  [bytes_of "hello"; bytes_of ""; bytes_of "world"].

Definition abcdefGhi : list (list byte) :=
  [bytes_of "abcdef"; bytes_of "ghi"].

(** Two blocks of whole records: one record and padding up to the
    block size, and a record in two chunks. *)
Definition exBlock1 : block :=
  mkBlock [mkChunk fullChunkType (bytes_of "abc")] (blockSize - 10).

Definition exBlock2 : block :=
  mkBlock [mkChunk firstChunkType (bytes_of "de");
           mkChunk lastChunkType (bytes_of "f")] 0.

(** ** Clients of the reader, call by call *)

(** The calls of the public interface of a reader; [RRead x c] is
    [x.Read(p)] with [len(p) = c]. *)
Inductive rop : Type :=
| RNext
| RRead (x : singleReader) (c : nat)
| RRecover
| RSeekRecord (offset : Z).

Section ReaderRuns.
Variable crc : list byte -> Z.

Definition apply_rop (r : Reader) (o : rop) : Reader :=
  match o with
  | RNext => fst (Next crc r)
  | RRead x c => fst (Read crc x (Z.of_nat c) r)
  | RRecover => Recover r
  | RSeekRecord offset => fst (SeekRecord crc offset r)
  end.

Definition run_rops (ops : list rop) (r : Reader) : Reader :=
  fold_left apply_rop ops r.

End ReaderRuns.

(** The indexes of the reader inside the loop of [nextChunk] ... *)
Definition RLoop (r : Reader) : Prop :=
  0 <= r_i r /\ r_i r <= r_j r /\ 0 <= r_n r <= blockSize /\
  len (r_buf r) = blockSize /\ r_err r <> Some ErrZeroedBlock.

(** ... and between the calls of the public interface. *)
Definition RSafe (r : Reader) : Prop :=
  RLoop r /\ (r_err r = None -> r_j r <= blockSize).

(** ** The stream a writer is committed to *)

(** Up to [lim w] the buffer holds finished chunks. *)
Definition lim (w : Writer (list byte)) : Z :=
  if w_pending w then w_i w else w_j w.

(** The bytes handed to the sink, and after them the finished chunks
    that are still in the buffer only. *)
Definition committed (w : Writer (list byte)) : list byte :=
  w_w w ++ slice (w_buf w) (w_written w) (lim w).

(** The writer [c] over the sink [s], of which [buf[:k]] is written. *)
Definition resink (c : Writer (list byte)) (s : list byte) (k : Z)
  : Writer (list byte) :=
  mkWriter s (w_i c) (w_j c) k (w_baseOffset c) (w_blockNumber c)
    (w_lastRecordOffset c) (w_first c) (w_pending c) (w_err c) (w_buf c).

(** What of a writer does not depend on its sink: the bookkeeping is
    sound, and an error is stored only once no chunk is pending. *)
Definition WCore (c : Writer (list byte)) : Prop :=
  WSafe c /\ (w_err c <> None -> w_pending c = false).

(** [buf[:k]] is in the sink, and all of the finished chunks are once
    an error is stored. *)
Definition Kok (c : Writer (list byte)) (k : Z) : Prop :=
  0 <= k <= lim c /\ (w_err c <> None -> k = lim c).

(** From [c] over [s] to [c'] over [s'] the committed stream has grown
    by [d], the base offset is the same and the block number has
    followed the bytes in the sink. *)
Definition Grows (c c' : Writer (list byte)) (d : list byte)
    (s : list byte) (k : Z) (s' : list byte) (k' : Z) : Prop :=
  Kok c' k' /\
  s' ++ slice (w_buf c') k' (lim c') = (s ++ slice (w_buf c) k (lim c)) ++ d /\
  w_baseOffset c' = w_baseOffset c /\
  forall N, 0 <= N -> w_blockNumber c = wrap64 N ->
            len s = N * blockSize + k ->
    exists N', 0 <= N' /\ w_blockNumber c' = wrap64 N' /\
               len s' = N' * blockSize + k'.

(** [Flush] and [Sync] seen as [Finish]. *)
Definition unflush (o : op) : op :=
  match o with
  | OpFlush | OpSync => OpFinish
  | _ => o
  end.

(** Where a record starts in a stream of [n] bytes so far: right
    there, or at the next block when fewer than [headerSize] bytes are
    left in this one. *)
Definition recordStart (n : Z) : Z :=
  if n mod blockSize + headerSize <=? blockSize then n
  else n + (blockSize - n mod blockSize).

(** ** Concrete states for the examples of the later sections *)

(** A reader over the stream of the one record "hi", fresh, then after
    [Next], then after the record has been read to its end. *)
Definition exHiReader : Reader :=
  NewReader (mkSource (emitted crc32c [bytes_of "hi"]) 0 true).

Definition exHiOpen : Reader := fst (Next crc32c exHiReader).

Definition exHiDone : Reader :=
  fst (Read crc32c (mkSingleReader 1) 512 exHiOpen).

(** A writer that has been closed. *)
Definition exClosedWriter : Writer (list byte) :=
  mkWriter [] 0 0 0 0 0 (-1) false false (Some ErrClosedWriter)
    (zeros blockSize).

(** A block of two whole records. *)
Definition exBlock3 : block :=
  mkBlock [mkChunk fullChunkType (bytes_of "abc");
           mkChunk fullChunkType (bytes_of "def")] 0.

(** A block that starts with the end of a record begun earlier, and a
    reader that has met an error in the full block before it. *)
Definition exBlock4 : block :=
  mkBlock [mkChunk lastChunkType (bytes_of "x");
           mkChunk fullChunkType (bytes_of "abc")] 0.

Definition exReaderFailed : Reader :=
  mkReader (mkSource (encBlock crc32c exBlock4) 0 false) 1 0 0 blockSize
    true false false (Some ErrChecksumMismatch) (zeros blockSize).

(** The records that a sequence of operations writes: the payloads of
    the [Write]s are joined up to the next [Finish], [Flush] or [Sync],
    and nothing is written after a [Close]. [acc] is the record under
    way, if any. *)
Fixpoint recordsOf (acc : option (list byte)) (ops : list op)
  : list (list byte) :=
  match ops with
  | [] => match acc with Some a => [a] | None => [] end
  | OpWrite p :: ops' =>
      recordsOf (Some (match acc with Some a => a ++ p | None => p end)) ops'
  | OpLastRecordOffset :: ops' => recordsOf acc ops'
  | OpClose :: _ => match acc with Some a => [a] | None => [] end
  | _ :: ops' =>
      match acc with
      | Some a => a :: recordsOf None ops'
      | None => recordsOf None ops'
      end
  end.

(** The writer after the records [rs], between records or inside the
    record [acc]. *)
Definition WAt (crc : list byte -> Z) (w : Writer (list byte))
    (rs : list (list byte)) (acc : option (list byte)) : Prop :=
  match acc with
  | Some a => WOpen crc w rs a
  | None => WIdle crc w rs
  end.

(** A stream that ends inside a record: one whole record, then the
    first chunk of another. *)
Definition exBlock5 : block :=
  mkBlock [mkChunk fullChunkType (bytes_of "abc");
           mkChunk firstChunkType (bytes_of "de")] 0.

(** The chunk that the reader is in: its header is at [h], its payload
    is [buf[i:j]], within the valid bytes, of the length that the
    header gives, and the checksum of the header is the checksum of
    the type and payload. *)
Definition in_verified_chunk (crc : list byte -> Z) (r : Reader) (h : Z)
  : Prop :=
  r_i r = h + headerSize /\
  r_j r = r_i r + le_combine (slice (r_buf r) (h + 4) (h + 6)) /\
  r_i r <= r_j r /\ r_j r <= r_n r /\
  le_combine (slice (r_buf r) (h + 0) (h + 4))
  = crcValue crc (slice (r_buf r) (r_i r - 1) (r_j r)) /\
  r_last r
  = ((byte.unsigned (at_ (r_buf r) (h + 6)) =? fullChunkType)
     || (byte.unsigned (at_ (r_buf r) (h + 6)) =? lastChunkType)) /\
  r_recovering r = false.

(** ** Reading some of the records *)

(** [Next] once per element of [sel]: the record is read to its end
    where the element is [true], and left unread where it is [false]. *)
Fixpoint readSelected (crc : list byte -> Z) (sel : list bool) (c : Z)
    (r : Reader) : Reader * (list (list byte) * option error) :=
  match sel with
  | [] => (r, ([], None))
  | b :: sel' =>
      match Next crc r with
      | (r, (Some x, None)) =>
          if b then
            match ReadAll crc x c r with
            | (r, (d, None)) =>
                let '(r, (ds, e)) := readSelected crc sel' c r in
                (r, (d :: ds, e))
            | (r, (_, Some e)) => (r, ([], Some e))
            end
          else readSelected crc sel' c r
      | (r, (_, e)) => (r, ([], e))
      end
  end.

(** The records of [rs] that [sel] marks. *)
Fixpoint selected (sel : list bool) (rs : list (list byte))
  : list (list byte) :=
  match sel, rs with
  | b :: sel', rec :: rs' =>
      if b then rec :: selected sel' rs' else selected sel' rs'
  | _, _ => []
  end.

(** The bytes of a chunk of type [t] and payload [p] whose header
    carries the checksum [ck], right or wrong. *)
Definition rawChunk (ck t : Z) (p : list byte) : list byte :=
  le_split 4 ck ++ le_split 2 (len p) ++ byte.of_Z t :: p.

(** A block of one whole record, and a reader that has met an error
    in a full block, before a block that starts with a chunk whose
    checksum is wrong. *)
Definition exBlock6 : block :=
  mkBlock [mkChunk fullChunkType (bytes_of "def")] 0.

Definition exReaderBad : Reader :=
  mkReader
    (mkSource (rawChunk 0 1 (bytes_of "abc") ++ encBlocks crc32c [exBlock6])
       0 false)
    1 0 0 blockSize true false false (Some ErrChecksumMismatch)
    (zeros blockSize).

(** Any sink, observed: the result of every call of its [Write] is
    kept, in the order of the calls. The sink underneath sees the same
    calls and gives the same answers. *)
Record Traced (S : Type) : Type := mkTraced {
  t_sink : S;
  t_log : list (option error)
}.

#[export] Instance tracedSink {S : Type} {ops : IoWriter S}
  : IoWriter (Traced S) := {
  io_write ts d :=
    let '(s, e) := @io_write S ops (t_sink ts) d in
    (mkTraced s (t_log ts ++ [e]), e);
  io_flush :=
    match @io_flush S ops with
    | Some f => Some (fun ts => let '(s, e) := f (t_sink ts) in
                                (mkTraced s (t_log ts), e))
    | None => None
    end;
  io_sync :=
    match @io_sync S ops with
    | Some f => Some (fun ts => let '(s, e) := f (t_sink ts) in
                                (mkTraced s (t_log ts), e))
    | None => None
    end;
  io_tell :=
    match @io_tell S ops with
    | Some f => Some (fun ts => let '(s, oe) := f (t_sink ts) in
                                (mkTraced s (t_log ts), oe))
    | None => None
    end
}.

(** The calls of the sink's [Write] between two states of its log:
    all of them succeeded when [e] is [nil]; otherwise the last one
    failed with [e] and those before it succeeded. *)
Definition Reported (log log' : list (option error)) (e : option error)
  : Prop :=
  exists calls,
    log' = log ++ calls /\
    match e with
    | None => Forall (fun c => c = None) calls
    | Some x =>
        exists pre, calls = pre ++ [Some x] /\ Forall (fun c => c = None) pre
    end.

(** The writer over the sink with room for ten bytes, observed. *)
Definition exTracedWriter : Writer (Traced QuotaSink) :=
  NewWriter (mkTraced (mkQuotaSink [] 10) []).

(** * Properties *)

Unset Implicit Arguments.

Lemma blockSize_eq : blockSize = 32768.
Proof. reflexivity. Qed.

#[global] Opaque blockSize.

(** Linear arithmetic that knows the constants of the format. *)
Ltac fmt_lia :=
  pose proof blockSize_eq;
  unfold headerSize, blockSizeMask, fullChunkType, firstChunkType,
    middleChunkType, lastChunkType in *;
  lia.

(** Conjunctions are split, equations are left alone. *)
Ltac splits := repeat match goal with |- _ /\ _ => split end.

(** Projections of updated writer states. *)
Ltac wsimpl :=
  cbn [set_w_ij set_w_buf set_w_first set_w_pending set_w_err
       w_i w_j w_buf w_pending w_err w_w w_written w_first
       w_baseOffset w_blockNumber w_lastRecordOffset fst snd].

(** The side conditions of the reader's bookkeeping. *)
Ltac rdone :=
  splits; auto; try lia; try discriminate; try congruence.

(** Projections of updated reader states. *)
Ltac rsimpl :=
  unfold set_r_err, set_r_seq, set_r_i, set_r_j, set_r_started;
  cbn [fst snd r_i r_j r_n r_buf r_err r_r r_seq r_started r_recovering
       r_last].

(** ** Loops *)

Section Loops.
Context {A B : Type} (step : A -> loop A B) (m : A -> nat).
Hypothesis step_decreases :
  forall a a', step a = Continue a' -> (m a' < m a)%nat.

Lemma run_loop_enough fuel a :
  (m a < fuel)%nat -> exists b, run_loop step fuel a = Some b.
Proof.
  revert a. induction fuel as [|fuel IH]; intros a Hlt; [lia|].
  simpl. destruct (step a) as [a'|b] eqn:E; [|eauto].
  apply IH. apply step_decreases in E. lia.
Qed.

Lemma run_loop_more fuel fuel' a b :
  run_loop step fuel a = Some b -> (fuel <= fuel')%nat ->
  run_loop step fuel' a = Some b.
Proof.
  revert fuel' a. induction fuel as [|fuel IH]; intros fuel' a H Hle.
  - discriminate.
  - destruct fuel' as [|fuel']; [lia|]. simpl in *.
    destruct (step a); [apply IH; [assumption|lia]|assumption].
Qed.

(** The loop run with the fuel its measure prescribes obeys the
    equation of the [for] loop. *)
Lemma run_loop_unfold a :
  run_loop step (S (m a)) a =
  match step a with
  | Continue a' => run_loop step (S (m a')) a'
  | Return b => Some b
  end.
Proof.
  change (run_loop step (S (m a)) a) with
    (match step a with
     | Continue a' => run_loop step (m a) a'
     | Return b => Some b
     end).
  destruct (step a) as [a'|b] eqn:E; [|reflexivity].
  pose proof (step_decreases _ _ E) as Hlt.
  destruct (run_loop_enough (S (m a')) a') as [b Hb]; [lia|].
  rewrite Hb. apply run_loop_more with (fuel := S (m a')); [assumption|lia].
Qed.
End Loops.

(** ** Lists, slices and splices *)

Lemma len_nonneg {A} (l : list A) : 0 <= len l.
Proof. unfold len. lia. Qed.

Lemma len_app {A} (a b : list A) : len (a ++ b) = len a + len b.
Proof. unfold len. rewrite length_app. lia. Qed.

Lemma len_nil {A} : len (@nil A) = 0.
Proof. reflexivity. Qed.

Lemma len_cons {A} (a : A) l : len (a :: l) = 1 + len l.
Proof. unfold len. simpl length. lia. Qed.

Lemma len_zeros k : len (zeros k) = Z.max 0 k.
Proof. unfold len, zeros. rewrite repeat_length. lia. Qed.

Lemma len_le_split n z : len (le_split n z) = Z.of_nat n.
Proof. unfold len. now rewrite length_le_split. Qed.

Lemma len_firstn {A} k (l : list A) :
  0 <= k <= len l -> len (firstn (Z.to_nat k) l) = k.
Proof. unfold len. rewrite length_firstn. lia. Qed.

Lemma len_skipn {A} k (l : list A) :
  0 <= k <= len l -> len (skipn (Z.to_nat k) l) = len l - k.
Proof. unfold len. rewrite length_skipn. lia. Qed.

Lemma app_eq_len {A} (a a' b b' : list A) :
  a ++ b = a' ++ b' -> length a = length a' -> a = a' /\ b = b'.
Proof.
  revert a'. induction a as [|x a IH]; intros [|x' a'] H Hl;
    simpl in *; try discriminate; auto.
  injection H as -> H. destruct (IH a' H) as [-> ->]; auto.
Qed.

Lemma holds_nonneg buf k x : holds buf k x -> 0 <= k.
Proof. now intros [H _]. Qed.

Lemma holds_len buf k x : holds buf k x -> k + len x <= len buf.
Proof.
  intros [_ (a & c & -> & <-)]. rewrite !len_app.
  pose proof (len_nonneg c). lia.
Qed.

Lemma holds_nil buf k : 0 <= k <= len buf -> holds buf k [].
Proof.
  intros Hk. split; [lia|].
  exists (firstn (Z.to_nat k) buf), (skipn (Z.to_nat k) buf). split.
  - simpl. now rewrite firstn_skipn.
  - now apply len_firstn.
Qed.

Lemma holds_app_l buf k x y : holds buf k (x ++ y) -> holds buf k x.
Proof.
  intros [Hk (a & c & -> & <-)]. split; [assumption|].
  exists a, (y ++ c). now rewrite <- app_assoc.
Qed.

Lemma holds_app_r buf k x y : holds buf k (x ++ y) -> holds buf (k + len x) y.
Proof.
  intros [Hk (a & c & -> & <-)]. split; [pose proof (len_nonneg x); lia|].
  exists (a ++ x), c. rewrite len_app, <- !app_assoc. auto.
Qed.

Lemma holds_app buf k x y :
  holds buf k x -> holds buf (k + len x) y -> holds buf k (x ++ y).
Proof.
  intros [Hk (a & c & -> & <-)] [_ (a' & c' & E & L)].
  split; [assumption|]. exists a, c'. split; [|reflexivity].
  rewrite (app_assoc a x c) in E.
  apply app_eq_len in E.
  - destruct E as [_ ->]. now rewrite <- app_assoc.
  - rewrite <- len_app in L. unfold len in L. lia.
Qed.

Lemma holds_slice buf k hi x : holds buf k x -> hi = k + len x -> slice buf k hi = x.
Proof.
  intros [Hk (a & c & -> & <-)] ->. unfold slice, len.
  replace (Z.to_nat (Z.of_nat (length a) + Z.of_nat (length x) - Z.of_nat (length a)))
    with (length x) by lia.
  rewrite Nat2Z.id, skipn_app, skipn_all2, Nat.sub_diag by lia. simpl.
  rewrite firstn_app, firstn_all2, Nat.sub_diag by lia. simpl.
  apply app_nil_r.
Qed.

Lemma holds_at buf k b x : holds buf k (b :: x) -> at_ buf k = b.
Proof.
  intros [Hk (a & c & -> & <-)]. unfold at_, len.
  rewrite Nat2Z.id, app_nth2, Nat.sub_diag by lia. reflexivity.
Qed.

Lemma holds_firstn buf x : holds buf 0 x -> firstn (length x) buf = x.
Proof.
  intros [_ (a & c & -> & L)]. destruct a; [|discriminate]. simpl.
  rewrite firstn_app, firstn_all2, Nat.sub_diag by lia. simpl. apply app_nil_r.
Qed.

Lemma len_splice {A} (buf : list A) k x :
  0 <= k -> k + len x <= len buf -> len (splice buf k x) = len buf.
Proof.
  intros Hk Hle. unfold splice, len in *.
  rewrite !length_app, length_firstn, length_skipn. lia.
Qed.

Lemma holds_splice buf k x :
  0 <= k -> k + len x <= len buf -> holds (splice buf k x) k x.
Proof.
  intros Hk Hle. split; [assumption|]. unfold splice.
  eexists _, _. split; [reflexivity|]. apply len_firstn.
  pose proof (len_nonneg x). lia.
Qed.

Lemma holds_splice_before buf k x k' y :
  holds buf k x -> k + len x <= k' -> k' + len y <= len buf ->
  holds (splice buf k' y) k x.
Proof.
  intros [Hk (a & c & -> & <-)] Hle Hfit. split; [assumption|].
  unfold splice. exists a. eexists. split; [|reflexivity].
  unfold len in *.
  rewrite firstn_app, (firstn_all2 a) by lia.
  rewrite firstn_app, (firstn_all2 x) by lia.
  rewrite <- !app_assoc. reflexivity.
Qed.

Lemma holds_splice_after buf k x k' y :
  holds buf k x -> 0 <= k' -> k' + len y <= k ->
  holds (splice buf k' y) k x.
Proof.
  intros [Hk (a & c & -> & <-)] Hk' Hle. split; [assumption|].
  unfold splice, len in *.
  rewrite skipn_app.
  replace (Z.to_nat k' + length y - length a)%nat with 0%nat by lia.
  rewrite skipn_0, firstn_app.
  replace (Z.to_nat k' - length a)%nat with 0%nat by lia.
  rewrite firstn_0, app_nil_r.
  exists (firstn (Z.to_nat k') a ++ y ++ skipn (Z.to_nat k' + length y) a), c.
  split; [now rewrite <- !app_assoc|].
  rewrite !length_app, length_firstn, length_skipn. lia.
Qed.

Lemma holds_tail buf k x : holds buf k x -> len buf = k + len x ->
  skipn (Z.to_nat k) buf = x.
Proof.
  intros [Hk (a & c & -> & <-)] L. unfold len in *.
  rewrite !length_app in L. destruct c; [|simpl in L; lia].
  rewrite Nat2Z.id, skipn_app, skipn_all2, Nat.sub_diag, app_nil_r by lia.
  reflexivity.
Qed.

(** ** The chunk-advance loop *)

Section ReaderLoop.
Variable crc : list byte -> Z.

Lemma Recover_measure r : (r_measure (Recover r) <= r_measure r)%nat.
Proof.
  unfold Recover, r_measure. destruct (r_err r); simpl; lia.
Qed.


Lemma length_remaining_advance (d : list byte) pos k :
  length (skipn (pos + length (firstn k (skipn pos d))) d) =
  (length (skipn pos d) - length (firstn k (skipn pos d)))%nat.
Proof. rewrite !length_skipn, length_firstn, length_skipn. lia. Qed.

Lemma nextChunkStep_decreases wantFirst r r' :
  nextChunkStep crc wantFirst r = Continue r' ->
  (r_measure r' < r_measure r)%nat.
Proof.
  unfold nextChunkStep.
  destruct (r_j r + headerSize <=? r_n r) eqn:Hhdr.
  - apply Z.leb_le in Hhdr. unfold headerSize in Hhdr.
    set (lth := le_combine (slice (r_buf r) (r_j r + 4) (r_j r + 6))).
    assert (0 <= lth) by apply le_combine_bound.
    repeat match goal with
           | |- context [if ?c then _ else _] => destruct c eqn:?
           end; intros E; inversion E; subst; clear E;
      unfold Recover; simpl; try destruct (r_err r);
      unfold r_measure, headerSize in *; simpl in *; lia.
  - destruct ((r_n r <? blockSize) && r_started r).
    + destruct (negb (r_j r =? r_n r)); discriminate.
    + unfold ReadFull. cbv zeta.
      set (d := firstn (Z.to_nat blockSize) (s_remaining (r_r r))).
      destruct (len d =? 0) eqn:Hd.
      * simpl. discriminate.
      * apply Z.eqb_neq in Hd.
        assert (Hm : (r_measure
                  (mkReader (mkSource (s_data (r_r r)) (s_pos (r_r r) + Datatypes.length d)
                               (s_seekable (r_r r)))
                     (r_seq r) 0 0 (len d) (r_started r) (r_recovering r)
                     (r_last r) (r_err r) (splice (r_buf r) 0 d))
                < r_measure r)%nat).
        { unfold r_measure, s_remaining, len in *. simpl.
          subst d. unfold s_remaining. rewrite length_remaining_advance.
          rewrite length_firstn, length_skipn in *. lia. }
        destruct (len d <? blockSize); simpl; intros E; inversion E; subst;
          exact Hm.
Qed.

(** [nextChunk] is the [for] loop whose body is [nextChunkStep]. *)
Lemma nextChunk_unfold wantFirst r :
  nextChunk crc wantFirst r =
  match nextChunkStep crc wantFirst r with
  | Continue r' => nextChunk crc wantFirst r'
  | Return res => res
  end.
Proof.
  unfold nextChunk.
  rewrite (run_loop_unfold _ r_measure (nextChunkStep_decreases wantFirst)).
  destruct (nextChunkStep crc wantFirst r) as [r'|res]; [|reflexivity].
  destruct (run_loop_enough _ r_measure (nextChunkStep_decreases wantFirst)
              (S (r_measure r')) r') as [b ->]; [lia|reflexivity].
Qed.

(** Induction along the turns of the loop. *)
Lemma nextChunk_elim wantFirst (P : Reader -> Reader * option error -> Prop) :
  (forall r res, nextChunkStep crc wantFirst r = Return res -> P r res) ->
  (forall r r', nextChunkStep crc wantFirst r = Continue r' ->
                P r' (nextChunk crc wantFirst r') -> P r (nextChunk crc wantFirst r')) ->
  forall r, P r (nextChunk crc wantFirst r).
Proof.
  intros Hret Hcont r.
  remember (r_measure r) as k eqn:Hk. revert r Hk.
  induction k as [k IH] using lt_wf_ind. intros r ->.
  rewrite nextChunk_unfold.
  destruct (nextChunkStep crc wantFirst r) as [r'|res] eqn:E.
  - apply Hcont; [assumption|].
    eapply IH; [|reflexivity]. eapply nextChunkStep_decreases; eassumption.
  - now apply Hret.
Qed.

End ReaderLoop.

(** ** Sequence numbers and stale payload sources *)

Section ReaderSeq.
Variable crc : list byte -> Z.






Lemma Read_stale x c r :
  x_seq x <> r_seq r -> Read crc x c r = (r, ([], Some ErrStaleReader)).
Proof.
  intros H. unfold Read.
  destruct (r_seq r =? x_seq x) eqn:E; [apply Z.eqb_eq in E; congruence|].
  reflexivity.
Qed.

End ReaderSeq.

(** ** The loop of [singleReader.Read] *)

Section ReadLoop.
Variable crc : list byte -> Z.

Lemma nextChunkStep_success wantFirst r r' :
  nextChunkStep crc wantFirst r = Return (r', None) ->
  (r_measure r' < r_measure r)%nat.
Proof.
  unfold nextChunkStep.
  destruct (r_j r + headerSize <=? r_n r) eqn:Hhdr.
  - apply Z.leb_le in Hhdr. unfold headerSize in Hhdr.
    set (lth := le_combine (slice (r_buf r) (r_j r + 4) (r_j r + 6))).
    assert (0 <= lth) by apply le_combine_bound.
    repeat match goal with
           | |- context [if ?c then _ else _] => destruct c eqn:?
           end; intros E; inversion E; subst; clear E.
    unfold r_measure, headerSize in *; simpl in *; lia.
  - destruct ((r_n r <? blockSize) && r_started r).
    + destruct (negb (r_j r =? r_n r)); discriminate.
    + unfold ReadFull. cbv zeta.
      set (d := firstn (Z.to_nat blockSize) (s_remaining (r_r r))).
      destruct (len d =? 0); [discriminate|].
      destruct (len d <? blockSize); simpl; discriminate.
Qed.

Lemma nextChunk_success wantFirst r r' :
  nextChunk crc wantFirst r = (r', None) ->
  (r_measure r' < r_measure r)%nat.
Proof.
  revert r'.
  apply (nextChunk_elim crc wantFirst
           (fun r res => forall r', res = (r', None) ->
                                    (r_measure r' < r_measure r)%nat)).
  - intros r0 res E r' ->. eapply nextChunkStep_success; eassumption.
  - intros r0 r1 E IH r' H. apply IH in H.
    apply nextChunkStep_decreases in E. lia.
Qed.

Lemma readStep_decreases r r' :
  readStep crc r = Continue r' -> (r_measure r' < r_measure r)%nat.
Proof.
  unfold readStep. destruct (r_i r =? r_j r); [|discriminate].
  destruct (r_last r); [discriminate|].
  destruct (nextChunk crc false r) as [r1 e] eqn:E.
  destruct e; simpl; [discriminate|].
  intros H. inversion H; subst. apply nextChunk_success in E.
  unfold r_measure in *. simpl. exact E.
Qed.

Lemma readLoop_unfold r :
  readLoop crc r =
  match readStep crc r with
  | Continue r' => readLoop crc r'
  | Return res => res
  end.
Proof.
  unfold readLoop.
  rewrite (run_loop_unfold _ r_measure readStep_decreases).
  destruct (readStep crc r) as [r'|res]; [|reflexivity].
  destruct (run_loop_enough _ r_measure readStep_decreases
              (S (r_measure r')) r') as [b ->]; [lia|reflexivity].
Qed.

End ReadLoop.

Lemma holds_of_slice buf lo hi :
  0 <= lo -> lo <= hi -> hi <= len buf ->
  holds buf lo (slice buf lo hi) /\ len (slice buf lo hi) = hi - lo.
Proof.
  intros H0 H1 H2.
  assert (L : len (slice buf lo hi) = hi - lo).
  { unfold slice, len in *. rewrite length_firstn, length_skipn. lia. }
  split; [|exact L]. split; [assumption|].
  exists (firstn (Z.to_nat lo) buf), (skipn (Z.to_nat hi) buf). split.
  - unfold slice.
    rewrite <- (firstn_skipn (Z.to_nat lo) buf) at 1. f_equal.
    rewrite <- (firstn_skipn (Z.to_nat (hi - lo)) (skipn (Z.to_nat lo) buf)) at 1.
    f_equal. rewrite skipn_skipn. f_equal. lia.
  - apply len_firstn. lia.
Qed.

(** ** The header of a chunk *)

Section Header.
Variable crc : list byte -> Z.
Context {Sink : Type} {sink_ops : IoWriter Sink}.

Lemma fillHeader_holds last (w : Writer Sink) :
  0 <= w_i w -> w_i w + headerSize <= w_j w -> w_j w <= blockSize ->
  len (w_buf w) = blockSize ->
  exists buf',
    fillHeader crc last w = Ok (set_w_buf buf' w) /\
    len buf' = blockSize /\
    holds buf' (w_i w)
      (encChunk crc (mkChunk (chunkTypeOf last (w_first w))
                       (slice (w_buf w) (w_i w + headerSize) (w_j w)))) /\
    (forall k x, holds (w_buf w) k x ->
                 k + len x <= w_i w \/ w_i w + headerSize <= k ->
                 holds buf' k x).
Proof.
  intros Hi Hij Hj Hlen. unfold fillHeader.
  destruct ((w_i w + headerSize >? w_j w) || (w_j w >? blockSize)) eqn:Hbad.
  { apply orb_true_iff in Hbad. destruct Hbad as [H|H]; apply Z.gtb_lt in H; lia. }
  fold (chunkTypeOf last (w_first w)).
  set (t := chunkTypeOf last (w_first w)).
  set (buf1 := splice (w_buf w) (w_i w + 6) [byte.of_Z t]).
  set (cv := crcValue crc (slice buf1 (w_i w + 6) (w_j w))).
  set (buf2 := splice buf1 (w_i w + 0) (le_split 4 cv)).
  set (buf3 := splice buf2 (w_i w + 4) (le_split 2 (w_j w - w_i w - headerSize))).
  unfold headerSize in *.
  destruct (holds_of_slice (w_buf w) (w_i w + 7) (w_j w)) as [Hcur Lcur]; try lia.
  set (cur := slice (w_buf w) (w_i w + 7) (w_j w)) in *.
  assert (L1 : len buf1 = blockSize).
  { unfold buf1. rewrite len_splice; rewrite ?len_cons, ?len_nil; lia. }
  assert (L2 : len buf2 = blockSize).
  { unfold buf2. rewrite len_splice; rewrite ?len_le_split; lia. }
  assert (L3 : len buf3 = blockSize).
  { unfold buf3. rewrite len_splice; rewrite ?len_le_split; lia. }
  assert (T1 : holds buf1 (w_i w + 6) (byte.of_Z t :: cur)).
  { change (byte.of_Z t :: cur) with ([byte.of_Z t] ++ cur). apply holds_app.
    - apply holds_splice; rewrite ?len_cons, ?len_nil; lia.
    - rewrite len_cons, len_nil.
      replace (w_i w + 6 + (1 + 0)) with (w_i w + 7) by lia.
      apply holds_splice_after; rewrite ?len_cons, ?len_nil; try lia. exact Hcur. }
  assert (Ecv : cv = crcValue crc (byte.of_Z t :: cur)).
  { unfold cv. f_equal. apply holds_slice; [exact T1|].
    rewrite len_cons. lia. }
  exists buf3. split; [reflexivity|]. split; [exact L3|]. split.
  - unfold encChunk. simpl c_type. simpl c_data.
    rewrite Lcur, <- Ecv.
    replace (w_j w - (w_i w + 7)) with (w_j w - w_i w - 7) by lia.
    apply holds_app; [|apply holds_app].
    + apply holds_splice_before; rewrite ?len_le_split; try lia.
      replace (w_i w) with (w_i w + 0) at 1 by lia.
      apply holds_splice; rewrite ?len_le_split; lia.
    + rewrite len_le_split.
      apply holds_splice; rewrite ?len_le_split; lia.
    + rewrite !len_le_split.
      replace (w_i w + Z.of_nat 4 + Z.of_nat 2) with (w_i w + 6) by lia.
      apply holds_splice_after; rewrite ?len_le_split; try lia.
      apply holds_splice_after; rewrite ?len_le_split; try lia.
      exact T1.
  - intros k x Hx Hdis.
    pose proof (holds_nonneg _ _ _ Hx) as Hk.
    pose proof (holds_len _ _ _ Hx) as Hkl.
    destruct Hdis as [Hb|Ha].
    + unfold buf3.
      apply holds_splice_before; rewrite ?len_le_split, ?L2; try lia.
      unfold buf2.
      apply holds_splice_before; rewrite ?len_le_split, ?L1; try lia.
      unfold buf1.
      apply holds_splice_before; rewrite ?len_cons, ?len_nil; try lia.
      exact Hx.
    + unfold buf3.
      apply holds_splice_after; rewrite ?len_le_split; try lia.
      unfold buf2.
      apply holds_splice_after; rewrite ?len_le_split; try lia.
      unfold buf1.
      apply holds_splice_after; rewrite ?len_cons, ?len_nil; try lia.
      exact Hx.
Qed.

End Header.

(** ** Parsing one chunk *)

Section Parse.
Variable crc : list byte -> Z.

Lemma crcValue_range b : 0 <= crcValue crc b < 2 ^ 32.
Proof. unfold crcValue. apply Z.mod_pos_bound. lia. Qed.

Lemma len_encChunk c : len (encChunk crc c) = headerSize + len (c_data c).
Proof.
  unfold encChunk, headerSize. rewrite !len_app, len_cons, !len_le_split. lia.
Qed.

(** What the header fields read back to. *)
Lemma header_fields buf j c :
  holds buf j (encChunk crc c) ->
  0 <= c_type c < 256 -> len (c_data c) < 2 ^ 16 ->
  le_combine (slice buf (j + 0) (j + 4))
    = crcValue crc (byte.of_Z (c_type c) :: c_data c) /\
  le_combine (slice buf (j + 4) (j + 6)) = len (c_data c) /\
  byte.unsigned (at_ buf (j + 6)) = c_type c /\
  slice buf (j + headerSize - 1) (j + headerSize + len (c_data c))
    = byte.of_Z (c_type c) :: c_data c /\
  slice buf (j + headerSize) (j + headerSize + len (c_data c)) = c_data c.
Proof.
  intros H Ht Hl. unfold encChunk in H.
  pose proof (holds_app_l _ _ _ _ H) as H4.
  pose proof (holds_app_r _ _ _ _ H) as H'. rewrite len_le_split in H'.
  pose proof (holds_app_l _ _ _ _ H') as H2.
  pose proof (holds_app_r _ _ _ _ H') as H3. rewrite len_le_split in H3.
  change (byte.of_Z (c_type c) :: c_data c)
    with ([byte.of_Z (c_type c)] ++ c_data c) in H3.
  pose proof (holds_app_r _ _ _ _ H3) as H5.
  rewrite len_cons, len_nil in H5.
  unfold headerSize.
  splits.
  - rewrite Z.add_0_r, (holds_slice _ _ _ _ H4) by (rewrite len_le_split; lia).
    rewrite le_combine_split. apply Z.mod_small.
    change (2 ^ (Z.of_nat 4 * 8)) with (2 ^ 32). apply crcValue_range.
  - replace (j + 4) with (j + Z.of_nat 4) by lia.
    rewrite (holds_slice _ _ _ _ H2) by (rewrite len_le_split; lia).
    rewrite le_combine_split. apply Z.mod_small.
    change (2 ^ (Z.of_nat 2 * 8)) with (2 ^ 16).
    pose proof (len_nonneg (c_data c)). lia.
  - replace (j + 6) with (j + Z.of_nat 4 + Z.of_nat 2) by lia.
    rewrite (holds_at _ _ _ _ H3), byte.unsigned_of_Z.
    unfold byte.wrap. apply Z.mod_small. lia.
  - apply holds_slice.
    + replace (j + 7 - 1) with (j + Z.of_nat 4 + Z.of_nat 2) by lia. exact H3.
    + change (byte.of_Z (c_type c) :: c_data c)
        with ([byte.of_Z (c_type c)] ++ c_data c).
      rewrite len_app, len_cons, len_nil. lia.
  - apply holds_slice.
    + replace (j + 7) with (j + Z.of_nat 4 + Z.of_nat 2 + (1 + 0)) by lia.
      exact H5.
    + reflexivity.
Qed.

Lemma nextChunkStep_parse wantFirst r c :
  holds (r_buf r) (r_j r) (encChunk crc c) ->
  r_j r + headerSize + len (c_data c) <= r_n r ->
  valid_chunk c -> len (c_data c) < 2 ^ 16 ->
  nextChunkStep crc wantFirst r =
  if wantFirst && negb (is_first c) then Continue (skipped r c)
  else Return (accepted r c, None).
Proof.
  intros H Hn Hv Hl. unfold valid_chunk in Hv.
  destruct (header_fields _ _ _ H) as (E1 & E2 & E3 & E4 & _); [lia|lia|].
  pose proof (len_nonneg (c_data c)) as Hd.
  unfold nextChunkStep.
  destruct (r_j r + headerSize <=? r_n r) eqn:Hh;
    [|apply Z.leb_gt in Hh; lia].
  rewrite E1, E2, E3.
  replace (c_type c =? 0) with false by (symmetry; apply Z.eqb_neq; lia).
  rewrite !andb_false_r. cbn [r_j r_n r_i r_buf set_r_j set_r_i r_recovering].
  destruct (r_j r + headerSize + len (c_data c) >? r_n r) eqn:Hov;
    [apply Z.gtb_lt in Hov; lia|].
  rewrite E4, Z.eqb_refl. cbn [negb].
  unfold is_first, accepted, skipped, is_last.
  rewrite negb_orb, andb_assoc.
  destruct (wantFirst && negb (c_type c =? fullChunkType)
            && negb (c_type c =? firstChunkType)); reflexivity.
Qed.

(** A chunk is handed out only after its checksum has been tested. *)
Lemma nextChunkStep_verified wantFirst r r1 :
  nextChunkStep crc wantFirst r = Return (r1, None) ->
  exists h,
    in_verified_chunk crc r1 h /\
    (wantFirst = true ->
     byte.unsigned (at_ (r_buf r1) (h + 6)) = fullChunkType \/
     byte.unsigned (at_ (r_buf r1) (h + 6)) = firstChunkType).
Proof.
  unfold nextChunkStep.
  set (checksum := le_combine (slice (r_buf r) (r_j r + 0) (r_j r + 4))).
  set (length := le_combine (slice (r_buf r) (r_j r + 4) (r_j r + 6))).
  set (chunkType := byte.unsigned (at_ (r_buf r) (r_j r + 6))).
  assert (Hlen : 0 <= length) by apply le_combine_bound.
  destruct (r_j r + headerSize <=? r_n r).
  - destruct ((checksum =? 0) && (length =? 0) && (chunkType =? 0)).
    { destruct (wantFirst || r_recovering r); discriminate. }
    rsimpl.
    destruct (Z.gtb_spec (r_j r + headerSize + length) (r_n r)) as [Hov|Hov].
    { destruct (r_recovering r); discriminate. }
    destruct (Z.eqb_spec checksum
                (crcValue crc (slice (r_buf r) (r_j r + headerSize - 1)
                                 (r_j r + headerSize + length)))) as [Ec|Ec];
      cbn [negb].
    2:{ destruct (r_recovering r); discriminate. }
    destruct (wantFirst && negb (chunkType =? fullChunkType)
              && negb (chunkType =? firstChunkType)) eqn:Ew; [discriminate|].
    intros H. injection H as <-. exists (r_j r).
    unfold in_verified_chunk. rsimpl. splits; auto; try lia.
    intros ->. cbn [andb] in Ew. fold chunkType.
    destruct (Z.eqb_spec chunkType fullChunkType); [now left|].
    destruct (Z.eqb_spec chunkType firstChunkType); [now right|].
    discriminate.
  - destruct ((r_n r <? blockSize) && r_started r).
    { destruct (negb (r_j r =? r_n r)); discriminate. }
    destruct (ReadFull (r_r r) blockSize) as [src [d [e|]]].
    + destruct (negb (error_eqb e ErrUnexpectedEOF)); discriminate.
    + discriminate.
Qed.

Lemma nextChunk_verified wantFirst r r1 :
  nextChunk crc wantFirst r = (r1, None) ->
  exists h,
    in_verified_chunk crc r1 h /\
    (wantFirst = true ->
     byte.unsigned (at_ (r_buf r1) (h + 6)) = fullChunkType \/
     byte.unsigned (at_ (r_buf r1) (h + 6)) = firstChunkType).
Proof.
  revert r1.
  apply (nextChunk_elim crc wantFirst
           (fun r res => forall r1, res = (r1, None) ->
              exists h,
                in_verified_chunk crc r1 h /\
                (wantFirst = true ->
                 byte.unsigned (at_ (r_buf r1) (h + 6)) = fullChunkType \/
                 byte.unsigned (at_ (r_buf r1) (h + 6)) = firstChunkType))).
  - intros r0 res E r1 ->. now apply (nextChunkStep_verified wantFirst r0).
  - intros r0 r2 _ IH. exact IH.
Qed.

(** A chunk whose stored checksum is not that of its type and payload
    is refused. *)
Lemma nextChunkStep_mismatch wantFirst r :
  let length := le_combine (slice (r_buf r) (r_j r + 4) (r_j r + 6)) in
  let r' := set_r_j (r_j r + headerSize + length)
              (set_r_i (r_j r + headerSize) r) in
  r_j r + headerSize + length <= r_n r ->
  ~ (le_combine (slice (r_buf r) (r_j r) (r_j r + 4)) = 0 /\ length = 0 /\
     byte.unsigned (at_ (r_buf r) (r_j r + 6)) = 0) ->
  le_combine (slice (r_buf r) (r_j r) (r_j r + 4))
    <> crcValue crc (slice (r_buf r) (r_j r + 6) (r_j r + headerSize + length)) ->
  nextChunkStep crc wantFirst r =
  if r_recovering r then Continue (Recover r')
  else Return (r', Some ErrChecksumMismatch).
Proof.
  intros length r' Hfit Hnz Hne. subst r'.
  assert (Hlen : 0 <= length) by apply le_combine_bound.
  unfold nextChunkStep. rewrite Z.add_0_r. fold length.
  set (checksum := le_combine (slice (r_buf r) (r_j r) (r_j r + 4))) in *.
  set (chunkType := byte.unsigned (at_ (r_buf r) (r_j r + 6))) in *.
  destruct (Z.leb_spec (r_j r + headerSize) (r_n r)); [|lia].
  destruct ((checksum =? 0) && (length =? 0) && (chunkType =? 0)) eqn:Ez.
  { exfalso. apply Hnz.
    apply andb_prop in Ez. destruct Ez as [Ez E3].
    apply andb_prop in Ez. destruct Ez as [E1 E2].
    apply Z.eqb_eq in E1, E2, E3. auto. }
  rsimpl.
  destruct (Z.gtb_spec (r_j r + headerSize + length) (r_n r)); [lia|].
  replace (r_j r + headerSize - 1) with (r_j r + 6) by (unfold headerSize; lia).
  destruct (Z.eqb_spec checksum
              (crcValue crc (slice (r_buf r) (r_j r + 6)
                               (r_j r + headerSize + length)))) as [Ec|Ec];
    [contradiction|].
  reflexivity.
Qed.

End Parse.

Section HeaderLayout.
Variable crc : list byte -> Z.
Context {Sink : Type} {sink_ops : IoWriter Sink}.

(** C3. For a pending chunk occupying [buf[i:j]], [fillHeader] stores
    the payload length [j - i - 7] as a little-endian 16-bit value in
    bytes [i+4 .. i+6], the chunk type in byte [i+6], and in bytes
    [i .. i+4] the little-endian 32-bit checksum of exactly the span
    [buf[i+6:j]], which is the type byte followed by the payload; the
    payload itself is left as it was. The reader tests the checksum on
    the very same span. A reader whose buffer holds these bytes at its
    position [j = i] accepts the chunk. Whatever its buffer and source
    hold, [nextChunk] hands out a chunk with header at [h] only if the
    checksum stored in bytes [h .. h+4] is that of the span
    [buf[h+6:j]], where [j] is [h + 7] plus the length stored in the
    header. And a chunk that lies within the bytes read, whose header is
    not all zero and which stores another value than the checksum of
    that span is refused: the reader answers [ErrChecksumMismatch], or
    goes on to the next chunk while it is recovering. *)
Theorem fillHeader_layout last (w : Writer Sink) :
  0 <= w_i w -> w_i w + headerSize <= w_j w -> w_j w <= blockSize ->
  len (w_buf w) = blockSize ->
  exists w',
    fillHeader crc last w = Ok w' /\
    w_i w' = w_i w /\ w_j w' = w_j w /\
    le_combine (slice (w_buf w') (w_i w + 4) (w_i w + 6))
      = w_j w - w_i w - headerSize /\
    byte.unsigned (at_ (w_buf w') (w_i w + 6)) = chunkTypeOf last (w_first w) /\
    le_combine (slice (w_buf w') (w_i w) (w_i w + 4))
      = crcValue crc (slice (w_buf w') (w_i w + 6) (w_j w)) /\
    slice (w_buf w') (w_i w + 6) (w_j w)
      = byte.of_Z (chunkTypeOf last (w_first w))
        :: slice (w_buf w) (w_i w + headerSize) (w_j w) /\
    slice (w_buf w') (w_i w + headerSize) (w_j w)
      = slice (w_buf w) (w_i w + headerSize) (w_j w) /\
    (forall r, r_buf r = w_buf w' -> r_j r = w_i w -> w_j w <= r_n r ->
       exists r',
         nextChunkStep crc false r = Return (r', None) /\
         r_i r' = w_i w + headerSize /\ r_j r' = w_j w /\
         slice (r_buf r') (r_i r' - 1) (r_j r')
           = slice (w_buf w') (w_i w + 6) (w_j w)) /\
    (forall wantFirst r r1,
       nextChunk crc wantFirst r = (r1, None) ->
       exists h,
         r_i r1 = h + headerSize /\
         r_j r1 = r_i r1 + le_combine (slice (r_buf r1) (h + 4) (h + 6)) /\
         r_j r1 <= r_n r1 /\
         le_combine (slice (r_buf r1) h (h + 4))
           = crcValue crc (slice (r_buf r1) (h + 6) (r_j r1))) /\
    (forall wantFirst r,
       let h := r_j r in
       let length := le_combine (slice (r_buf r) (h + 4) (h + 6)) in
       let r' := set_r_j (h + headerSize + length)
                   (set_r_i (h + headerSize) r) in
       h + headerSize + length <= r_n r ->
       ~ (le_combine (slice (r_buf r) h (h + 4)) = 0 /\ length = 0 /\
          byte.unsigned (at_ (r_buf r) (h + 6)) = 0) ->
       le_combine (slice (r_buf r) h (h + 4))
         <> crcValue crc (slice (r_buf r) (h + 6) (h + headerSize + length)) ->
       nextChunkStep crc wantFirst r =
         (if r_recovering r then Continue (Recover r')
          else Return (r', Some ErrChecksumMismatch)) /\
       (r_recovering r = false ->
        nextChunk crc wantFirst r = (r', Some ErrChecksumMismatch))).
Proof.
  intros Hi Hij Hj Hlen.
  destruct (fillHeader_holds crc last w Hi Hij Hj Hlen)
    as (buf' & E & L & H & _).
  set (c := mkChunk (chunkTypeOf last (w_first w))
              (slice (w_buf w) (w_i w + headerSize) (w_j w))) in *.
  assert (Lc : len (c_data c) = w_j w - w_i w - headerSize).
  { simpl. unfold headerSize in *.
    destruct (holds_of_slice (w_buf w) (w_i w + 7) (w_j w)); lia. }
  assert (Ht : valid_chunk c).
  { unfold valid_chunk, c, chunkTypeOf. simpl.
    destruct last, (w_first w); fmt_lia. }
  assert (Hl : len (c_data c) < 2 ^ 16) by (rewrite Lc; fmt_lia).
  destruct (header_fields crc _ _ _ H) as (E1 & E2 & E3 & E4 & E5);
    [unfold valid_chunk in Ht; lia|exact Hl|].
  rewrite Lc in E4, E5.
  replace (w_i w + headerSize + (w_j w - w_i w - headerSize)) with (w_j w)
    in E4, E5 by lia.
  replace (w_i w + headerSize - 1) with (w_i w + 6) in E4 by (unfold headerSize; lia).
  rewrite Z.add_0_r in E1.
  exists (set_w_buf buf' w). cbn [set_w_buf w_i w_j w_buf].
  split; [exact E|]. split; [reflexivity|]. split; [reflexivity|].
  split; [now rewrite E2|]. split; [exact E3|].
  split; [now rewrite E1, E4|]. split; [exact E4|]. split; [exact E5|].
  split; [|split].
  - intros r Hb Hrj Hn.
    rewrite <- Hb, <- Hrj in H.
    rewrite (nextChunkStep_parse crc false r c H) by (try assumption; lia).
    cbn [andb]. eexists. split; [reflexivity|].
    unfold accepted. cbn [r_i r_j r_buf]. rewrite Hrj, Lc, Hb.
    split; [reflexivity|]. split; [lia|].
    f_equal; unfold headerSize; lia.
  - intros wantFirst r r1 EN.
    destruct (nextChunk_verified crc wantFirst r r1 EN)
      as (h & (Ei & Ej & _ & Hn & Ec & _) & _).
    exists h. rewrite Z.add_0_r in Ec.
    replace (r_i r1 - 1) with (h + 6) in Ec by (unfold headerSize in Ei; lia).
    auto.
  - intros wantFirst r Hfit Hnz Hne.
    pose proof (nextChunkStep_mismatch crc wantFirst r Hfit Hnz Hne) as ES.
    cbv zeta in ES. split; [exact ES|].
    intros Hrec. rewrite nextChunk_unfold, ES, Hrec. reflexivity.
Qed.

End HeaderLayout.

(** ** The bookkeeping of the writer *)

Section WriterSafety.
Variable crc : list byte -> Z.
Context {Sink : Type} {sink_ops : IoWriter Sink}.

Lemma WSafe_set_buf (w : Writer Sink) buf :
  WSafe w -> len buf = blockSize -> WSafe (set_w_buf buf w).
Proof. unfold WSafe. simpl. tauto. Qed.

Lemma fillHeader_safe last (w : Writer Sink) :
  WSafe w -> w_pending w = true ->
  exists buf', fillHeader crc last w = Ok (set_w_buf buf' w) /\
               len buf' = blockSize.
Proof.
  intros (Hi & Hij & Hj & Hp & Hl) P.
  destruct (fillHeader_holds crc last w) as (buf' & E & L & _); auto.
  eauto.
Qed.

Lemma writeBlock_fields (w : Writer Sink) :
  w_i (writeBlock w) = 0 /\ w_j (writeBlock w) = headerSize /\
  w_written (writeBlock w) = 0 /\
  w_pending (writeBlock w) = w_pending w /\
  w_first (writeBlock w) = w_first w /\
  w_buf (writeBlock w) = w_buf w /\
  w_err (writeBlock w)
    = snd (io_write (w_w w) (slice (w_buf w) (w_written w) (len (w_buf w)))).
Proof.
  unfold writeBlock. destruct (io_write _ _). simpl. splits; reflexivity.
Qed.

Lemma writeBlock_safe (w : Writer Sink) :
  len (w_buf w) = blockSize -> WSafe (writeBlock w).
Proof.
  intros Hl. destruct (writeBlock_fields w) as (Ei & Ej & _ & _ & _ & Eb & _).
  unfold WSafe. rewrite Ei, Ej, Eb. splits; fmt_lia.
Qed.

Lemma copy_spec buf j (p : list byte) :
  len buf = blockSize -> 0 <= j -> j < blockSize -> p <> [] ->
  let n := Z.min (blockSize - j) (len p) in
  copy buf j p = (splice buf j (firstn (Z.to_nat n) p), n) /\
  1 <= n /\ j + n <= blockSize /\ n <= len p /\
  len (firstn (Z.to_nat n) p) = n /\
  len (splice buf j (firstn (Z.to_nat n) p)) = blockSize /\
  (length (skipn (Z.to_nat n) p) < length p)%nat.
Proof.
  intros Hl Hj Hjb Hp n. unfold copy. rewrite Hl. fold n.
  assert (1 <= len p) by (destruct p; [congruence|rewrite len_cons;
                          pose proof (len_nonneg p); lia]).
  assert (Hn : 1 <= n <= len p) by (unfold n; lia).
  assert (Ln : len (firstn (Z.to_nat n) p) = n) by (apply len_firstn; lia).
  splits; try lia.
  - reflexivity.
  - rewrite len_splice; lia.
  - rewrite length_skipn. unfold len in *. lia.
Qed.

Lemma writeStep_safe (w : Writer Sink) p :
  WSafe w -> w_pending w = true -> w_err w = None ->
  match writeStep crc (w, p) with
  | Continue (w', p') =>
      WSafe w' /\ w_pending w' = true /\ w_err w' = None /\
      (length p' < length p)%nat
  | Return (Ok (w', e)) =>
      WSafe w' /\ w_pending w' = true /\ w_err w' = e
  | Return _ => False
  end.
Proof.
  intros S P E. unfold writeStep. destruct p as [|b p]; [auto|].
  pose proof S as (Hi & Hij & Hj & Hp & Hl).
  destruct (w_j w =? blockSize) eqn:Hfull.
  - destruct (fillHeader_safe false w S P) as (buf' & -> & L).
    cbn [bind].
    destruct (writeBlock_fields (set_w_buf buf' w))
      as (Ei & Ej & _ & Epd & _ & Eb & _).
    pose proof (writeBlock_safe (set_w_buf buf' w) L) as S'.
    set (w1 := writeBlock (set_w_buf buf' w)) in *.
    destruct (w_err w1) eqn:E1.
    + split; [exact S'|]. split; [rewrite Epd; exact P|exact E1].
    + cbn [set_w_first w_buf w_j w_i]. rewrite Ej, Eb. cbn [set_w_buf w_buf].
      destruct (copy_spec buf' headerSize (b :: p))
        as (-> & ? & ? & ? & ? & ? & ?); try fmt_lia; try discriminate.
      unfold WSafe. wsimpl. rewrite Ei, Epd. wsimpl.
      splits; auto; fmt_lia.
  - apply Z.eqb_neq in Hfull.
    assert (Hcp := copy_spec (w_buf w) (w_j w) (b :: p)).
    destruct Hcp as (-> & ? & ? & ? & ? & ? & ?); try fmt_lia; try discriminate.
    specialize (Hp P).
    unfold WSafe. wsimpl. splits; auto; fmt_lia.
Qed.

Lemma write_loop_safe fuel : forall (w : Writer Sink) p,
  WSafe w -> w_pending w = true -> w_err w = None ->
  (length p < fuel)%nat ->
  exists w' e,
    run_loop (writeStep crc) fuel (w, p) = Some (Ok (w', e)) /\
    WSafe w' /\ w_pending w' = true /\ w_err w' = e.
Proof.
  induction fuel as [|fuel IH]; intros w p S P E Hf; [lia|].
  cbn [run_loop].
  pose proof (writeStep_safe w p S P E) as H.
  destruct (writeStep crc (w, p)) as [[w1 p1]|[[w1 e]| |]]; try contradiction.
  - destruct H as (S1 & P1 & E1 & Hl). apply IH; auto. lia.
  - eauto.
Qed.

Lemma Write_safe p (w : Writer Sink) :
  WSafe w ->
  exists w' n e, Write crc p w = Ok (w', (n, e)) /\ WSafe w'.
Proof.
  intros Sf. pose proof Sf as (Hi & Hij & Hj & Hp & Hl).
  unfold Write. destruct (w_err w) eqn:E; [eauto|].
  assert (Hopen : exists w1 e1,
    startRecord w = (w1, e1) /\ WSafe w1 /\
    (e1 = None -> w_pending w1 = true /\ w_err w1 = None)).
  { unfold startRecord. destruct (w_pending w) eqn:P; cbn [negb].
    - exists w, None. auto.
    - cbv zeta. cbn [set_w_ij w_j w_i w_buf].
      destruct (w_j w + headerSize >? blockSize) eqn:Hov.
      + apply Z.gtb_lt in Hov.
        set (w0 := set_w_buf _ _).
        assert (L0 : len (w_buf w0) = blockSize).
        { unfold w0. wsimpl. rewrite len_splice; rewrite ?len_zeros; lia. }
        pose proof (writeBlock_safe w0 L0) as S1.
        destruct (w_err (writeBlock w0)) eqn:E1.
        * eexists _, _. split; [reflexivity|]. split; [exact S1|discriminate].
        * eexists _, _. split; [reflexivity|].
          destruct S1 as (? & ? & ? & ? & ?).
          unfold WSafe. wsimpl. splits; auto.
          destruct (writeBlock_fields w0) as (Ei & Ej & _). rewrite Ei, Ej. lia.
      + rewrite Z.gtb_ltb in Hov. apply Z.ltb_ge in Hov. cbn [set_w_ij w_err]. rewrite E.
        eexists _, _. split; [reflexivity|].
        unfold WSafe. wsimpl. splits; auto; fmt_lia. }
  destruct Hopen as (w1 & e1 & -> & S1 & H1).
  destruct e1 as [e1|]; [eauto|].
  destruct H1 as [P1 E1]; [reflexivity|].
  destruct (write_loop_safe (S (length p)) w1 p S1 P1 E1) as (w2 & e2 & -> & S2 & _);
    [lia|].
  cbn [bind]. destruct e2; eauto.
Qed.

End WriterSafety.

Section WriterOps.
Variable crc : list byte -> Z.
Context {Sink : Type} {sink_ops : IoWriter Sink}.

Lemma NewWriter_safe (snk : Sink) : WSafe (NewWriter snk).
Proof.
  unfold NewWriter.
  assert (L : len (zeros blockSize) = blockSize) by (rewrite len_zeros; fmt_lia).
  destruct io_tell as [tell|].
  - destruct (tell snk) as [w' [o err]]. unfold WSafe. wsimpl.
    splits; first [fmt_lia | discriminate].
  - unfold WSafe. wsimpl. splits; first [fmt_lia | discriminate].
Qed.

Lemma seal_safe (w : Writer Sink) :
  WSafe w ->
  exists w',
    (if w_pending w
     then w <- fillHeader crc true w ;; Ok (set_w_pending false w)
     else Ok w) = Ok w' /\ WSafe w' /\ w_err w' = w_err w /\
    w_pending w' = false.
Proof.
  intros Sf. destruct (w_pending w) eqn:P.
  - destruct (fillHeader_safe crc true w Sf P) as (buf' & -> & L).
    cbn [bind]. eexists. split; [reflexivity|].
    destruct Sf as (? & ? & ? & ? & ?).
    unfold WSafe. wsimpl. splits; auto; discriminate.
  - eauto.
Qed.

Lemma writePending_safe (w : Writer Sink) :
  WSafe w -> exists w', writePending crc w = Ok w' /\ WSafe w'.
Proof.
  intros Sf. unfold writePending. destruct (w_err w); [eauto|].
  destruct (seal_safe w Sf) as (w1 & -> & S1 & _ & P1). cbn [bind].
  destruct (io_write _ _) as [snk e]. eexists. split; [reflexivity|].
  destruct S1 as (? & ? & ? & ? & ?). unfold WSafe. wsimpl.
  splits; auto; rewrite P1; discriminate.
Qed.

Lemma Finish_safe (w : Writer Sink) :
  WSafe w -> exists w' e, Finish crc w = Ok (w', e) /\ WSafe w'.
Proof.
  intros Sf. unfold Finish.
  destruct (seal_safe w Sf) as (w1 & -> & S1 & _). cbn [bind]. eauto.
Qed.

Lemma Close_safe (w : Writer Sink) :
  WSafe w -> exists w' e, Close crc w = Ok (w', e) /\ WSafe w'.
Proof.
  intros Sf. unfold Close.
  destruct (writePending_safe w Sf) as (w1 & -> & S1). cbn [bind].
  destruct (w_err w1); eexists _, _; (split; [reflexivity|]); auto.
Qed.

Lemma Flush_safe (w : Writer Sink) :
  WSafe w -> exists w' e, Flush crc w = Ok (w', e) /\ WSafe w'.
Proof.
  intros Sf. unfold Flush.
  destruct (writePending_safe w Sf) as (w1 & -> & S1). cbn [bind].
  destruct (w_err w1); [eauto|].
  destruct io_flush as [flush|]; [|eauto].
  destruct (flush (w_w w1)) as [snk e]. eexists _, _. split; [reflexivity|].
  exact S1.
Qed.

Lemma Sync_safe (w : Writer Sink) :
  WSafe w -> exists w' e, Sync crc w = Ok (w', e) /\ WSafe w'.
Proof.
  intros Sf. unfold Sync.
  destruct (Flush_safe w Sf) as (w1 & e1 & -> & S1). cbn [bind].
  destruct e1; [eauto|].
  destruct io_sync as [sync|]; [|eauto].
  destruct (sync (w_w w1)) as [snk e]. eexists _, _. split; [reflexivity|].
  exact S1.
Qed.

Lemma run_ops_safe ops : forall (w : Writer Sink),
  WSafe w -> exists w', run_ops crc ops w = Ok w' /\ WSafe w'.
Proof.
  induction ops as [|o ops IH]; intros w Sf;
    [exists w; split; [reflexivity|assumption]|].
  cbn [run_ops].
  assert (H : exists w1, apply_op crc o w = Ok w1 /\ WSafe w1).
  { destruct o; cbn [apply_op].
    - destruct (Write_safe crc p w Sf) as (w1 & n & e & -> & S1).
      exists w1. split; [reflexivity|assumption].
    - destruct (Finish_safe w Sf) as (w1 & e & -> & S1).
      exists w1. split; [reflexivity|assumption].
    - destruct (Flush_safe w Sf) as (w1 & e & -> & S1).
      exists w1. split; [reflexivity|assumption].
    - destruct (Sync_safe w Sf) as (w1 & e & -> & S1).
      exists w1. split; [reflexivity|assumption].
    - destruct (Close_safe w Sf) as (w1 & e & -> & S1).
      exists w1. split; [reflexivity|assumption].
    - exists w. split; [reflexivity|assumption]. }
  destruct H as (w1 & -> & S1). cbn [bind]. now apply IH.
Qed.

(** C8. After any sequence of public operations on a fresh writer, no
    operation has panicked or failed to end, the bookkeeping satisfies
    [0 <= i <= j <= blockSize], and while a chunk is pending
    [i + 7 <= j]: the test at the head of [fillHeader] is false, so its
    panic is out of reach of the public interface. *)
Theorem fillHeader_panic_unreachable (snk : Sink) (ops : list op) :
  exists w,
    run_ops crc ops (NewWriter snk) = Ok w /\
    0 <= w_i w /\ w_i w <= w_j w /\ w_j w <= blockSize /\
    (w_pending w = true ->
     w_i w + headerSize <= w_j w /\
     (w_i w + headerSize >? w_j w) || (w_j w >? blockSize) = false /\
     forall last, exists w', fillHeader crc last w = Ok w').
Proof.
  destruct (run_ops_safe ops (NewWriter snk) (NewWriter_safe snk))
    as (w & E & Sf).
  exists w. split; [exact E|].
  pose proof Sf as (Hi & Hij & Hj & Hp & Hl).
  repeat (split; [assumption|]).
  intros P. specialize (Hp P). split; [exact Hp|]. split.
  - apply orb_false_iff. split; rewrite Z.gtb_ltb; apply Z.ltb_ge; lia.
  - intros last. destruct (fillHeader_safe crc last w Sf P) as (buf' & E' & _).
    eauto.
Qed.

End WriterOps.

(** ** The count and the error returned by [Write] *)

Section WriteCount.
Variable crc : list byte -> Z.
Context {Sink : Type} {sink_ops : IoWriter Sink}.

Lemma fillHeader_err last (w w' : Writer Sink) :
  fillHeader crc last w = Ok w' -> w_err w' = w_err w.
Proof.
  unfold fillHeader. destruct (_ || _); [discriminate|].
  intros H. inversion H. reflexivity.
Qed.

Lemma writeStep_err (w : Writer Sink) p :
  w_err w = None ->
  match writeStep crc (w, p) with
  | Continue (w', _) => w_err w' = None
  | Return (Ok (w', e)) => w_err w' = e
  | Return _ => True
  end.
Proof.
  intros E. unfold writeStep. destruct p as [|b p]; [exact E|].
  destruct (w_j w =? blockSize).
  - destruct (fillHeader crc false w) as [w1| |] eqn:F; cbn [bind]; auto.
    destruct (w_err (writeBlock w1)) eqn:E1; [exact E1|].
    destruct (copy _ _ _). wsimpl. exact E1.
  - destruct (copy _ _ _). wsimpl. exact E.
Qed.

Lemma write_loop_err fuel : forall (w : Writer Sink) p w' e,
  w_err w = None ->
  run_loop (writeStep crc) fuel (w, p) = Some (Ok (w', e)) ->
  w_err w' = e.
Proof.
  induction fuel as [|fuel IH]; intros w p w' e E H; [discriminate|].
  cbn [run_loop] in H. pose proof (writeStep_err w p E) as Hs.
  destruct (writeStep crc (w, p)) as [[w1 p1]|res].
  - eapply IH; eassumption.
  - inversion H; subst. exact Hs.
Qed.

Lemma startRecord_err (w w1 : Writer Sink) e1 :
  w_err w = None -> startRecord w = (w1, e1) -> w_err w1 = e1.
Proof.
  intros E. unfold startRecord. destruct (negb (w_pending w)).
  - cbv zeta.
    match goal with |- context [w_err ?x] => set (w0 := x) end.
    destruct (w_err w0) eqn:E1; intros H; injection H as <- <-;
      [exact E1|reflexivity].
  - intros H. injection H as <- <-. exact E.
Qed.

(** *** The calls of the sink *)

Lemma Reported_refl log : Reported log log None.
Proof. exists []. split; [now rewrite app_nil_r|apply Forall_nil]. Qed.

Lemma Reported_trans log log1 log2 e :
  Reported log log1 None -> Reported log1 log2 e -> Reported log log2 e.
Proof.
  intros (c1 & -> & H1) (c2 & -> & H2). exists (c1 ++ c2).
  split; [now rewrite app_assoc|]. destruct e as [x|].
  - destruct H2 as (pre & -> & Hp). exists (c1 ++ pre).
    split; [now rewrite app_assoc|]. apply Forall_app. now split.
  - apply Forall_app. now split.
Qed.

(** [writeBlock] calls the sink once, and stores what it answers. *)
Lemma writeBlock_log (w : Writer (Traced Sink)) :
  t_log (w_w (writeBlock w)) = t_log (w_w w) ++ [w_err (writeBlock w)].
Proof.
  unfold writeBlock. cbn [io_write tracedSink].
  destruct (io_write (t_sink (w_w w)) _) as [s e]. reflexivity.
Qed.

Lemma writeBlock_reported (w : Writer (Traced Sink)) :
  Reported (t_log (w_w w)) (t_log (w_w (writeBlock w))) (w_err (writeBlock w)).
Proof.
  exists [w_err (writeBlock w)]. split; [apply writeBlock_log|].
  destruct (w_err (writeBlock w)) as [x|].
  - exists []. split; [reflexivity|apply Forall_nil].
  - apply Forall_cons; [reflexivity|apply Forall_nil].
Qed.

Lemma fillHeader_log last (w w' : Writer (Traced Sink)) :
  fillHeader crc last w = Ok w' -> w_w w' = w_w w.
Proof.
  unfold fillHeader. destruct (_ || _); [discriminate|].
  intros H. inversion H. reflexivity.
Qed.

Lemma writeStep_log (w : Writer (Traced Sink)) p :
  w_err w = None ->
  match writeStep crc (w, p) with
  | Continue (w', _) =>
      w_err w' = None /\ Reported (t_log (w_w w)) (t_log (w_w w')) None
  | Return (Ok (w', e)) =>
      w_err w' = e /\ Reported (t_log (w_w w)) (t_log (w_w w')) e
  | Return _ => True
  end.
Proof.
  intros E. unfold writeStep. destruct p as [|b p].
  - split; [exact E|apply Reported_refl].
  - destruct (w_j w =? blockSize).
    + destruct (fillHeader crc false w) as [w1| |] eqn:F; cbn [bind]; auto.
      pose proof (writeBlock_reported w1) as R.
      rewrite (fillHeader_log _ _ _ F) in R.
      destruct (w_err (writeBlock w1)) eqn:E1.
      * split; [exact E1|exact R].
      * destruct (copy _ _ _). wsimpl. split; [exact E1|exact R].
    + destruct (copy _ _ _). wsimpl. split; [exact E|apply Reported_refl].
Qed.

Lemma write_loop_log fuel : forall (w : Writer (Traced Sink)) p w' e,
  w_err w = None ->
  run_loop (writeStep crc) fuel (w, p) = Some (Ok (w', e)) ->
  w_err w' = e /\ Reported (t_log (w_w w)) (t_log (w_w w')) e.
Proof.
  induction fuel as [|fuel IH]; intros w p w' e E H; [discriminate|].
  cbn [run_loop] in H. pose proof (writeStep_log w p E) as Hs.
  destruct (writeStep crc (w, p)) as [[w1 p1]|res].
  - destruct Hs as [E1 R1].
    destruct (IH w1 p1 w' e E1 H) as [E2 R2].
    split; [exact E2|exact (Reported_trans _ _ _ _ R1 R2)].
  - inversion H; subst. exact Hs.
Qed.

Lemma startRecord_log (w w1 : Writer (Traced Sink)) e1 :
  w_err w = None -> startRecord w = (w1, e1) ->
  w_err w1 = e1 /\ Reported (t_log (w_w w)) (t_log (w_w w1)) e1.
Proof.
  intros E. unfold startRecord. destruct (negb (w_pending w)).
  - cbv zeta. wsimpl.
    destruct (w_j w + headerSize >? blockSize).
    + match goal with |- context [writeBlock ?x] => set (w0 := x) end.
      pose proof (writeBlock_reported w0) as R.
      change (w_w w0) with (w_w w) in R.
      destruct (w_err (writeBlock w0)) eqn:E1; intros H; injection H as <- <-.
      * split; [exact E1|exact R].
      * split; [reflexivity|exact R].
    + wsimpl. rewrite E. intros H; injection H as <- <-.
      split; [reflexivity|apply Reported_refl].
  - intros H. injection H as <- <-. split; [exact E|apply Reported_refl].
Qed.

(** C10. Over any sink, observed through the log of the results of
    its [Write] calls: the error [Write] returns is the error it
    leaves stored in the writer; with a [nil] error the count is
    [len(p)] and every call of the sink made during the [Write] has
    succeeded; with any error the count is 0. Whenever a call of the
    sink fails during the [Write], [Write] returns 0 with that very
    error, whatever it has copied or handed to the sink before; and
    an error that was not stored on entry is the one of the last call
    of the sink, the calls before it having succeeded. *)
Theorem Write_count p (w w' : Writer (Traced Sink)) n e :
  Write crc p w = Ok (w', (n, e)) ->
  exists calls,
    t_log (w_w w') = t_log (w_w w) ++ calls /\
    w_err w' = e /\
    (e = None -> n = len p /\ Forall (fun c => c = None) calls) /\
    (e <> None -> n = 0) /\
    (forall x, In (Some x) calls -> n = 0 /\ e = Some x) /\
    (w_err w = None -> e <> None ->
     exists pre, calls = pre ++ [e] /\ Forall (fun c => c = None) pre).
Proof.
  intros H.
  assert (Fin : forall (calls : list (option error)) x,
            Forall (fun c => c = None) calls -> In (Some x) calls -> False).
  { intros calls x Hq Hin. rewrite Forall_forall in Hq.
    specialize (Hq _ Hin). discriminate. }
  assert (G : w_err w' = e /\ (e = None -> n = len p) /\ (e <> None -> n = 0) /\
              (match w_err w with
               | Some _ => w_w w' = w_w w
               | None => Reported (t_log (w_w w)) (t_log (w_w w')) e
               end)).
  { unfold Write in H. destruct (w_err w) eqn:E.
    - inversion H; subst. splits; congruence.
    - destruct (startRecord w) as [w1 e1] eqn:Es.
      destruct (startRecord_log w w1 e1 E Es) as [E1 R1].
      destruct e1 as [x|].
      + inversion H; subst. splits; try congruence; try exact R1.
      + destruct (run_loop (writeStep crc) (S (length p)) (w1, p))
          as [[[w2 e2]| |]|] eqn:L; try discriminate.
        destruct (write_loop_log _ _ _ _ _ E1 L) as [E2 R2].
        pose proof (Reported_trans _ _ _ _ R1 R2) as R.
        cbn [bind] in H. destruct e2; inversion H; subst;
          splits; try congruence; try exact R. }
  destruct G as (G1 & G2 & G3 & G4).
  destruct (w_err w) as [x0|] eqn:E.
  - exists []. rewrite G4, app_nil_r. splits; auto.
    + intros x [].
    + discriminate.
  - destruct G4 as (calls & El & Hc). exists calls.
    split; [exact El|]. split; [exact G1|]. split; [|split; [exact G3|split]].
    + intros ->. split; [now apply G2|exact Hc].
    + intros x Hin. destruct e as [y|].
      * destruct Hc as (pre & -> & Hp).
        apply in_app_or in Hin. destruct Hin as [Hin|[Hin|[]]].
        -- destruct (Fin _ _ Hp Hin).
        -- injection Hin as <-. split; [apply G3; discriminate|reflexivity].
      * destruct (Fin _ _ Hc Hin).
    + intros _ He. destruct e as [y|]; [|congruence]. exact Hc.
Qed.

End WriteCount.

(** ** End of stream, recovery and stale sources *)

Section ReaderClaims.
Variable crc : list byte -> Z.



(** C5. With fewer than 7 bytes left in the buffer, reading started
    and the last block fetched shorter than [blockSize], [nextChunk]
    returns [ErrUnexpectedEOF] when [j <> n] and [EOF] when [j = n],
    leaving the reader as it is; and over an empty source the first
    [Next] returns [EOF]. *)
Theorem nextChunk_short_tail wantFirst r :
  r_n r < r_j r + headerSize -> r_started r = true -> r_n r < blockSize ->
  nextChunk crc wantFirst r
    = (r, Some (if r_j r =? r_n r then EOF else ErrUnexpectedEOF)) /\
  forall seekable,
    snd (Next crc (NewReader (mkSource [] 0 seekable))) = (None, Some EOF).
Proof.
  intros Hshort Hst Hn. split.
  - rewrite nextChunk_unfold. unfold nextChunkStep.
    destruct (r_j r + headerSize <=? r_n r) eqn:E;
      [apply Z.leb_le in E; lia|].
    rewrite Hst. replace (r_n r <? blockSize) with true
      by (symmetry; apply Z.ltb_lt; lia).
    cbn [andb]. destruct (r_j r =? r_n r); reflexivity.
  - intros seekable. unfold Next, NewReader.
    cbn [set_r_seq set_r_i r_err r_seq r_j r_r r_i r_n r_started r_recovering
         r_last r_buf].
    rewrite nextChunk_unfold. unfold nextChunkStep.
    cbn [r_j r_n r_started r_r]. rewrite andb_false_r.
    unfold ReadFull, s_remaining. cbn [s_data s_pos skipn].
    rewrite firstn_nil. reflexivity.
Qed.



End ReaderClaims.

(** ** Runs of loops *)

Lemma loops_to_run {A B} (step : A -> loop A B) m a b :
  loops_to step m a b ->
  forall fuel, (m a < fuel)%nat -> run_loop step fuel a = Some b.
Proof.
  induction 1 as [a b E|a a' b E Hlt _ IH]; intros fuel Hf;
    (destruct fuel as [|fuel]; [lia|]); cbn [run_loop]; rewrite E.
  - reflexivity.
  - apply IH. lia.
Qed.

(** ** The reader on a well-formed stream *)

Section ReaderStream.
Variable crc : list byte -> Z.

Lemma len_encChunks_cons c cs :
  len (encChunks crc (c :: cs))
  = headerSize + len (c_data c) + len (encChunks crc cs).
Proof.
  unfold encChunks. cbn [map concat]. rewrite len_app, len_encChunk. lia.
Qed.

Lemma encChunks_app cs1 cs2 :
  encChunks crc (cs1 ++ cs2) = encChunks crc cs1 ++ encChunks crc cs2.
Proof. unfold encChunks. now rewrite map_app, concat_app. Qed.

Lemma encBlocks_cons b bs :
  encBlocks crc (b :: bs) = encBlock crc b ++ encBlocks crc bs.
Proof. reflexivity. Qed.

Lemma encBlocks_app bs1 bs2 :
  encBlocks crc (bs1 ++ bs2) = encBlocks crc bs1 ++ encBlocks crc bs2.
Proof. unfold encBlocks. now rewrite map_app, concat_app. Qed.

(** The chunk at the head of [todo] is parsed where it stands. *)
Lemma RInv_parse wantFirst r c todo pad later :
  RInv crc r (c :: todo) pad later ->
  nextChunkStep crc wantFirst r
    = (if wantFirst && negb (is_first c) then Continue (skipped r c)
       else Return (accepted r c, None)) /\
  RInv crc (accepted r c) todo pad later /\
  RInv crc (skipped r c) todo pad later /\
  slice (r_buf r) (r_j r + headerSize) (r_j r + headerSize + len (c_data c))
    = c_data c /\
  r_j r + headerSize + len (c_data c) <= r_n r /\ 0 <= r_j r.
Proof.
  intros (Hl & Hh & Hn & HnB & Hp & Hv & Hs & Hw & Hst).
  pose proof (holds_nonneg _ _ _ Hh) as Hj.
  pose proof (len_nonneg (c_data c)) as Hd.
  pose proof (len_nonneg (encChunks crc todo)) as Ht.
  rewrite len_encChunks_cons in Hn.
  change (encChunks crc (c :: todo)) with (encChunk crc c ++ encChunks crc todo) in Hh.
  rewrite <- app_assoc in Hh.
  pose proof (holds_app_l _ _ _ _ Hh) as Hc.
  pose proof (holds_app_r _ _ _ _ Hh) as Hr. rewrite len_encChunk in Hr.
  inversion Hv as [|? ? Hvc Hvt]; subst.
  assert (Hlen : len (c_data c) < 2 ^ 16) by fmt_lia.
  split; [apply nextChunkStep_parse; auto; lia|].
  assert (G : forall r',
    r_buf r' = r_buf r -> r_j r' = r_j r + headerSize + len (c_data c) ->
    r_n r' = r_n r -> r_r r' = r_r r -> r_started r' = r_started r ->
    RInv crc r' todo pad later).
  { intros r' Eb Ej En Er Est. unfold RInv.
    rewrite Eb, Ej, En, Er, Est.
    replace (r_j r + headerSize + len (c_data c))
      with (r_j r + (headerSize + len (c_data c))) by lia.
    splits; auto. lia. }
  split; [apply G; reflexivity|]. split; [apply G; reflexivity|].
  split; [|lia].
  destruct (header_fields crc _ _ _ Hc) as (_ & _ & _ & _ & E);
    [unfold valid_chunk in Hvc; lia|assumption|exact E].
Qed.

End ReaderStream.

Section ReaderBlocks.
Variable crc : list byte -> Z.

Lemma firstn_block (x y : list byte) :
  len x <= blockSize -> (y <> [] -> len x = blockSize) ->
  firstn (Z.to_nat blockSize) (x ++ y) = x.
Proof.
  intros Hle Hfull. unfold len in *. rewrite firstn_app.
  rewrite (firstn_all2 x) by lia.
  destruct y as [|b y].
  - rewrite firstn_nil. apply app_nil_r.
  - replace (Z.to_nat blockSize - length x)%nat with 0%nat
      by (specialize (Hfull ltac:(discriminate)); lia).
    cbn [firstn]. apply app_nil_r.
Qed.

Lemma encBlocks_nil_iff (bs : list block) :
  bs <> [] -> encBlocks crc bs <> [] \/ encBlocks crc bs = [].
Proof. intros _. destruct (encBlocks crc bs); [now right|left; discriminate]. Qed.

(** At the end of a block whose padding is shorter than a header the
    next block is fetched. *)
Lemma RInv_cross wantFirst r pad b later :
  RInv crc r [] pad (b :: later) -> pad < headerSize ->
  encBlock crc b <> [] ->
  nextChunkStep crc wantFirst r = Continue (fetched r (encBlock crc b)) /\
  RInv crc (fetched r (encBlock crc b)) (b_chunks b) (b_pad b) later.
Proof.
  intros (Hl & Hh & Hn & HnB & Hp & Hv & Hs & Hw & Hst) Hpad Hne.
  destruct Hw as (Hvb & Hpb & Hlb & Hfb & Hw).
  change (len (encChunks crc [])) with 0 in Hn.
  set (d := encBlock crc b) in *.
  assert (Hd : firstn (Z.to_nat blockSize) (s_remaining (r_r r)) = d).
  { rewrite Hs, encBlocks_cons. apply firstn_block; [exact Hlb|].
    intros Hy. apply Hfb. intros ->. now apply Hy. }
  assert (Hd0 : len d <> 0) by (unfold len; destruct d; [congruence|discriminate]).
  split.
  - unfold nextChunkStep.
    destruct (r_j r + headerSize <=? r_n r) eqn:E;
      [apply Z.leb_le in E; lia|].
    replace ((r_n r <? blockSize) && r_started r) with false.
    2:{ symmetry. destruct Hst as [Hst|[Hst _]]; [discriminate| |].
        - rewrite Hst, Z.ltb_irrefl. reflexivity.
        - rewrite Hst. apply andb_false_r. }
    unfold ReadFull. rewrite Hd.
    replace (len d =? 0) with false by (symmetry; now apply Z.eqb_neq).
    destruct (len d <? blockSize); reflexivity.
  - unfold RInv, fetched. cbn [r_buf r_j r_n r_r r_started].
    assert (Hl' : 0 + len d <= len (r_buf r)) by lia.
    splits.
    + rewrite len_splice; lia.
    + change (encChunks crc (b_chunks b) ++ zeros (b_pad b)) with d.
      apply holds_splice; lia.
    + unfold d, encBlock. rewrite len_app, len_zeros. lia.
    + exact Hlb.
    + exact Hpb.
    + exact Hvb.
    + unfold s_remaining in *. cbn [s_data s_pos].
      rewrite Nat.add_comm, <- skipn_skipn, Hs, encBlocks_cons.
      fold d. rewrite skipn_app, skipn_all2, Nat.sub_diag by lia.
      reflexivity.
    + exact Hw.
    + intros Hlater. left. now apply Hfb.
Qed.

Lemma Reader_eta r :
  mkReader (mkSource (s_data (r_r r)) (s_pos (r_r r) + 0) (s_seekable (r_r r)))
    (r_seq r) (r_i r) (r_j r) (r_n r) (r_started r) (r_recovering r)
    (r_last r) (r_err r) (splice (r_buf r) 0 []) = r.
Proof. destruct r as [[? ? ?] ? ? ? ? ? ? ? ? ?]. cbn. now rewrite Nat.add_0_r. Qed.

(** At the end of the last block the stream ends. *)
Lemma RInv_eof wantFirst r later :
  RInv crc r [] 0 later -> encBlocks crc later = [] ->
  nextChunkStep crc wantFirst r = Return (r, Some EOF).
Proof.
  intros (Hl & Hh & Hn & HnB & Hp & Hv & Hs & Hw & Hst) He.
  change (len (encChunks crc [])) with 0 in Hn.
  unfold nextChunkStep.
  destruct (r_j r + headerSize <=? r_n r) eqn:E;
    [apply Z.leb_le in E; unfold headerSize in E; lia|].
  destruct ((r_n r <? blockSize) && r_started r).
  - replace (r_j r =? r_n r) with true by (symmetry; apply Z.eqb_eq; lia).
    reflexivity.
  - unfold ReadFull. rewrite Hs, He, firstn_nil.
    cbn [len length Z.of_nat Z.eqb negb error_eqb].
    now rewrite Reader_eta.
Qed.

End ReaderBlocks.

(** ** Chunks that follow one another *)

Lemma leads_here todo pad later : leads todo pad later todo pad later.
Proof. destruct later; left; auto. Qed.

Lemma leads_over todo pad b later rest epad elater :
  pad < headerSize -> b_chunks b <> [] ->
  leads (b_chunks b) (b_pad b) later rest epad elater ->
  leads todo pad (b :: later) (todo ++ rest) epad elater.
Proof. intros Hp Hne H. right. splits; auto. exists rest; auto. Qed.

Lemma leads_end : forall later todo pad epad elater,
  leads todo pad later [] epad elater ->
  todo = [] /\ epad = pad /\ elater = later.
Proof.
  induction later as [|b later IH]; intros todo pad epad elater H;
    cbn [leads] in H.
  - destruct H as [(H1 & H2 & H3)|[]]. auto.
  - destruct H as [(H1 & H2 & H3)|(Hp & Hne & rest & E & H)]; [auto|].
    symmetry in E. apply app_eq_nil in E. destruct E as [-> ->].
    apply IH in H. destruct H as [H _]. congruence.
Qed.

Lemma leads_cons later : forall c todo pad c' cs epad elater,
  leads (c :: todo) pad later (c' :: cs) epad elater ->
  c' = c /\ leads todo pad later cs epad elater.
Proof.
  destruct later as [|b later]; intros c todo pad c' cs epad elater H;
    cbn [leads] in H.
  - destruct H as [(H1 & H2 & H3)|[]]. injection H1 as -> ->.
    split; auto. left; auto.
  - destruct H as [(H1 & H2 & H3)|(Hp & Hne & rest & E & H)].
    + injection H1 as -> ->. split; auto. left; auto.
    + cbn [app] in E. injection E as -> ->. split; auto.
      right. splits; auto. exists rest; auto.
Qed.

Lemma leads_next pad later c cs epad elater :
  leads [] pad later (c :: cs) epad elater ->
  exists b later' t,
    later = b :: later' /\ pad < headerSize /\ b_chunks b = c :: t /\
    leads t (b_pad b) later' cs epad elater.
Proof.
  destruct later as [|b later]; cbn [leads];
    intros [(H1 & _)|H]; try discriminate; try contradiction.
  destruct H as (Hp & Hne & rest & E & H). cbn [app] in E. subst rest.
  destruct (b_chunks b) as [|c0 t] eqn:Eb; [congruence|].
  apply leads_cons in H. destruct H as [-> H]. exists b, later, t. auto.
Qed.

Lemma tight_leads : forall later todo pad,
  tight pad later -> leads todo pad later (todo ++ chunks_of later) 0 [].
Proof.
  induction later as [|b later IH]; intros todo pad Ht; cbn [tight] in Ht.
  - left. cbn [chunks_of flat_map]. rewrite app_nil_r. auto.
  - destruct Ht as (Hp & Hne & Ht). right. splits; auto.
    exists (chunks_of (b :: later)). split; auto.
Qed.

Section ReaderChunks.
Variable crc : list byte -> Z.

Lemma encChunk_not_nil c : encChunk crc c <> [].
Proof.
  intros H. pose proof (len_encChunk crc c) as L. rewrite H in L.
  pose proof (len_nonneg (c_data c)). unfold headerSize, len in *.
  cbn [length] in L. lia.
Qed.

Lemma encBlock_not_nil b : b_chunks b <> [] -> encBlock crc b <> [].
Proof.
  unfold encBlock, encChunks. destruct (b_chunks b) as [|c cs]; [congruence|].
  intros _ H. cbn [map concat] in H.
  apply app_eq_nil in H. destruct H as [H _].
  apply app_eq_nil in H. destruct H as [H _].
  now apply encChunk_not_nil in H.
Qed.

Lemma accepted_at_chunk r c :
  0 <= r_j r -> r_j r + headerSize + len (c_data c) <= r_n r ->
  slice (r_buf r) (r_j r + headerSize) (r_j r + headerSize + len (c_data c))
    = c_data c ->
  at_chunk (accepted r c) (c_data c) (is_last c).
Proof.
  intros Hj Hn Hs. unfold at_chunk, accepted. cbn [r_i r_j r_n r_buf r_last].
  unfold headerSize in *. splits; auto; lia.
Qed.

(** Where chunks follow one another, [nextChunk] finds the next one, in
    this block or at the head of the next one. *)
Lemma nextChunk_found wantFirst r todo pad later c cs epad elater :
  RInv crc r todo pad later -> leads todo pad later (c :: cs) epad elater ->
  (wantFirst = true -> is_first c = true) ->
  exists r' todo' pad' later',
    nextChunk crc wantFirst r = (r', None) /\
    RInv crc r' todo' pad' later' /\
    leads todo' pad' later' cs epad elater /\
    at_chunk r' (c_data c) (is_last c) /\
    r_recovering r' = false /\
    r_seq r' = r_seq r /\ r_err r' = r_err r /\ r_started r' = r_started r.
Proof.
  intros HI Hl Hwf.
  assert (Hcond : wantFirst && negb (is_first c) = false).
  { destruct wantFirst; [|reflexivity]. now rewrite Hwf. }
  destruct todo as [|c0 todo].
  - apply leads_next in Hl.
    destruct Hl as (b & later' & t1 & -> & Hpad & Eb & Hl).
    rename later' into later.
    destruct (RInv_cross crc wantFirst r pad b later HI Hpad) as [E1 HI1].
    { apply encBlock_not_nil. rewrite Eb. discriminate. }
    rewrite Eb in HI1.
    destruct (RInv_parse crc wantFirst _ _ _ _ _ HI1)
      as (E2 & HI2 & _ & Hs & Hn & Hj).
    rewrite Hcond in E2.
    exists (accepted (fetched r (encBlock crc b)) c), t1, (b_pad b), later.
    splits; auto.
    + rewrite nextChunk_unfold, E1, nextChunk_unfold, E2. reflexivity.
    + now apply accepted_at_chunk.
  - apply leads_cons in Hl. destruct Hl as [E0 Hl]. subst c0.
    destruct (RInv_parse crc wantFirst _ _ _ _ _ HI)
      as (E2 & HI2 & _ & Hs & Hn & Hj).
    rewrite Hcond in E2.
    exists (accepted r c), todo, pad, later.
    splits; auto.
    + rewrite nextChunk_unfold, E2. reflexivity.
    + now apply accepted_at_chunk.
Qed.

(** ... and returns [EOF] at the end of a stream without padding. *)
Lemma nextChunk_eof wantFirst r :
  RInv crc r [] 0 [] -> nextChunk crc wantFirst r = (r, Some EOF).
Proof.
  intros HI. rewrite nextChunk_unfold.
  now rewrite (RInv_eof crc wantFirst r [] HI).
Qed.

End ReaderChunks.

Section ReaderRecords.
Variable crc : list byte -> Z.
Variables (epad : Z) (elater : list block).

Lemma RInv_ext r r' todo pad later :
  RInv crc r todo pad later ->
  r_buf r' = r_buf r -> r_j r' = r_j r -> r_n r' = r_n r -> r_r r' = r_r r ->
  (r_started r' = r_started r \/ 0 < r_n r) ->
  RInv crc r' todo pad later.
Proof.
  intros (Hl & Hh & Hn & HnB & Hp & Hv & Hs & Hw & Hst) Eb Ej En Er Est.
  unfold RInv. rewrite Eb, Ej, En, Er. splits; auto.
  intros Hlater. destruct (Hst Hlater) as [H|[H1 H2]]; [now left|].
  destruct Est as [Est|Est]; [right; split; congruence|lia].
Qed.

Lemma Reading_ext r r' cs :
  Reading crc epad elater r cs ->
  r_buf r' = r_buf r -> r_j r' = r_j r -> r_n r' = r_n r -> r_r r' = r_r r ->
  (r_started r' = r_started r \/ 0 < r_n r) -> r_err r' = None ->
  Reading crc epad elater r' cs.
Proof.
  intros (todo & pad & later & HI & Hl & He) Eb Ej En Er Est He'.
  exists todo, pad, later. splits; auto. eapply RInv_ext; eassumption.
Qed.

Lemma Reading_end r :
  Reading crc epad elater r [] ->
  RInv crc r [] epad elater /\ r_err r = None.
Proof.
  intros (todo & pad & later & HI & Hl & He).
  apply leads_end in Hl. destruct Hl as (-> & -> & ->). auto.
Qed.

Lemma nextChunk_reading wantFirst r c cs :
  Reading crc epad elater r (c :: cs) -> (wantFirst = true -> is_first c = true) ->
  exists r',
    nextChunk crc wantFirst r = (r', None) /\
    Reading crc epad elater r' cs /\ at_chunk r' (c_data c) (is_last c) /\
    r_seq r' = r_seq r /\ r_started r' = r_started r.
Proof.
  intros (todo & pad & later & HI & Hl & He) Hwf.
  destruct (nextChunk_found crc wantFirst r todo pad later c cs epad elater
              HI Hl Hwf)
    as (r' & todo' & pad' & later' & E & HI' & Hl' & Hat & _ & Hq & He' & Hs).
  exists r'. splits; auto.
  exists todo', pad', later'. splits; auto. congruence.
Qed.

Lemma Next_found r c cs :
  Reading crc epad elater r (c :: cs) -> is_first c = true ->
  exists r',
    Next crc r = (r', (Some (mkSingleReader (r_seq r + 1)), None)) /\
    Reading crc epad elater r' cs /\ at_chunk r' (c_data c) (is_last c) /\
    r_seq r' = r_seq r + 1 /\ r_started r' = true.
Proof.
  intros HR Hf.
  assert (He : r_err r = None) by (destruct HR as (? & ? & ? & _ & _ & H); exact H).
  set (r0 := set_r_i (r_j r) (set_r_seq (r_seq r + 1) r)).
  assert (HR0 : Reading crc epad elater r0 (c :: cs)).
  { eapply Reading_ext; try exact HR; try reflexivity; auto. }
  destruct (nextChunk_reading true r0 c cs HR0 (fun _ => Hf))
    as (r1 & E & HR1 & Hat & Hq & Hs).
  assert (He1 : r_err r1 = None)
    by (destruct HR1 as (? & ? & ? & _ & _ & H); exact H).
  exists (set_r_started true (set_r_err None r1)).
  split.
  - unfold Next. cbn [set_r_seq r_err]. rewrite He.
    change (set_r_i (r_j (set_r_seq (r_seq r + 1) r)) (set_r_seq (r_seq r + 1) r))
      with r0.
    rewrite E. cbn [set_r_err r_err set_r_started r_seq].
    rewrite Hq. reflexivity.
  - destruct Hat as (Hi & Hj & Hn & Hsl & Hl).
    pose proof (len_nonneg (c_data c)).
    splits.
    + eapply Reading_ext; try exact HR1; try reflexivity.
      right. unfold headerSize in *. lia.
    + unfold at_chunk. cbn. splits; auto.
    + cbn. exact Hq.
    + reflexivity.
Qed.

Lemma Next_eof r :
  RInv crc r [] 0 [] -> r_err r = None ->
  Next crc r
  = (set_r_err (Some EOF) (set_r_i (r_j r) (set_r_seq (r_seq r + 1) r)),
     (None, Some EOF)).
Proof.
  intros HI He.
  set (r0 := set_r_i (r_j r) (set_r_seq (r_seq r + 1) r)).
  assert (HI0 : RInv crc r0 [] 0 []).
  { eapply RInv_ext; try exact HI; try reflexivity; auto. }
  unfold Next. cbn [set_r_seq r_err]. rewrite He.
  change (set_r_i (r_j (set_r_seq (r_seq r + 1) r)) (set_r_seq (r_seq r + 1) r))
    with r0.
  rewrite (nextChunk_eof crc true r0 HI0). reflexivity.
Qed.

End ReaderRecords.

Section ReaderPayload.
Variable crc : list byte -> Z.

Lemma slice_skip (buf : list byte) i j u k :
  slice buf i j = u -> 0 <= i -> 0 <= k ->
  slice buf (i + k) j = skipn (Z.to_nat k) u.
Proof.
  intros <- Hi Hk. unfold slice.
  rewrite skipn_firstn_comm, skipn_skipn. f_equal; [lia|f_equal; lia].
Qed.

Lemma nextChunkStep_success_x wantFirst r r' acc :
  nextChunkStep crc wantFirst r = Return (r', None) ->
  (x_measure (r', acc) + 7 <= r_measure r)%nat.
Proof.
  unfold nextChunkStep.
  destruct (r_j r + headerSize <=? r_n r) eqn:Hhdr.
  - apply Z.leb_le in Hhdr. unfold headerSize in Hhdr.
    set (lth := le_combine (slice (r_buf r) (r_j r + 4) (r_j r + 6))).
    repeat match goal with
           | |- context [if ?c then _ else _] => destruct c eqn:?
           end; intros E; inversion E; subst; clear E.
    unfold x_measure, r_measure, headerSize in *; simpl in *; lia.
  - destruct ((r_n r <? blockSize) && r_started r).
    + destruct (negb (r_j r =? r_n r)); discriminate.
    + unfold ReadFull. cbv zeta.
      set (d := firstn (Z.to_nat blockSize) (s_remaining (r_r r))).
      destruct (len d =? 0); [discriminate|].
      destruct (len d <? blockSize); simpl; discriminate.
Qed.

Lemma nextChunk_success_x wantFirst r r' acc :
  nextChunk crc wantFirst r = (r', None) ->
  (x_measure (r', acc) + 7 <= r_measure r)%nat.
Proof.
  revert r'.
  apply (nextChunk_elim crc wantFirst
           (fun r res => forall r', res = (r', None) ->
                                    (x_measure (r', acc) + 7 <= r_measure r)%nat)).
  - intros r0 res E r' ->. eapply nextChunkStep_success_x; eassumption.
  - intros r0 r1 E IH r' H. apply IH in H.
    apply nextChunkStep_decreases in E. lia.
Qed.

Lemma at_chunk_measure r u l acc :
  at_chunk r u l ->
  x_measure (r, acc) = (r_measure r + length u)%nat.
Proof.
  intros (Hi & Hj & Hn & _ & _). unfold x_measure, r_measure, len in *.
  cbn [fst]. unfold headerSize in *. lia.
Qed.

(** A read inside a chunk delivers what fits of its unread bytes. *)
Lemma Read_in_chunk x c r u l :
  at_chunk r u l -> u <> [] -> r_seq r = x_seq x -> r_err r = None ->
  1 <= c ->
  let k := Z.min c (len u) in
  Read crc x c r
    = (set_r_i (r_i r + k) r, (firstn (Z.to_nat k) u, None)) /\
  at_chunk (set_r_i (r_i r + k) r) (skipn (Z.to_nat k) u) l /\
  1 <= k <= len u.
Proof.
  intros (Hi & Hj & Hn & Hs & Hl) Hu Hq He Hc k.
  assert (Hlu : 1 <= len u).
  { destruct u; [congruence|]. rewrite len_cons. pose proof (len_nonneg u). lia. }
  assert (Hk : 1 <= k <= len u) by (unfold k; lia).
  split; [|split; [|exact Hk]].
  - unfold Read. rewrite Hq, Z.eqb_refl, He. cbn [negb].
    rewrite readLoop_unfold. unfold readStep.
    replace (r_i r =? r_j r) with false by (symmetry; apply Z.eqb_neq; lia).
    rewrite Hs. reflexivity.
  - unfold at_chunk. cbn [set_r_i r_i r_j r_n r_buf r_last].
    splits; auto; try lia.
    + rewrite len_skipn; lia.
    + apply slice_skip; auto; unfold headerSize in *; lia.
Qed.

End ReaderPayload.

Section ReaderContinuation.
Variable crc : list byte -> Z.
Variables (epad : Z) (elater : list block).

Lemma Reading_err r cs : Reading crc epad elater r cs -> r_err r = None.
Proof. now intros (? & ? & ? & _ & _ & H). Qed.

Lemma at_chunk_ext r r' u l :
  at_chunk r u l ->
  r_i r' = r_i r -> r_j r' = r_j r -> r_n r' = r_n r -> r_buf r' = r_buf r ->
  r_last r' = r_last r -> at_chunk r' u l.
Proof.
  unfold at_chunk. intros H -> -> -> -> ->. exact H.
Qed.

(** With the current chunk used up and the record not over, the loop
    of [Read] moves on to the next chunk that has payload, or to the
    end of the record when only empty chunks are left of it. *)
Lemma readLoop_next : forall cs r p cs',
  Reading crc epad elater r cs -> r_i r = r_j r -> r_last r = false ->
  tailOf cs = Some (p, cs') ->
  exists r',
    r_seq r' = r_seq r /\ r_started r' = r_started r /\
    (x_measure (r', []) < r_measure r)%nat /\
    ((p = [] /\ readLoop crc r = (r', Some EOF) /\
      at_chunk r' [] true /\ Reading crc epad elater r' cs') \/
     (exists u l p1,
        u <> [] /\ readLoop crc r = (r', None) /\ at_chunk r' u l /\
        p = u ++ p1 /\ Rest crc epad elater r' l p1 cs')).
Proof.
  induction cs as [|c cs1 IH]; intros r p cs' HR Hij Hlast Htail;
    [discriminate|].
  destruct (nextChunk_reading crc epad elater false r c cs1 HR) as (r1 & E & HR1 & Hat & Hq & Hs);
    [discriminate|].
  pose proof (nextChunk_success_x crc _ _ _ [] E) as Hm.
  pose proof (at_chunk_measure _ _ _ [] Hat) as Hxm.
  set (r1' := set_r_err None r1).
  assert (HR1' : Reading crc epad elater r1' cs1)
    by (eapply Reading_ext; try exact HR1; try reflexivity; auto).
  assert (Hat' : at_chunk r1' (c_data c) (is_last c))
    by (eapply at_chunk_ext; try exact Hat; reflexivity).
  assert (Estep : readStep crc r = Continue r1').
  { unfold readStep. rewrite Hij, Z.eqb_refl, Hlast, E. reflexivity. }
  assert (Eunf : readLoop crc r = readLoop crc r1')
    by (rewrite readLoop_unfold, Estep; reflexivity).
  rewrite Eunf.
  destruct Hat' as (Hi & Hj & Hn & Hsl & Hl).
  cbn [tailOf] in Htail.
  destruct (c_data c) as [|b u'] eqn:Ed.
  - change (len []) with 0 in Hj.
    destruct (is_last c) eqn:El.
    + injection Htail as <- <-. exists r1'.
      split; [exact Hq|]. split; [exact Hs|]. split.
      * unfold x_measure, r_measure in *.
        cbn [fst r1' set_r_err r_r r_n r_i] in *. lia.
      * left. split; [reflexivity|]. split; [|split; [|exact HR1']].
        -- rewrite readLoop_unfold. unfold readStep.
           replace (r_i r1' =? r_j r1') with true
             by (symmetry; apply Z.eqb_eq; lia).
           rewrite Hl. reflexivity.
        -- unfold at_chunk. splits; auto.
    + destruct (tailOf cs1) as [[p1 rest]|] eqn:Et; [|discriminate].
      injection Htail as <- <-.
      destruct (IH r1' p1 rest HR1') as (r' & Hq' & Hs' & Hm' & Hres);
        [lia|exact Hl|reflexivity|].
      exists r'.
      split; [rewrite Hq'; exact Hq|]. split; [rewrite Hs'; exact Hs|].
      split; [|exact Hres].
      unfold x_measure, r_measure in *.
      cbn [fst r1' set_r_err r_r r_n r_i r_j] in *.
      cbn [length] in Hxm. lia.
  - exists r1'.
    split; [exact Hq|]. split; [exact Hs|]. split.
    + unfold x_measure, r_measure in *.
      cbn [fst r1' set_r_err r_r r_n r_i] in *. lia.
    + right. exists (b :: u'), (is_last c).
      assert (Hne : (r_i r1' =? r_j r1') = false).
      { apply Z.eqb_neq. rewrite Hj, len_cons. pose proof (len_nonneg u'). lia. }
      assert (Eret : readLoop crc r1' = (r1', None)).
      { rewrite readLoop_unfold. unfold readStep. now rewrite Hne. }
      assert (Hat1 : at_chunk r1' (b :: u') (is_last c))
        by (unfold at_chunk; splits; auto).
      destruct (is_last c) eqn:El.
      * injection Htail as <- <-. exists [].
        split; [discriminate|]. split; [exact Eret|]. split; [exact Hat1|].
        split; [now rewrite app_nil_r|].
        cbn. split; [reflexivity|exact HR1'].
      * destruct (tailOf cs1) as [[p1 rest]|] eqn:Et; [|discriminate].
        injection Htail as <- <-. exists p1.
        split; [discriminate|]. split; [exact Eret|]. split; [exact Hat1|].
        split; [reflexivity|].
        cbn. exists cs1. split; assumption.
Qed.

End ReaderContinuation.

Section ReaderDrain.
Variable crc : list byte -> Z.
Variables (epad : Z) (elater : list block).

Lemma Rest_err r l p cs' : Rest crc epad elater r l p cs' -> r_err r = None.
Proof.
  unfold Rest. destruct l.
  - intros [_ H]. eapply Reading_err; eassumption.
  - intros (cs & H & _). eapply Reading_err; eassumption.
Qed.

Lemma Rest_set_i r l p cs' i :
  Rest crc epad elater r l p cs' -> Rest crc epad elater (set_r_i i r) l p cs'.
Proof.
  assert (G : forall cs, Reading crc epad elater r cs -> Reading crc epad elater (set_r_i i r) cs).
  { intros cs H. eapply Reading_ext; try exact H; try reflexivity; auto.
    cbn. eapply Reading_err; eassumption. }
  unfold Rest. destruct l.
  - intros [H1 H2]. split; auto.
  - intros (cs & H1 & H2). exists cs. split; auto.
Qed.

Lemma Read_at_end x c r :
  at_chunk r [] true -> r_seq r = x_seq x -> r_err r = None ->
  Read crc x c r = (r, ([], Some EOF)).
Proof.
  intros (Hi & Hj & Hn & Hs & Hl) Hq He. change (len []) with 0 in Hj.
  unfold Read. rewrite Hq, Z.eqb_refl, He. cbn [negb].
  rewrite readLoop_unfold. unfold readStep.
  replace (r_i r =? r_j r) with true by (symmetry; apply Z.eqb_eq; lia).
  rewrite Hl. reflexivity.
Qed.

(** The loop of [ReadAll] delivers what is left of the current chunk
    and of the record, and stops at the chunk that follows the record. *)
Lemma ReadAll_loops x c : 1 <= c -> forall k r acc u l p cs',
  (x_measure (r, acc) <= k)%nat ->
  at_chunk r u l -> Rest crc epad elater r l p cs' -> r_seq r = x_seq x ->
  exists r',
    loops_to (readAllStep crc x c) x_measure (r, acc)
      (r', (acc ++ u ++ p, None)) /\
    Reading crc epad elater r' cs' /\ r_seq r' = r_seq r /\ r_started r' = r_started r.
Proof.
  intros Hc. induction k as [|k IH]; intros r acc u l p cs' Hk Hat HRest Hq.
  - (* no byte left anywhere: the chunk is empty and ends the record *)
    pose proof (Rest_err _ _ _ _ HRest) as He.
    pose proof (at_chunk_measure _ _ _ acc Hat) as Hxm.
    destruct u as [|b u]; [|cbn [length] in Hxm; lia].
    destruct l.
    + destruct HRest as [-> HR]. exists r. splits; auto.
      apply loops_return. unfold readAllStep.
      rewrite (Read_at_end x c r Hat Hq He). reflexivity.
    + destruct HRest as (cs & HR & Ht).
      destruct Hat as (Hi & Hj & Hn & Hs & Hl). change (len []) with 0 in Hj.
      destruct (readLoop_next crc epad elater cs r p cs' HR) as (r' & _ & _ & Hm & _);
        auto; [lia|]. cbn [length] in Hxm. lia.
  - pose proof (Rest_err _ _ _ _ HRest) as He.
    pose proof (at_chunk_measure _ _ _ acc Hat) as Hxm.
    destruct u as [|b u].
    + destruct l.
      * destruct HRest as [-> HR]. exists r. splits; auto.
        apply loops_return. unfold readAllStep.
        rewrite (Read_at_end x c r Hat Hq He). reflexivity.
      * destruct HRest as (cs & HR & Ht).
        pose proof Hat as (Hi & Hj & Hn & Hs & Hl). change (len []) with 0 in Hj.
        destruct (readLoop_next crc epad elater cs r p cs' HR) as (r' & Hq' & Hs' & Hm & Hres);
          auto; [lia|].
        cbn [length] in Hxm.
        destruct Hres as [(-> & El & Hat' & HR')|(u1 & l1 & p1 & Hu1 & El & Hat' & -> & HRest')].
        -- exists r'. splits; auto.
           apply loops_return. unfold readAllStep, Read.
           rewrite Hq, Z.eqb_refl, He, El. reflexivity.
        -- pose proof (Rest_err _ _ _ _ HRest') as He'.
           destruct (Read_in_chunk crc x c r' u1 l1 Hat' Hu1) as (_ & Hat1 & Hkk);
             auto; [congruence|].
           set (kk := Z.min c (len u1)) in *.
           set (r1 := set_r_i (r_i r' + kk) r') in *.
           pose proof (at_chunk_measure _ _ _ (acc ++ firstn (Z.to_nat kk) u1) Hat1) as Hxm1.
           pose proof (at_chunk_measure _ _ _ [] Hat') as Hxm'.
           assert (Hlen : (length (skipn (Z.to_nat kk) u1) < length u1)%nat).
           { rewrite length_skipn. unfold len in Hkk. lia. }
           assert (Hr1 : r_measure r1 = r_measure r') by reflexivity.
           destruct (IH r1 (acc ++ firstn (Z.to_nat kk) u1)
                       (skipn (Z.to_nat kk) u1) l1 p1 cs')
             as (r2 & Hloop & HR2 & Hq2 & Hs2);
             [lia|exact Hat1|now apply Rest_set_i|cbn; congruence|].
           exists r2. splits.
           ++ eapply loops_continue; [| |].
              ** unfold readAllStep, Read.
                 rewrite Hq, Z.eqb_refl, He, El. cbn [negb].
                 destruct Hat' as (_ & _ & _ & -> & _). fold kk. fold r1.
                 reflexivity.
              ** lia.
              ** rewrite <- !app_assoc in Hloop.
                 rewrite (app_assoc (firstn _ _)), firstn_skipn in Hloop.
                 exact Hloop.
           ++ exact HR2.
           ++ cbn in Hq2. congruence.
           ++ cbn in Hs2. congruence.
    + destruct (Read_in_chunk crc x c r (b :: u) l Hat) as (E & Hat1 & Hkk);
        auto; [discriminate|].
      set (kk := Z.min c (len (b :: u))) in *.
      set (r1 := set_r_i (r_i r + kk) r) in *.
      pose proof (at_chunk_measure _ _ _ (acc ++ firstn (Z.to_nat kk) (b :: u)) Hat1)
        as Hxm1.
      assert (Hlen : (length (skipn (Z.to_nat kk) (b :: u)) < length (b :: u))%nat).
      { rewrite length_skipn. unfold len in Hkk. lia. }
      assert (Hr1 : r_measure r1 = r_measure r) by reflexivity.
      destruct (IH r1 (acc ++ firstn (Z.to_nat kk) (b :: u))
                  (skipn (Z.to_nat kk) (b :: u)) l p cs')
        as (r2 & Hloop & HR2 & Hq2 & Hs2);
        [lia|exact Hat1|now apply Rest_set_i|exact Hq|].
      exists r2. splits; auto.
      eapply loops_continue; [| |].
      * unfold readAllStep. rewrite E. reflexivity.
      * lia.
      * rewrite <- !app_assoc in Hloop.
        rewrite (app_assoc (firstn _ _)), firstn_skipn in Hloop.
        exact Hloop.
Qed.

Lemma ReadAll_spec x c r u l p cs' :
  1 <= c -> at_chunk r u l -> Rest crc epad elater r l p cs' -> r_seq r = x_seq x ->
  exists r',
    ReadAll crc x c r = (r', (u ++ p, None)) /\
    Reading crc epad elater r' cs' /\ r_seq r' = r_seq r /\ r_started r' = r_started r.
Proof.
  intros Hc Hat HRest Hq.
  destruct (ReadAll_loops x c Hc (x_measure (r, [])) r [] u l p cs')
    as (r' & Hloop & HR & Hq' & Hs'); auto.
  exists r'. splits; auto.
  unfold ReadAll. rewrite (loops_to_run _ _ _ _ Hloop) by lia. reflexivity.
Qed.

End ReaderDrain.

(** ** Chunks regrouped into records *)

Lemma assemble_tail : forall cs a l,
  assemble (Some a) cs = Some l ->
  exists p cs' rs,
    tailOf cs = Some (p, cs') /\ l = (a ++ p) :: rs /\
    assemble None cs' = Some rs.
Proof.
  induction cs as [|c cs IH]; intros a l H; [discriminate|].
  cbn [assemble tailOf] in *. unfold is_last.
  destruct (Z.eqb_spec (c_type c) middleChunkType) as [Em|Em].
  - rewrite Em. cbn [Z.eqb orb Pos.eqb middleChunkType fullChunkType lastChunkType].
    destruct (IH _ _ H) as (p & cs' & rs & -> & -> & Hr).
    exists (c_data c ++ p), cs', rs. splits; auto. now rewrite app_assoc.
  - destruct (Z.eqb_spec (c_type c) lastChunkType) as [El|El]; [|discriminate].
    rewrite El. cbn [Z.eqb orb Pos.eqb fullChunkType lastChunkType].
    destruct (assemble None cs) as [rs|] eqn:Er; [|discriminate].
    injection H as <-. exists (c_data c), cs, rs. splits; auto.
Qed.

Lemma assemble_head c cs l :
  assemble None (c :: cs) = Some l ->
  is_first c = true /\
  exists p cs' rs,
    l = (c_data c ++ p) :: rs /\ assemble None cs' = Some rs /\
    if is_last c then p = [] /\ cs' = cs else tailOf cs = Some (p, cs').
Proof.
  cbn [assemble]. unfold is_first, is_last.
  destruct (Z.eqb_spec (c_type c) fullChunkType) as [Ef|Ef].
  - rewrite Ef. cbn [orb]. intros H. split; [reflexivity|].
    destruct (assemble None cs) as [rs|] eqn:Er; [|discriminate].
    injection H as <-. exists [], cs, rs. rewrite app_nil_r. splits; auto.
  - destruct (Z.eqb_spec (c_type c) firstChunkType) as [Ei|Ei]; [|discriminate].
    rewrite Ei. cbn [Z.eqb orb Pos.eqb firstChunkType lastChunkType].
    intros H. split; [reflexivity|].
    destruct (assemble_tail _ _ _ H) as (p & cs' & rs & Ht & -> & Hr).
    exists p, cs', rs. splits; auto.
Qed.

Lemma assemble_nil cs : assemble None cs = Some [] -> cs = [].
Proof.
  destruct cs as [|c cs]; [reflexivity|]. intros H.
  destruct (assemble_head _ _ _ H) as (_ & p & cs' & rs & E & _). discriminate.
Qed.

(** ** Reading a stream record by record *)

Section ReaderRounds.
Variable crc : list byte -> Z.
Variables (epad : Z) (elater : list block).

Lemma readRecords_spec c : 1 <= c -> forall rs cs r,
  Reading crc epad elater r cs -> assemble None cs = Some rs ->
  exists r',
    readRecords crc (length rs) c r = (r', (rs, None)) /\
    Reading crc epad elater r' [].
Proof.
  intros Hc. induction rs as [|rec rs IH]; intros cs r HR Ha.
  - apply assemble_nil in Ha. subst cs. exists r. split; [reflexivity|exact HR].
  - destruct cs as [|ch cs]; [discriminate|].
    destruct (assemble_head _ _ _ Ha) as (Hf & p & cs' & rs' & E & Hr & Hrest).
    injection E as -> <-.
    destruct (Next_found crc epad elater r ch cs HR Hf)
      as (r1 & EN & HR1 & Hat & Hq & Hs).
    destruct (ReadAll_spec crc epad elater (mkSingleReader (r_seq r + 1)) c r1
                (c_data ch) (is_last ch) p cs' Hc Hat)
      as (r2 & ER & HR2 & _ & _).
    { unfold Rest. destruct (is_last ch).
      - destruct Hrest as [-> ->]. split; [reflexivity|exact HR1].
      - exists cs. split; assumption. }
    { exact Hq. }
    destruct (IH cs' r2 HR2 Hr) as (r3 & E3 & HR3).
    exists r3. split; [|exact HR3].
    cbn [length readRecords]. rewrite EN, ER, E3. reflexivity.
Qed.

(** The same once [Next] has found the first chunk [ch] of a record. *)
Lemma readRecords_from c rs cs ch r r1 x :
  1 <= c ->
  Next crc r = (r1, (Some x, None)) -> r_seq r1 = x_seq x ->
  at_chunk r1 (c_data ch) (is_last ch) -> Reading crc epad elater r1 cs ->
  assemble None (ch :: cs) = Some rs ->
  exists r',
    readRecords crc (length rs) c r = (r', (rs, None)) /\
    Reading crc epad elater r' [].
Proof.
  intros Hc EN Hq Hat HR1 Ha.
  destruct (assemble_head _ _ _ Ha) as (Hf & p & cs' & rs' & E & Hr & Hrest).
  subst rs.
  destruct (ReadAll_spec crc epad elater x c r1
              (c_data ch) (is_last ch) p cs' Hc Hat)
    as (r2 & ER & HR2 & _ & _).
  { unfold Rest. destruct (is_last ch).
    - destruct Hrest as [-> ->]. split; [reflexivity|exact HR1].
    - exists cs. split; assumption. }
  { exact Hq. }
  destruct (readRecords_spec c Hc rs' cs' r2 HR2 Hr) as (r3 & E3 & HR3).
  exists r3. split; [|exact HR3].
  cbn [length readRecords]. rewrite EN, ER, E3. reflexivity.
Qed.

End ReaderRounds.

Section ReaderStreams.
Variable crc : list byte -> Z.

Lemma NewReader_RInv bs seekable :
  wf_blocks crc bs ->
  RInv crc (NewReader (mkSource (encBlocks crc bs) 0 seekable)) [] 0 bs.
Proof.
  intros Hw.
  unfold RInv, NewReader. cbn [r_buf r_j r_n r_r r_started].
  assert (L : len (zeros blockSize) = blockSize) by (rewrite len_zeros; fmt_lia).
  splits; auto; try fmt_lia.
  change (encChunks crc [] ++ zeros 0) with (@nil byte).
  apply holds_nil. rewrite L. fmt_lia.
Qed.

Lemma NewReader_reading bs seekable :
  wf_blocks crc bs -> tight 0 bs ->
  Reading crc 0 [] (NewReader (mkSource (encBlocks crc bs) 0 seekable))
    (chunks_of bs).
Proof.
  intros Hw Ht. exists [], 0, bs. splits; auto.
  - now apply NewReader_RInv.
  - apply (tight_leads bs [] 0 Ht).
Qed.

(** A tightly laid out stream reads back as the records its chunks
    regroup into, and then ends. *)
Lemma read_stream bs rs c seekable :
  wf_blocks crc bs -> tight 0 bs ->
  assemble None (chunks_of bs) = Some rs -> 1 <= c ->
  exists r1,
    readRecords crc (length rs) c
      (NewReader (mkSource (encBlocks crc bs) 0 seekable))
    = (r1, (rs, None)) /\
    snd (Next crc r1) = (None, Some EOF).
Proof.
  intros Hw Ht Ha Hc.
  destruct (readRecords_spec crc 0 [] c Hc rs _ _
              (NewReader_reading bs seekable Hw Ht) Ha)
    as (r1 & E & HR).
  exists r1. split; [exact E|].
  apply Reading_end in HR. destruct HR as [HI He].
  now rewrite (Next_eof crc r1 HI He).
Qed.

End ReaderStreams.

(** ** Blocks of zeroes *)

Section ReaderZeroes.
Variable crc : list byte -> Z.

Lemma zeros_add a b : 0 <= a -> 0 <= b -> zeros (a + b) = zeros a ++ zeros b.
Proof.
  intros Ha Hb. unfold zeros. rewrite Z2Nat.inj_add by lia. apply repeat_app.
Qed.

Lemma zero_header_fields buf j :
  holds buf j (zeros headerSize) ->
  le_combine (slice buf (j + 0) (j + 4)) = 0 /\
  le_combine (slice buf (j + 4) (j + 6)) = 0 /\
  byte.unsigned (at_ buf (j + 6)) = 0.
Proof.
  intros H.
  change (zeros headerSize) with (zeros 4 ++ zeros 2 ++ [Byte.x00]) in H.
  pose proof (holds_app_l _ _ _ _ H) as H4.
  pose proof (holds_app_r _ _ _ _ H) as H'.
  pose proof (holds_app_l _ _ _ _ H') as H2.
  pose proof (holds_app_r _ _ _ _ H') as H3.
  change (len (zeros 4)) with 4 in *. change (len (zeros 2)) with 2 in *.
  splits.
  - rewrite Z.add_0_r, (holds_slice _ _ _ _ H4) by reflexivity. reflexivity.
  - rewrite (holds_slice _ _ _ _ H2) by (change (len (zeros 2)) with 2; lia).
    reflexivity.
  - replace (j + 6) with (j + 4 + 2) by lia.
    rewrite (holds_at _ _ _ _ H3). reflexivity.
Qed.

(** A header of seven zero bytes: skipped with the rest of the block
    when a record start is sought or a recovery is under way, an error
    inside a record. *)
Lemma zero_header_step wantFirst r :
  holds (r_buf r) (r_j r) (zeros headerSize) -> r_j r + headerSize <= r_n r ->
  nextChunkStep crc wantFirst r
  = if wantFirst || r_recovering r
    then Continue (Recover (set_r_err (Some ErrZeroedBlock) r))
    else Return (r, Some ErrInvalidChunk).
Proof.
  intros H Hn. destruct (zero_header_fields _ _ H) as (E1 & E2 & E3).
  unfold nextChunkStep.
  destruct (r_j r + headerSize <=? r_n r) eqn:Hh; [|apply Z.leb_gt in Hh; lia].
  rewrite E1, E2, E3. reflexivity.
Qed.

Lemma Recover_zeroed r :
  Recover (set_r_err (Some ErrZeroedBlock) r)
  = mkReader (r_r r) (r_seq r + 1) (r_n r) (r_n r) (r_n r) (r_started r)
      true false None (r_buf r).
Proof. reflexivity. Qed.

Lemma RInv_zeroed r pad later :
  RInv crc r [] pad later ->
  RInv crc (Recover (set_r_err (Some ErrZeroedBlock) r)) [] 0 later.
Proof.
  intros (Hl & Hh & Hn & HnB & Hp & Hv & Hs & Hw & Hst).
  change (len (encChunks crc [])) with 0 in *.
  pose proof (holds_nonneg _ _ _ Hh) as Hj.
  rewrite Recover_zeroed. unfold RInv. cbn [r_buf r_j r_n r_r r_started].
  splits; auto; try lia.
  - change (encChunks crc [] ++ zeros 0) with (@nil byte).
    apply holds_nil. lia.
  - change (len (encChunks crc [])) with 0. lia.
Qed.

Lemma RInv_zero_step wantFirst r pad later :
  RInv crc r [] pad later -> headerSize <= pad ->
  nextChunkStep crc wantFirst r
  = if wantFirst || r_recovering r
    then Continue (Recover (set_r_err (Some ErrZeroedBlock) r))
    else Return (r, Some ErrInvalidChunk).
Proof.
  intros (Hl & Hh & Hn & HnB & Hp & Hv & Hs & Hw & Hst) Hpad.
  change (len (encChunks crc [])) with 0 in Hn.
  apply zero_header_step; [|lia].
  change (encChunks crc [] ++ zeros pad) with (zeros pad) in Hh.
  replace pad with (headerSize + (pad - headerSize)) in Hh by lia.
  rewrite zeros_add in Hh by (unfold headerSize in *; lia).
  exact (holds_app_l _ _ _ _ Hh).
Qed.

(** Seeking a record start, the padding left in the block in hand is
    skipped if it can hold a header. *)
Lemma nextChunk_settle r pad later :
  RInv crc r [] pad later -> r_err r = None ->
  exists r1 pad1,
    pad1 < headerSize /\ RInv crc r1 [] pad1 later /\
    nextChunk crc true r = nextChunk crc true r1 /\
    r_seq r <= r_seq r1 /\ r_err r1 = None.
Proof.
  intros HI He. destruct (Z_lt_le_dec pad headerSize) as [Hp|Hp].
  - exists r, pad. splits; auto; lia.
  - exists (Recover (set_r_err (Some ErrZeroedBlock) r)), 0. splits.
    + unfold headerSize; lia.
    + eapply RInv_zeroed; eauto.
    + rewrite nextChunk_unfold, (RInv_zero_step true r pad later HI Hp).
      reflexivity.
    + rewrite Recover_zeroed. cbn [r_seq]. lia.
    + reflexivity.
Qed.

(** Seeking a record start, blocks without a chunk are passed over up
    to the first chunk of the first block that has one. *)
Lemma nextChunk_skip : forall zs r pad b later c t,
  RInv crc r [] pad (zs ++ b :: later) -> r_err r = None ->
  Forall (fun z => b_chunks z = []) zs ->
  b_chunks b = c :: t -> is_first c = true ->
  exists r',
    nextChunk crc true r = (r', None) /\
    RInv crc r' t (b_pad b) later /\ at_chunk r' (c_data c) (is_last c) /\
    r_seq r <= r_seq r' /\ r_err r' = None.
Proof.
  induction zs as [|z zs IH]; intros r pad b later c t HI He Hz Eb Hf;
    destruct (nextChunk_settle r pad _ HI He)
      as (r1 & pad1 & Hp1 & HI1 & E1 & Hq1 & He1);
    rewrite E1; cbn [app] in HI1.
  - destruct (RInv_cross crc true r1 pad1 b later HI1 Hp1) as [E2 HI2].
    { apply encBlock_not_nil. rewrite Eb. discriminate. }
    rewrite Eb in HI2.
    destruct (RInv_parse crc true _ _ _ _ _ HI2)
      as (E3 & HI3 & _ & Hs & Hn & Hj).
    rewrite Hf in E3. cbn [negb andb] in E3.
    exists (accepted (fetched r1 (encBlock crc b)) c). splits; auto.
    + rewrite nextChunk_unfold, E2, nextChunk_unfold, E3. reflexivity.
    + now apply accepted_at_chunk.
  - inversion Hz as [|? ? Ez Hz']; subst.
    destruct (RInv_cross crc true r1 pad1 z (zs ++ b :: later) HI1 Hp1)
      as [E2 HI2].
    { destruct HI1 as (_ & _ & _ & _ & _ & _ & _ & Hw & _).
      cbn [wf_blocks] in Hw. destruct Hw as (_ & _ & _ & Hfull & _).
      intros E.
      assert (L : len (encBlock crc z) = blockSize)
        by (apply Hfull; destruct zs; discriminate).
      rewrite E in L. cbn [len length Z.of_nat] in L. fmt_lia. }
    rewrite Ez in HI2.
    destruct (IH (fetched r1 (encBlock crc z)) (b_pad z) b later c t HI2)
      as (r' & E3 & HI3 & Hat & Hq & He3); auto.
    exists r'. splits; auto.
    + rewrite nextChunk_unfold, E2. exact E3.
    + cbn [fetched r_seq] in Hq. lia.
Qed.

Lemma Next_skip r pad zs b later c t :
  RInv crc r [] pad (zs ++ b :: later) -> r_err r = None ->
  Forall (fun z => b_chunks z = []) zs ->
  b_chunks b = c :: t -> is_first c = true ->
  exists r' x,
    Next crc r = (r', (Some x, None)) /\ r_seq r' = x_seq x /\
    RInv crc r' t (b_pad b) later /\ r_err r' = None /\
    at_chunk r' (c_data c) (is_last c).
Proof.
  intros HI He Hz Eb Hf.
  set (r0 := set_r_i (r_j r) (set_r_seq (r_seq r + 1) r)).
  assert (HI0 : RInv crc r0 [] pad (zs ++ b :: later)).
  { eapply RInv_ext; try exact HI; try reflexivity; auto. }
  destruct (nextChunk_skip zs r0 pad b later c t HI0 He Hz Eb Hf)
    as (r1 & E & HI1 & Hat & Hq & He1).
  exists (set_r_started true (set_r_err None r1)), (mkSingleReader (r_seq r1)).
  split.
  - unfold Next. cbn [set_r_seq r_err]. rewrite He.
    change (set_r_i (r_j (set_r_seq (r_seq r + 1) r)) (set_r_seq (r_seq r + 1) r))
      with r0.
    rewrite E. cbn [set_r_err r_err set_r_started r_seq]. reflexivity.
  - destruct Hat as (Hi & Hj & Hn & Hsl & Hl).
    pose proof (len_nonneg (c_data c)).
    splits.
    + reflexivity.
    + eapply RInv_ext; try exact HI1; try reflexivity.
      right. unfold headerSize in *. lia.
    + reflexivity.
    + unfold at_chunk. cbn. splits; auto.
Qed.

Lemma readRecords_app c : forall k1 k2 r r1 l1,
  readRecords crc k1 c r = (r1, (l1, None)) -> length l1 = k1 ->
  readRecords crc (k1 + k2) c r
  = let '(r2, (l2, e)) := readRecords crc k2 c r1 in (r2, (l1 ++ l2, e)).
Proof.
  induction k1 as [|k1 IH]; intros k2 r r1 l1 H Hl.
  - cbn [readRecords] in H. injection H as <- <-. cbn [Nat.add app].
    destruct (readRecords crc k2 c r) as [r2 [l2 e]]. reflexivity.
  - cbn [Nat.add readRecords] in *.
    destruct (Next crc r) as [ra [[x|] [e|]]]; try discriminate;
      try (injection H as <- <-; discriminate).
    destruct (ReadAll crc x c ra) as [rb [d [e|]]]; try discriminate.
    destruct (readRecords crc k1 c rb) as [rc [ds e']] eqn:E.
    injection H as <- <- ->. cbn [length] in Hl. injection Hl as Hl.
    rewrite (IH k2 rb rc ds E Hl).
    destruct (readRecords crc k2 c rc) as [r2 [l2 e]]. reflexivity.
Qed.

(** C4. A stream made of a block [b1] of whole records, 32 KiB of
    zeroes and a block [b2] of whole records reads back as the records
    of [b1] followed by those of [b2]. In the loop of [nextChunk], a
    header of seven zero bytes makes the reader store the zeroed-block
    error and recover, which drops the rest of the block ([i], [j] and
    [n] all at the end of the block, the error cleared, [recovering]
    set, [seq] one higher), and go on, when a record start is sought or
    a recovery is under way; inside a record the loop returns the
    invalid-chunk error and leaves the reader as it is. *)
Theorem zeroed_block_tolerated (b1 b2 : block) (rs1 rs2 : list (list byte))
    (c : Z) (seekable : bool) :
  1 <= c ->
  Forall valid_chunk (b_chunks b1) -> 0 <= b_pad b1 ->
  len (encBlock crc b1) = blockSize ->
  Forall valid_chunk (b_chunks b2) -> 0 <= b_pad b2 ->
  len (encBlock crc b2) <= blockSize ->
  assemble None (b_chunks b1) = Some rs1 ->
  assemble None (b_chunks b2) = Some rs2 ->
  (exists r,
     readRecords crc (length (rs1 ++ rs2)) c
       (NewReader (mkSource (encBlock crc b1 ++ zeros blockSize
                             ++ encBlock crc b2) 0 seekable))
     = (r, (rs1 ++ rs2, None))) /\
  (forall wantFirst r,
     holds (r_buf r) (r_j r) (zeros headerSize) ->
     r_j r + headerSize <= r_n r ->
     nextChunkStep crc wantFirst r
     = if wantFirst || r_recovering r
       then Continue (Recover (set_r_err (Some ErrZeroedBlock) r))
       else Return (r, Some ErrInvalidChunk)) /\
  (forall r,
     Recover (set_r_err (Some ErrZeroedBlock) r)
     = mkReader (r_r r) (r_seq r + 1) (r_n r) (r_n r) (r_n r) (r_started r)
         true false None (r_buf r)).
Proof.
  intros Hc Hv1 Hp1 Hl1 Hv2 Hp2 Hl2 Ha1 Ha2.
  split; [|split; [intros wf r; apply zero_header_step|apply Recover_zeroed]].
  set (z := mkBlock [] blockSize).
  assert (Ez : encBlock crc z = zeros blockSize) by reflexivity.
  assert (Es : encBlock crc b1 ++ zeros blockSize ++ encBlock crc b2
               = encBlocks crc [b1; z; b2]).
  { unfold encBlocks. cbn [map concat]. now rewrite Ez, app_nil_r. }
  rewrite Es.
  assert (Hw : wf_blocks crc [b1; z; b2]).
  { cbn [wf_blocks]. rewrite Ez, len_zeros. cbn [b_chunks b_pad z].
    splits; auto; try fmt_lia. congruence. }
  pose proof (NewReader_RInv crc [b1; z; b2] seekable Hw) as HI0.
  set (r0 := NewReader _) in *.
  assert (A : exists r1 pad zs,
             readRecords crc (length rs1) c r0 = (r1, (rs1, None)) /\
             RInv crc r1 [] pad (zs ++ [b2]) /\ r_err r1 = None /\
             Forall (fun z => b_chunks z = []) zs).
  { destruct (b_chunks b1) as [|ch cs] eqn:E1.
    - cbn [assemble] in Ha1. injection Ha1 as <-.
      exists r0, 0, [b1; z]. splits; auto.
    - assert (HR : Reading crc (b_pad b1) [z; b2] r0 (ch :: cs)).
      { exists [], 0, [b1; z; b2]. splits; auto.
        apply (leads_over [] 0 b1 [z; b2] (ch :: cs));
          [unfold headerSize; lia|rewrite E1; discriminate|].
        rewrite E1. apply leads_here. }
      destruct (readRecords_spec crc _ _ c Hc rs1 _ r0 HR Ha1)
        as (r1 & E & HR1).
      apply Reading_end in HR1. destruct HR1 as [HI1 He1].
      exists r1, (b_pad b1), [z]. splits; auto. }
  destruct A as (r1 & pad & zs & EA & HI1 & He1 & Hz).
  destruct (b_chunks b2) as [|ch cs] eqn:E2.
  - cbn [assemble] in Ha2. injection Ha2 as <-.
    rewrite app_nil_r. exists r1. exact EA.
  - destruct (assemble_head _ _ _ Ha2) as (Hf & _).
    destruct (Next_skip r1 pad zs b2 [] ch cs HI1 He1 Hz E2 Hf)
      as (r2 & x & EN & Hq & HI2 & He2 & Hat).
    assert (HR2 : Reading crc (b_pad b2) [] r2 cs).
    { exists cs, (b_pad b2), []. splits; auto. apply leads_here. }
    destruct (readRecords_from crc _ _ c rs2 cs ch r1 r2 x Hc EN Hq Hat HR2 Ha2)
      as (r3 & EB & _).
    exists r3. rewrite length_app, (readRecords_app c _ _ _ _ _ EA eq_refl), EB.
    reflexivity.
Qed.

End ReaderZeroes.

(** ** The writer over an in-memory sink *)

Section WriterLayout.
Variable crc : list byte -> Z.

Lemma encChunks_one c : encChunks crc [c] = encChunk crc c.
Proof. unfold encChunks. cbn. apply app_nil_r. Qed.

Lemma encBlocks_one b : encBlocks crc [b] = encBlock crc b.
Proof. unfold encBlocks. cbn. apply app_nil_r. Qed.

Lemma chunks_of_app bs1 bs2 :
  chunks_of (bs1 ++ bs2) = chunks_of bs1 ++ chunks_of bs2.
Proof. apply flat_map_app. Qed.

Lemma chunks_of_one b : chunks_of [b] = b_chunks b.
Proof. unfold chunks_of. cbn. apply app_nil_r. Qed.

Lemma encBlock_nopad cs : encBlock crc (mkBlock cs 0) = encChunks crc cs.
Proof. unfold encBlock. cbn. apply app_nil_r. Qed.

Lemma wf_blocks_layout done last :
  Forall (full_block crc) done -> wf_blocks crc last ->
  wf_blocks crc (done ++ last).
Proof.
  intros Hd Hl. induction Hd as [|b done (Hb1 & Hb2 & Hb3 & Hb4) Hd IH];
    [exact Hl|].
  cbn [app wf_blocks]. splits; auto; lia.
Qed.

Lemma tight_layout done b : forall pad,
  pad < headerSize -> Forall (full_block crc) done ->
  b_chunks b <> [] -> b_pad b = 0 ->
  tight pad (done ++ [b]).
Proof.
  induction done as [|d done IH]; intros pad Hp Hd Hb Hpb.
  - cbn. splits; auto.
  - inversion Hd as [|? ? (H1 & H2 & H3 & H4) Hd']; subst.
    cbn [app tight]. splits; auto. apply IH; auto. lia.
Qed.

Lemma layout_good done cs :
  Forall (full_block crc) done -> Forall valid_chunk cs ->
  len (encChunks crc cs) <= blockSize -> (cs = [] -> done = []) ->
  wf_blocks crc (layout done cs) /\ tight 0 (layout done cs) /\
  chunks_of (layout done cs) = chunks_of done ++ cs /\
  encBlocks crc (layout done cs) = encBlocks crc done ++ encChunks crc cs.
Proof.
  intros Hd Hv Hl He. unfold layout. destruct cs as [|c cs].
  - rewrite (He eq_refl). cbn. splits; auto.
  - splits.
    + apply wf_blocks_layout; [exact Hd|]. cbn [wf_blocks b_chunks b_pad].
      rewrite encBlock_nopad. splits; auto; try lia. congruence.
    + apply tight_layout; auto; [unfold headerSize; lia|discriminate].
    + now rewrite chunks_of_app, chunks_of_one.
    + now rewrite encBlocks_app, encBlocks_one, encBlock_nopad.
Qed.

End WriterLayout.

Section WriterMem.
Variable crc : list byte -> Z.

Lemma writeBlock_mem (w : Writer (list byte)) :
  writeBlock w
  = mkWriter (w_w w ++ slice (w_buf w) (w_written w) (len (w_buf w)))
      0 headerSize 0 (w_baseOffset w) (wrap64 (w_blockNumber w + 1))
      (w_lastRecordOffset w) (w_first w) (w_pending w) None (w_buf w).
Proof. reflexivity. Qed.

Lemma Linked_nil : Linked None [] [].
Proof. intros tail l H. exact H. Qed.

Lemma NewWriter_idle : WIdle crc (NewWriter (@nil byte)) [].
Proof.
  exists [], []. splits; auto.
  - unfold WInv. splits; auto.
    + apply (NewWriter_safe (@nil byte)).
    + apply holds_nil. cbn [NewWriter io_tell memSink w_buf].
      rewrite len_zeros. fmt_lia.
  - exact Linked_nil.
Qed.

Lemma encChunks_not_nil cs : 0 < len (encChunks crc cs) -> cs <> [].
Proof. intros H ->. cbn in H. lia. Qed.

(** [Write] starts a record: the header is reserved, in the next
    block when it no longer fits in this one. *)
Lemma startRecord_idle w rs :
  WIdle crc w rs ->
  exists w1, startRecord w = (w1, None) /\ WOpen crc w1 rs [].
Proof.
  intros (done & cs & HI & Hp & HL & Hne).
  destruct HI as (Sf & He & Hw & Hs & Hd & Hv & Hh & Hj).
  rewrite Hp in Hj.
  pose proof Sf as (Hi0 & Hij & HjB & _ & Hl).
  unfold startRecord. rewrite Hp. cbn [negb]. cbv zeta.
  cbn [set_w_ij w_j w_i w_buf].
  destruct (w_j w + headerSize >? blockSize) eqn:Hov.
  - apply Z.gtb_lt in Hov.
    set (buf' := splice (w_buf w) (w_j w) (zeros (blockSize - w_j w))).
    assert (Lz : len (zeros (blockSize - w_j w)) = blockSize - w_j w)
      by (rewrite len_zeros; lia).
    assert (Lb : len buf' = blockSize)
      by (unfold buf'; rewrite len_splice; lia).
    assert (Hb : holds buf' 0 (encChunks crc cs ++ zeros (blockSize - w_j w))).
    { apply holds_app.
      - apply holds_splice_before; [exact Hh|lia|lia].
      - rewrite Z.add_0_l, <- Hj. apply holds_splice; lia. }
    assert (Es : slice buf' 0 (len buf') = encBlock crc (mkBlock cs (blockSize - w_j w))).
    { unfold encBlock. cbn [b_chunks b_pad].
      apply holds_slice; [exact Hb|]. rewrite len_app, Lz, Lb. lia. }
    rewrite writeBlock_mem. cbn [set_w_buf set_w_ij w_w w_buf w_written w_err
      w_i w_j w_baseOffset w_blockNumber w_lastRecordOffset w_first w_pending].
    fold buf'. rewrite Hw, Es.
    eexists. split; [reflexivity|].
    exists (done ++ [mkBlock cs (blockSize - w_j w)]), [], [], [].
    wsimpl.
    assert (Hn0 : 0 <= 0 + headerSize <= len buf') by fmt_lia.
    splits; auto.
    + unfold WInv. wsimpl.
      splits; auto.
      * unfold WSafe. wsimpl. splits; auto; fmt_lia.
      * now rewrite Hs, encBlocks_app, encBlocks_one.
      * apply Forall_app. split; [exact Hd|]. constructor; [|constructor].
        unfold full_block. cbn [b_chunks b_pad]. splits; auto; try fmt_lia.
        -- unfold encBlock. cbn [b_chunks b_pad]. rewrite len_app, Lz. lia.
        -- apply encChunks_not_nil. fmt_lia.
      * apply holds_nil. lia.
    + apply holds_nil. exact Hn0.
    + intros tail l H. rewrite chunks_of_app, chunks_of_one. cbn [b_chunks].
      rewrite app_nil_r. now apply HL.
  - rewrite Z.gtb_ltb in Hov. apply Z.ltb_ge in Hov.
    cbn [set_w_ij w_err]. rewrite He.
    eexists. split; [reflexivity|].
    exists done, cs, [], [].
    wsimpl.
    splits; auto.
    + unfold WInv. wsimpl.
      splits; auto.
      unfold WSafe. wsimpl. splits; auto; fmt_lia.
    + apply holds_nil. fmt_lia.
    + change (len []) with 0. lia.
Qed.

End WriterMem.

Section WriterSteps.
Variable crc : list byte -> Z.

Lemma valid_chunkTypeOf last first d :
  valid_chunk (mkChunk (chunkTypeOf last first) d).
Proof. unfold valid_chunk, chunkTypeOf. cbn. destruct last, first; fmt_lia. Qed.

Lemma Linked_snoc_open (first : bool) acc cs rs cur :
  Linked (if first then None else Some acc) cs rs ->
  Linked (Some ((if first then [] else acc) ++ cur))
    (cs ++ [mkChunk (chunkTypeOf false first) cur]) rs.
Proof.
  intros HL tail l H. rewrite <- app_assoc. cbn [app]. apply HL.
  destruct first; cbn [assemble chunkTypeOf c_type c_data]; exact H.
Qed.

Lemma Linked_snoc_close (first : bool) acc cs rs cur :
  Linked (if first then None else Some acc) cs rs ->
  Linked None (cs ++ [mkChunk (chunkTypeOf true first) cur])
    (rs ++ [(if first then [] else acc) ++ cur]).
Proof.
  intros HL tail l H. rewrite <- !app_assoc. cbn [app]. apply HL.
  destruct first; cbn [assemble chunkTypeOf c_type c_data]; rewrite H;
    reflexivity.
Qed.

(** One turn of the loop of [Write]: a full block goes to the sink,
    its last chunk typed [FIRST] or [MIDDLE], and what fits of [p] is
    copied after the reserved header. *)
Lemma writeStep_open w rs rec p :
  WOpen crc w rs rec -> p <> [] ->
  exists w' n,
    writeStep crc (w, p) = Continue (w', skipn (Z.to_nat n) p) /\
    WOpen crc w' rs (rec ++ firstn (Z.to_nat n) p) /\
    1 <= n <= len p.
Proof.
  intros (done & cs & cur & acc & HI & Hp & Hc & Hj & HL & ->) Hne.
  destruct HI as (Sf & He & Hw & Hs & Hd & Hv & Hh & Hi). rewrite Hp in Hi.
  pose proof Sf as (Hi0 & Hij & HjB & Hpe & Hl). specialize (Hpe Hp).
  pose proof (holds_slice _ _ (w_j w) _ Hc ltac:(lia)) as Ecur.
  pose proof (len_nonneg cur) as Hcur0.
  unfold writeStep. destruct p as [|b p]; [congruence|].
  set (pp := b :: p) in *.
  destruct (w_j w =? blockSize) eqn:Hfull.
  - apply Z.eqb_eq in Hfull.
    destruct (fillHeader_holds crc false w Hi0 Hpe HjB Hl)
      as (buf1 & -> & L1 & Hc1 & Hframe).
    rewrite Ecur in Hc1.
    set (ch := mkChunk (chunkTypeOf false (w_first w)) cur) in *.
    cbn [bind]. rewrite writeBlock_mem. wsimpl. cbn [w_err].
    destruct (copy_spec buf1 headerSize pp L1)
      as (Ecopy & Hn1 & Hn2 & Hn3 & Hn4 & Hn5 & _);
      [fmt_lia|fmt_lia|discriminate|].
    set (n := Z.min (blockSize - headerSize) (len pp)) in *.
    rewrite Ecopy. wsimpl.
    assert (Hb1 : holds buf1 0 (encChunks crc (cs ++ [ch]))).
    { rewrite encChunks_app, encChunks_one. apply holds_app.
      - apply Hframe; [exact Hh|lia].
      - rewrite Z.add_0_l, <- Hi. exact Hc1. }
    assert (Lch : len (encChunks crc (cs ++ [ch])) = blockSize).
    { rewrite encChunks_app, encChunks_one, len_app, len_encChunk.
      cbn [ch c_data]. lia. }
    assert (Es : slice buf1 0 (len buf1)
                 = encBlock crc (mkBlock (cs ++ [ch]) 0)).
    { rewrite encBlock_nopad. apply holds_slice; [exact Hb1|]. lia. }
    rewrite Hw, Es.
    eexists _, n. split; [reflexivity|]. split; [|lia].
    exists (done ++ [mkBlock (cs ++ [ch]) 0]), [],
      (firstn (Z.to_nat n) pp), ((if w_first w then [] else acc) ++ cur).
    wsimpl.
    splits; auto.
    + unfold WInv. wsimpl. rewrite Hp. splits; auto.
      * unfold WSafe. wsimpl. splits; auto; fmt_lia.
      * now rewrite Hs, encBlocks_app, encBlocks_one.
      * apply Forall_app. split; [exact Hd|]. constructor; [|constructor].
        unfold full_block. cbn [b_chunks b_pad]. splits; auto; try fmt_lia.
        -- rewrite encBlock_nopad. exact Lch.
        -- apply Forall_app. split; [exact Hv|]. constructor; [|constructor].
           apply valid_chunkTypeOf.
        -- intros H. apply app_eq_nil in H. destruct H as [_ H]. discriminate.
      * apply holds_nil. rewrite Hn5. fmt_lia.
    + rewrite Z.add_0_l. apply holds_splice; fmt_lia.
    + lia.
    + rewrite chunks_of_app, chunks_of_one. cbn [b_chunks].
      rewrite app_nil_r, app_assoc. now apply Linked_snoc_open.
  - apply Z.eqb_neq in Hfull.
    destruct (copy_spec (w_buf w) (w_j w) pp Hl)
      as (Ecopy & Hn1 & Hn2 & Hn3 & Hn4 & Hn5 & _);
      [lia|lia|discriminate|].
    set (n := Z.min (blockSize - w_j w) (len pp)) in *.
    rewrite Ecopy. wsimpl.
    eexists _, n. split; [reflexivity|]. split; [|lia].
    exists done, cs, (cur ++ firstn (Z.to_nat n) pp), acc.
    wsimpl.
    splits; auto.
    + unfold WInv. wsimpl. rewrite Hp. splits; auto.
      * unfold WSafe. wsimpl. splits; auto; fmt_lia.
      * apply holds_splice_before; [exact Hh|lia|lia].
    + apply holds_app.
      * apply holds_splice_before; [exact Hc|lia|lia].
      * replace (w_i w + headerSize + len cur) with (w_j w) by lia.
        apply holds_splice; lia.
    + rewrite len_app. lia.
    + now rewrite app_assoc.
Qed.

End WriterSteps.

Section WriterRecords.
Variable crc : list byte -> Z.

Lemma write_loop_open rs fuel : forall p w rec,
  WOpen crc w rs rec -> (length p < fuel)%nat ->
  exists w',
    run_loop (writeStep crc) fuel (w, p) = Some (Ok (w', None)) /\
    WOpen crc w' rs (rec ++ p).
Proof.
  induction fuel as [|fuel IH]; intros p w rec HO Hf; [lia|].
  cbn [run_loop]. destruct p as [|b p].
  - exists w. rewrite app_nil_r. split; [reflexivity|exact HO].
  - destruct (writeStep_open crc w rs rec (b :: p) HO) as (w1 & n & E & HO1 & Hn);
      [discriminate|].
    rewrite E.
    destruct (IH (skipn (Z.to_nat n) (b :: p)) w1 _ HO1) as (w' & E' & HO').
    { rewrite length_skipn. cbn [length] in *. lia. }
    exists w'. split; [exact E'|].
    now rewrite <- app_assoc, firstn_skipn in HO'.
Qed.

Lemma WOpen_err w rs rec : WOpen crc w rs rec -> w_err w = None.
Proof. now intros (? & ? & ? & ? & (_ & H & _) & _). Qed.

Lemma WIdle_err w rs : WIdle crc w rs -> w_err w = None.
Proof. now intros (? & ? & (_ & H & _) & _). Qed.

(** [Write] on a writer between records opens a record holding [p]. *)
Lemma Write_idle p w rs :
  WIdle crc w rs ->
  exists w', Write crc p w = Ok (w', (len p, None)) /\ WOpen crc w' rs p.
Proof.
  intros HI. unfold Write. rewrite (WIdle_err _ _ HI).
  destruct (startRecord_idle crc w rs HI) as (w1 & -> & HO).
  destruct (write_loop_open rs (S (length p)) p w1 [] HO) as (w' & -> & HO');
    [lia|].
  exists w'. split; [reflexivity|exact HO'].
Qed.

(** [Finish] seals the pending chunk as [FULL] or [LAST]. *)
Lemma Finish_open w rs rec :
  WOpen crc w rs rec ->
  exists w', Finish crc w = Ok (w', None) /\ WIdle crc w' (rs ++ [rec]).
Proof.
  intros (done & cs & cur & acc & HI & Hp & Hc & Hj & HL & ->).
  destruct HI as (Sf & He & Hw & Hs & Hd & Hv & Hh & Hi). rewrite Hp in Hi.
  pose proof Sf as (Hi0 & Hij & HjB & Hpe & Hl). specialize (Hpe Hp).
  pose proof (holds_slice _ _ (w_j w) _ Hc ltac:(lia)) as Ecur.
  unfold Finish. rewrite Hp.
  destruct (fillHeader_holds crc true w Hi0 Hpe HjB Hl)
    as (buf1 & -> & L1 & Hc1 & Hframe).
  rewrite Ecur in Hc1.
  set (ch := mkChunk (chunkTypeOf true (w_first w)) cur) in *.
  cbn [bind]. wsimpl. rewrite He.
  eexists. split; [reflexivity|].
  exists done, (cs ++ [ch]). splits.
  - unfold WInv. wsimpl. splits; auto.
    + unfold WSafe. wsimpl. splits; auto; discriminate.
    + apply Forall_app. split; [exact Hv|]. constructor; [|constructor].
      apply valid_chunkTypeOf.
    + rewrite encChunks_app, encChunks_one. apply holds_app.
      * apply Hframe; [exact Hh|lia].
      * rewrite Z.add_0_l, <- Hi. exact Hc1.
    + rewrite encChunks_app, encChunks_one, len_app, len_encChunk.
      cbn [ch c_data]. lia.
  - reflexivity.
  - rewrite app_assoc. now apply Linked_snoc_close.
  - intros H. apply app_eq_nil in H. destruct H as [_ H]. discriminate.
Qed.

Lemma writeRecords_idle : forall rs w rs0,
  WIdle crc w rs0 ->
  exists w', writeRecords crc rs w = Ok w' /\ WIdle crc w' (rs0 ++ rs).
Proof.
  induction rs as [|p rs IH]; intros w rs0 HI.
  - exists w. rewrite app_nil_r. split; [reflexivity|exact HI].
  - cbn [writeRecords].
    destruct (Write_idle p w rs0 HI) as (w1 & -> & HO). cbn [bind].
    destruct (Finish_open w1 rs0 p HO) as (w2 & -> & HI2). cbn [bind].
    destruct (IH w2 (rs0 ++ [p]) HI2) as (w' & E & HI').
    exists w'. split; [exact E|]. now rewrite <- app_assoc in HI'.
Qed.

(** [Close] hands the last block to the sink: the stream is laid out
    tightly and its chunks regroup into the records written. *)
Lemma Close_idle w rs :
  WIdle crc w rs ->
  exists w' bs,
    Close crc w = Ok (w', None) /\ w_w w' = encBlocks crc bs /\
    wf_blocks crc bs /\ tight 0 bs /\
    assemble None (chunks_of bs) = Some rs.
Proof.
  intros (done & cs & HI & Hp & HL & Hne).
  destruct HI as (Sf & He & Hw & Hs & Hd & Hv & Hh & Hj). rewrite Hp in Hj.
  pose proof Sf as (Hi0 & Hij & HjB & _ & Hl).
  destruct (layout_good crc done cs Hd Hv) as (G1 & G2 & G3 & G4); auto; [lia|].
  unfold Close, writePending. rewrite He, Hp. cbn [bind io_write memSink].
  wsimpl. cbn [w_err].
  eexists _, (layout done cs). split; [reflexivity|]. wsimpl.
  splits; auto.
  - rewrite G4, Hs, Hw. f_equal. apply holds_slice; [exact Hh|lia].
  - rewrite G3. specialize (HL [] [] eq_refl). now rewrite !app_nil_r in HL.
Qed.

End WriterRecords.

(** ** The round trip *)

Section RoundTrip.
Variable crc : list byte -> Z.

(** C1. Writing the records [rs], one [Write] and one [Finish] each,
    and closing the writer succeeds; a reader over the bytes the sink
    received, reading [c >= 1] bytes at a time, then delivers through
    [length rs] calls of [Next], each followed by [ReadAll] on the
    source returned, exactly the payloads [rs] in order, and the call
    of [Next] that follows returns [EOF]. *)
Theorem write_read_roundtrip (rs : list (list byte)) (c : Z) (seekable : bool) :
  1 <= c ->
  exists w,
    writeAll crc rs = Ok (w, None) /\
    exists r,
      readRecords crc (length rs) c (NewReader (mkSource (w_w w) 0 seekable))
        = (r, (rs, None)) /\
      snd (Next crc r) = (None, Some EOF).
Proof.
  intros Hc.
  destruct (writeRecords_idle crc rs _ [] (NewWriter_idle crc)) as (w0 & E0 & HI).
  destruct (Close_idle crc w0 _ HI) as (w & bs & Ec & Es & Hw & Ht & Ha).
  exists w. unfold writeAll. rewrite E0. cbn [bind]. split; [exact Ec|].
  rewrite Es. cbn [app] in Ha.
  exact (read_stream crc bs rs c seekable Hw Ht Ha Hc).
Qed.

End RoundTrip.

(** ** Two small streams *)

Section Scenarios.
Variable crc : list byte -> Z.

Lemma emitted_writeAll rs w e :
  writeAll crc rs = Ok (w, e) -> emitted crc rs = w_w w.
Proof. unfold emitted. now intros ->. Qed.

(** C2, as the code has it. The records "hello", "" and "world",
    written and closed, put 31 bytes into the sink: three headers of 7
    bytes and 10 bytes of payload, the last block being handed over as
    short as it is. The stream reads back as the three records and
    then [EOF], and [LastRecordOffset], asked once the third record is
    started, answers 19. *)
Theorem small_roundtrip (c : Z) (seekable : bool) :
  1 <= c ->
  len (emitted crc helloWorld) = 31 /\
  (exists r,
     readRecords crc 3 c (NewReader (mkSource (emitted crc helloWorld) 0 seekable))
       = (r, (helloWorld, None)) /\
     snd (Next crc r) = (None, Some EOF)) /\
  match
    w <- writeRecords crc [bytes_of "hello"; bytes_of ""] (NewWriter (@nil byte)) ;;
    Write crc (bytes_of "world") w
  with
  | Ok (w, (n, e)) => n = 5 /\ e = None /\ LastRecordOffset w = (19, None)
  | _ => False
  end.
Proof.
  intros Hc. split; [vm_compute; reflexivity|]. split.
  - destruct (writeRecords_idle crc helloWorld _ [] (NewWriter_idle crc))
      as (w0 & E0 & HI).
    destruct (Close_idle crc w0 _ HI) as (w & bs & Ec & Es & Hw & Ht & Ha).
    assert (E : writeAll crc helloWorld = Ok (w, None))
      by (unfold writeAll; rewrite E0; exact Ec).
    rewrite (emitted_writeAll _ _ _ E), Es.
    exact (read_stream crc bs helloWorld c seekable Hw Ht Ha Hc).
  - vm_compute. splits; reflexivity.
Qed.

End Scenarios.

Section PartialRead.
Variable crc : list byte -> Z.

Lemma abcdefGhi_layout :
  emitted crc abcdefGhi
  = encBlocks crc [mkBlock [mkChunk fullChunkType (bytes_of "abcdef");
                           mkChunk fullChunkType (bytes_of "ghi")] 0].
Proof.
  with_strategy transparent [blockSize]
    (lazy -[byte.of_Z Z.shiftr crcValue Z.modulo]).
  reflexivity.
Qed.

(** C7. Over the stream of the records "abcdef" and "ghi": [Next]
    returns a source, a read of 2 bytes on it yields "ab"; [Next]
    again succeeds and its source reads "ghi" to the end, nothing of
    "cdef" showing up; and from then on, whatever further calls have
    done to the reader, a read on the first source returns
    [ErrStaleReader]. *)
Theorem partial_consumption (c c' : Z) (seekable : bool) :
  1 <= c ->
  exists r1 x1 r2 r3 x2 r4,
    Next crc (NewReader (mkSource (emitted crc abcdefGhi) 0 seekable))
      = (r1, (Some x1, None)) /\
    Read crc x1 2 r1 = (r2, (bytes_of "ab", None)) /\
    Next crc r2 = (r3, (Some x2, None)) /\
    ReadAll crc x2 c r3 = (r4, (bytes_of "ghi", None)) /\
    r_seq r3 <= r_seq r4 /\
    forall r', r_seq r3 <= r_seq r' ->
      Read crc x1 c' r' = (r', ([], Some ErrStaleReader)).
Proof.
  intros Hc. rewrite abcdefGhi_layout.
  set (c1 := mkChunk fullChunkType (bytes_of "abcdef")).
  set (c2 := mkChunk fullChunkType (bytes_of "ghi")).
  set (r0 := NewReader _).
  assert (HR0 : Reading crc 0 [] r0 [c1; c2]).
  { apply (NewReader_reading crc [mkBlock [c1; c2] 0] seekable).
    - cbn [wf_blocks b_chunks b_pad]. splits; auto; try lia.
      + apply Forall_cons; [|apply Forall_cons; [|apply Forall_nil]];
          unfold valid_chunk, c1, c2; cbn [c_type]; fmt_lia.
      + vm_compute. discriminate.
      + congruence.
    - cbn. splits; auto; [unfold headerSize; lia|discriminate]. }
  destruct (Next_found crc 0 [] r0 c1 [c2] HR0 eq_refl) as (r1 & E1 & HR1 & Hat1 & Hq1 & _).
  pose proof (Reading_err _ _ _ _ _ HR1) as He1.
  destruct (Read_in_chunk crc (mkSingleReader (r_seq r0 + 1)) 2 r1
              (c_data c1) (is_last c1) Hat1) as (E2 & _ & _);
    [discriminate|exact Hq1|exact He1|lia|].
  set (r2 := set_r_i _ r1) in E2.
  assert (HR2 : Reading crc 0 [] r2 [c2])
    by (eapply Reading_ext; try exact HR1; try reflexivity; auto).
  destruct (Next_found crc 0 [] r2 c2 [] HR2 eq_refl) as (r3 & E3 & HR3 & Hat3 & Hq3 & _).
  destruct (ReadAll_spec crc 0 [] (mkSingleReader (r_seq r2 + 1)) c r3
              (c_data c2) (is_last c2) [] [] Hc Hat3)
    as (r4 & E4 & _ & Hq4 & _);
    [split; [reflexivity|exact HR3]|exact Hq3|].
  exists r1, (mkSingleReader (r_seq r0 + 1)), r2, r3,
    (mkSingleReader (r_seq r2 + 1)), r4.
  splits; auto.
  - lia.
  - intros r' Hr'. apply Read_stale. cbn [x_seq].
    change (r_seq r2) with (r_seq r1) in Hq3. change (r_seq r0) with 0 in *. lia.
Qed.

End PartialRead.

(** * Errors that stay *)

Section ReaderErrors.
Variable crc : list byte -> Z.

(** Induction along the turns of the loop of [Read]. *)
Lemma readLoop_elim (P : Reader -> Reader * option error -> Prop) :
  (forall r res, readStep crc r = Return res -> P r res) ->
  (forall r r', readStep crc r = Continue r' ->
                P r' (readLoop crc r') -> P r (readLoop crc r')) ->
  forall r, P r (readLoop crc r).
Proof.
  intros Hret Hcont r.
  remember (r_measure r) as k eqn:Hk. revert r Hk.
  induction k as [k IH] using lt_wf_ind. intros r ->.
  rewrite readLoop_unfold.
  destruct (readStep crc r) as [r'|res] eqn:E.
  - apply Hcont; [assumption|].
    eapply IH; [|reflexivity]. eapply readStep_decreases; eassumption.
  - now apply Hret.
Qed.

(** X1. An error returned by [Next] comes without a source and is
    stored in the reader: [Next] and [SeekRecord] return it again,
    moving nothing but [seq], until [Recover] clears it. *)
Theorem Next_error_sticky r r' ox e offset :
  Next crc r = (r', (ox, Some e)) ->
  ox = None /\ r_err r' = Some e /\
  Next crc r' = (set_r_seq (r_seq r' + 1) r', (None, Some e)) /\
  SeekRecord crc offset r' = (set_r_seq (r_seq r' + 1) r', Some e) /\
  r_err (Recover r') = None.
Proof.
  intros H.
  assert (A : ox = None /\ r_err r' = Some e).
  { unfold Next in H. cbn [set_r_seq r_err] in H.
    destruct (r_err r) as [e0|] eqn:He.
    - injection H as <- <- <-. cbn [r_err]. auto.
    - destruct (nextChunk crc true _) as [r1 [e1|]];
        cbn [set_r_err r_err] in H; [|discriminate].
      injection H as <- <- <-. auto. }
  destruct A as [-> He']. splits; auto.
  - unfold Next. cbn [set_r_seq r_err]. now rewrite He'.
  - unfold SeekRecord. cbn [set_r_seq r_err]. now rewrite He'.
  - unfold Recover. now rewrite He'.
Qed.

Lemma readLoop_error r :
  r_err r = None ->
  forall r1 e1, readLoop crc r = (r1, Some e1) ->
    r_err r1 = Some e1 \/
    (e1 = EOF /\ r_err r1 = None /\ r_last r1 = true /\ r_i r1 = r_j r1).
Proof.
  apply (readLoop_elim
           (fun r res => r_err r = None -> forall r1 e1, res = (r1, Some e1) ->
              r_err r1 = Some e1 \/
              (e1 = EOF /\ r_err r1 = None /\ r_last r1 = true /\
               r_i r1 = r_j r1))); clear r.
  - intros r res E He r1 e1 ->. unfold readStep in E.
    destruct (r_i r =? r_j r) eqn:Eij; [|discriminate].
    apply Z.eqb_eq in Eij.
    destruct (r_last r) eqn:El.
    + injection E as <- <-. right. auto.
    + destruct (nextChunk crc false r) as [r2 [e2|]];
        cbn [set_r_err r_err] in E; [|discriminate].
      injection E as <- <-. left. reflexivity.
  - intros r r' E IH He. apply IH. unfold readStep in E.
    destruct (r_i r =? r_j r); [|discriminate].
    destruct (r_last r); [discriminate|].
    destruct (nextChunk crc false r) as [r2 [e2|]];
      cbn [set_r_err r_err] in E; [discriminate|].
    injection E as <-. reflexivity.
Qed.

(** X2. The errors of [Read] come with no bytes. A stale source leaves
    the reader as it is. The end of the record is [EOF] with nothing
    stored, so that [Next] can go on. Every other error is stored in
    the reader and is what the next [Next] returns. *)
Theorem Read_error_cases x c r r' d e :
  Read crc x c r = (r', (d, Some e)) ->
  d = [] /\
  ((r_seq r <> x_seq x /\ e = ErrStaleReader /\ r' = r) \/
   (r_seq r = x_seq x /\ r_err r' = Some e /\
    Next crc r' = (set_r_seq (r_seq r' + 1) r', (None, Some e))) \/
   (r_seq r = x_seq x /\ e = EOF /\ r_err r = None /\ r_err r' = None /\
    r_last r' = true /\ r_i r' = r_j r')).
Proof.
  intros H.
  assert (G : forall r0, r_err r0 = Some e ->
    Next crc r0 = (set_r_seq (r_seq r0 + 1) r0, (None, Some e))).
  { intros r0 He0. unfold Next. cbn [set_r_seq r_err]. now rewrite He0. }
  unfold Read in H.
  destruct (r_seq r =? x_seq x) eqn:Hq; cbn [negb] in H.
  2:{ apply Z.eqb_neq in Hq. injection H as <- <- <-. auto. }
  apply Z.eqb_eq in Hq.
  destruct (r_err r) as [e0|] eqn:He.
  { injection H as <- <- <-. split; [reflexivity|]. right; left. auto. }
  destruct (readLoop crc r) as [r1 [e1|]] eqn:E; [|discriminate].
  injection H as <- <- <-. split; [reflexivity|].
  destruct (readLoop_error r He r1 e1 E) as [H1|(-> & H1 & H2 & H3)].
  - right; left. auto.
  - right; right. splits; auto.
Qed.

(** X3. [SeekRecord] on a source that cannot seek returns
    [ErrNotAnIOSeeker] and stores nothing: but for [seq] the reader is
    as before. A negative offset is refused by the source, and that
    error is stored: the position in the block is kept and the calls
    of [Next] that follow return the error. *)
Theorem SeekRecord_failures offset r :
  r_err r = None ->
  (s_seekable (r_r r) = false ->
   SeekRecord crc offset r
   = (set_r_seq (r_seq r + 1) r, Some ErrNotAnIOSeeker)) /\
  (s_seekable (r_r r) = true -> offset < 0 ->
   SeekRecord crc offset r
   = (set_r_err (Some ErrNegativeSeek) (set_r_seq (r_seq r + 1) r),
      Some ErrNegativeSeek) /\
   snd (Next crc (fst (SeekRecord crc offset r)))
   = (None, Some ErrNegativeSeek)).
Proof.
  intros He. split.
  - intros Hs. unfold SeekRecord. cbn [set_r_seq r_err r_r].
    now rewrite He, Hs.
  - intros Hs Ho.
    assert (E : SeekRecord crc offset r
                = (set_r_err (Some ErrNegativeSeek)
                     (set_r_seq (r_seq r + 1) r), Some ErrNegativeSeek)).
    { unfold SeekRecord. cbn [set_r_seq r_err r_r]. rewrite He, Hs.
      cbn [negb]. unfold Seek.
      assert (L : Z.ldiff offset blockSizeMask < 0).
      { apply Z.ldiff_neg. split; [exact Ho|fmt_lia]. }
      apply Z.ltb_lt in L. rewrite L. reflexivity. }
    split; [exact E|]. rewrite E. reflexivity.
Qed.

End ReaderErrors.

Section WriterErrors.
Variable crc : list byte -> Z.
Context {Sink : Type} {sink_ops : IoWriter Sink}.

Lemma fillHeader_sink last (w w' : Writer Sink) :
  fillHeader crc last w = Ok w' ->
  w_w w' = w_w w /\ w_err w' = w_err w /\ w_pending w' = w_pending w.
Proof.
  unfold fillHeader.
  destruct ((w_i w + headerSize >? w_j w) || (w_j w >? blockSize));
    [discriminate|].
  intros H. injection H as <-. auto.
Qed.

Lemma apply_op_stuck o (w w' : Writer Sink) e :
  w_err w = Some e -> apply_op crc o w = Ok w' ->
  w_w w' = w_w w /\ w_err w' = Some e.
Proof.
  intros He. destruct o; cbn [apply_op].
  - unfold Write. rewrite He. cbn [bind]. intros H; injection H as <-. auto.
  - unfold Finish. destruct (w_pending w).
    + destruct (fillHeader crc true w) as [w1| |] eqn:E; cbn [bind];
        try discriminate.
      intros H; injection H as <-. apply fillHeader_sink in E.
      destruct E as (E1 & E2 & _). cbn. split; congruence.
    + cbn [bind]. intros H; injection H as <-. auto.
  - unfold Flush, writePending. rewrite He. cbn [bind]. rewrite He.
    cbn [bind]. intros H; injection H as <-. auto.
  - unfold Sync, Flush, writePending. rewrite He. cbn [bind]. rewrite He.
    cbn [bind]. intros H; injection H as <-. auto.
  - unfold Close, writePending. rewrite He. cbn [bind]. rewrite He.
    intros H; injection H as <-. auto.
  - intros H; injection H as <-. auto.
Qed.

Lemma run_ops_stuck ops : forall (w w' : Writer Sink) e,
  w_err w = Some e -> run_ops crc ops w = Ok w' ->
  w_w w' = w_w w /\ w_err w' = Some e.
Proof.
  induction ops as [|o ops IH]; intros w w' e He H; cbn [run_ops] in H.
  - injection H as <-. auto.
  - destruct (apply_op crc o w) as [w1| |] eqn:E; cbn [bind] in H;
      try discriminate.
    destruct (apply_op_stuck o w w1 e He E) as [E1 E2].
    destruct (IH w1 w' e E2 H) as [E3 E4]. split; congruence.
Qed.

(** X4. Once an error is stored in the writer, [Write], [Flush],
    [Sync], [Close] and [LastRecordOffset] return it and change
    nothing, [Write] with the count 0; and whatever operations follow,
    the sink is handed no byte any more and the error stays. *)
Theorem Writer_error_sticky (w : Writer Sink) e p :
  w_err w = Some e ->
  Write crc p w = Ok (w, (0, Some e)) /\
  Flush crc w = Ok (w, Some e) /\
  Sync crc w = Ok (w, Some e) /\
  Close crc w = Ok (w, Some e) /\
  LastRecordOffset w = (0, Some e) /\
  (forall w' e', Finish crc w = Ok (w', e') -> e' = Some e) /\
  forall ops w', run_ops crc ops w = Ok w' ->
    w_w w' = w_w w /\ w_err w' = Some e.
Proof.
  intros He. splits.
  - unfold Write. now rewrite He.
  - unfold Flush, writePending. rewrite He. cbn [bind]. now rewrite He.
  - unfold Sync, Flush, writePending. rewrite He. cbn [bind].
    now rewrite He.
  - unfold Close, writePending. rewrite He. cbn [bind]. now rewrite He.
  - unfold LastRecordOffset. now rewrite He.
  - intros w' e'. unfold Finish. destruct (w_pending w).
    + destruct (fillHeader crc true w) as [w1| |] eqn:E; cbn [bind];
        try discriminate.
      intros H; injection H as <- <-. apply fillHeader_sink in E.
      cbn. destruct E as (_ & E & _). congruence.
    + cbn [bind]. intros H; injection H as <- <-. exact He.
  - intros ops w'. now apply run_ops_stuck.
Qed.

(** X5. A [Close] that succeeds leaves the error of a closed writer
    stored. Whatever is called afterwards, the sink stays as [Close]
    left it, and [Write], a second [Close] and [LastRecordOffset]
    return that error. *)
Theorem Close_closes (w w1 : Writer Sink) :
  Close crc w = Ok (w1, None) ->
  w_err w1 = Some ErrClosedWriter /\
  forall ops w2, run_ops crc ops w1 = Ok w2 ->
    w_w w2 = w_w w1 /\
    (forall p, Write crc p w2 = Ok (w2, (0, Some ErrClosedWriter))) /\
    Close crc w2 = Ok (w2, Some ErrClosedWriter) /\
    LastRecordOffset w2 = (0, Some ErrClosedWriter).
Proof.
  intros H.
  assert (He : w_err w1 = Some ErrClosedWriter).
  { unfold Close in H. destruct (writePending crc w) as [w0| |];
      cbn [bind] in H; try discriminate.
    destruct (w_err w0); [discriminate|]. injection H as <-. reflexivity. }
  split; [exact He|]. intros ops w2 R.
  destruct (run_ops_stuck ops w1 w2 _ He R) as [E1 E2].
  split; [exact E1|]. splits.
  - intros p. unfold Write. now rewrite E2.
  - unfold Close, writePending. rewrite E2. cbn [bind]. now rewrite E2.
  - unfold LastRecordOffset. now rewrite E2.
Qed.

End WriterErrors.

(** * The indexes of the reader *)

Section ReaderSafety.
Variable crc : list byte -> Z.

Lemma Recover_loop r : RLoop r -> RLoop (Recover r).
Proof.
  intros (H1 & H2 & H3 & H4 & H5). unfold Recover, RLoop.
  destruct (r_err r) eqn:He; rsimpl.
  - rdone.
  - rewrite He. rdone.
Qed.

Lemma nextChunkStep_loop wantFirst r :
  RLoop r ->
  match nextChunkStep crc wantFirst r with
  | Continue r' => RLoop r'
  | Return (r', e) =>
      RLoop r' /\ e <> Some ErrZeroedBlock /\ (e = None -> r_j r' <= r_n r')
  end.
Proof.
  intros HL. pose proof HL as (H1 & H2 & H3 & H4 & H5).
  unfold nextChunkStep.
  destruct (r_j r + headerSize <=? r_n r) eqn:Hhdr.
  - apply Z.leb_le in Hhdr. unfold headerSize in Hhdr.
    set (lth := le_combine (slice (r_buf r) (r_j r + 4) (r_j r + 6))).
    assert (0 <= lth) by apply le_combine_bound.
    assert (HL1 : RLoop (set_r_j (r_j r + headerSize + lth)
                           (set_r_i (r_j r + headerSize) r))).
    { unfold RLoop, headerSize. rsimpl.
      rdone. }
    destruct (_ && _ && _).
    + destruct (wantFirst || r_recovering r).
      * rewrite Recover_zeroed. unfold RLoop.
        rsimpl. rdone.
      * rdone.
    + cbv zeta.
      destruct (r_j (set_r_j _ _) >? r_n (set_r_j _ _)) eqn:Hov.
      * destruct (r_recovering _); [now apply Recover_loop|].
        rdone.
      * destruct (negb _).
        -- destruct (r_recovering _); [now apply Recover_loop|].
           rdone.
        -- destruct (_ && _ && _); [exact HL1|].
           cbn [set_r_j set_r_i r_i r_j r_n r_buf r_err r_r r_seq r_started]
             in *.
           assert (r_j r + headerSize + lth <= r_n r)
             by (destruct (Z.gtb_spec (r_j r + headerSize + lth) (r_n r));
                 [discriminate|assumption]).
           unfold RLoop, headerSize in *.
           rsimpl. rdone.
  - destruct ((r_n r <? blockSize) && r_started r).
    + destruct (negb (r_j r =? r_n r)); rdone.
    + unfold ReadFull. cbv zeta.
      set (d := firstn (Z.to_nat blockSize) (s_remaining (r_r r))).
      assert (Hd : 0 <= len d <= blockSize).
      { unfold d, len. rewrite length_firstn. lia. }
      assert (Hs : len (splice (r_buf r) 0 d) = blockSize).
      { rewrite len_splice; lia. }
      destruct (len d =? 0).
      * cbn [error_eqb negb]. unfold RLoop.
        rsimpl. rdone.
      * destruct (len d <? blockSize); cbn [error_eqb negb];
          unfold RLoop; rsimpl; rdone.
Qed.

Lemma nextChunk_loop wantFirst r :
  RLoop r ->
  RLoop (fst (nextChunk crc wantFirst r)) /\
  snd (nextChunk crc wantFirst r) <> Some ErrZeroedBlock /\
  (snd (nextChunk crc wantFirst r) = None ->
   r_j (fst (nextChunk crc wantFirst r))
   <= r_n (fst (nextChunk crc wantFirst r))).
Proof.
  apply (nextChunk_elim crc wantFirst
           (fun r res => RLoop r ->
              RLoop (fst res) /\ snd res <> Some ErrZeroedBlock /\
              (snd res = None -> r_j (fst res) <= r_n (fst res)))).
  - intros r0 [r1 e] E HL.
    pose proof (nextChunkStep_loop wantFirst r0 HL) as H.
    now rewrite E in H.
  - intros r0 r1 E IH HL. apply IH.
    pose proof (nextChunkStep_loop wantFirst r0 HL) as H.
    now rewrite E in H.
Qed.

Lemma RSafe_stored r e :
  RLoop r -> e <> ErrZeroedBlock -> RSafe (set_r_err (Some e) r).
Proof.
  intros (H1 & H2 & H3 & H4 & H5) He. unfold RSafe, RLoop.
  rsimpl. rdone.
Qed.

Lemma Next_safe r : RSafe r -> RSafe (fst (Next crc r)).
Proof.
  intros [HL Hj]. pose proof HL as (H1 & H2 & H3 & H4 & H5).
  unfold Next. cbn [set_r_seq r_err].
  destruct (r_err r) as [e|] eqn:He.
  - cbn [fst]. unfold RSafe, RLoop.
    rsimpl. rewrite He. rdone.
  - set (r0 := set_r_i _ _).
    assert (HL0 : RLoop r0).
    { unfold RLoop, r0. rsimpl.
      rewrite He. rdone. }
    destruct (nextChunk_loop true r0 HL0) as (G1 & G2 & G3).
    destruct (nextChunk crc true r0) as [r1 [e1|]]; cbn [fst snd] in *;
      cbn [set_r_err r_err].
    + apply RSafe_stored; [exact G1|congruence].
    + destruct G1 as (K1 & K2 & K3 & K4 & K5). specialize (G3 eq_refl).
      unfold RSafe, RLoop.
      rsimpl.
      rdone.
Qed.

Lemma Recover_safe r : RSafe r -> RSafe (Recover r).
Proof.
  intros [HL Hj]. split; [now apply Recover_loop|].
  destruct HL as (H1 & H2 & H3 & H4 & H5).
  unfold Recover. destruct (r_err r) eqn:He; cbn [r_j r_err]; [lia|].
  now rewrite He.
Qed.

Lemma SeekRecord_safe offset r : RSafe r -> RSafe (fst (SeekRecord crc offset r)).
Proof.
  intros [HL Hj]. pose proof HL as (H1 & H2 & H3 & H4 & H5).
  assert (Hseq : RSafe (set_r_seq (r_seq r + 1) r)).
  { unfold RSafe, RLoop. rsimpl. auto. }
  unfold SeekRecord. cbn [set_r_seq r_err r_r].
  destruct (r_err r) as [e|] eqn:He.
  { cbn [fst]. unfold RSafe, RLoop. rsimpl.
    rewrite He. rdone. }
  destruct (negb (s_seekable (r_r r))).
  { cbn [fst]. unfold RSafe, RLoop. rsimpl.
    rewrite He. rdone. }
  unfold Seek. destruct (Z.ldiff offset blockSizeMask <? 0);
    cbn [r_err r_r r_seq r_buf].
  { cbn [fst]. unfold RSafe, RLoop. rsimpl.
    rdone. }
  set (r0 := mkReader _ _ 0 0 0 false false false None _).
  assert (HL0 : RLoop r0).
  { unfold RLoop, r0. rsimpl.
    rdone. }
  destruct (nextChunk_loop false r0 HL0) as (G1 & G2 & G3).
  destruct (nextChunk crc false r0) as [r1 [e1|]]; cbn [fst snd] in *;
    cbn [set_r_err r_err].
  - apply RSafe_stored; [exact G1|congruence].
  - destruct G1 as (K1 & K2 & K3 & K4 & K5).
    assert (Hc : 0 <= Z.land offset blockSizeMask < blockSize).
    { change blockSizeMask with (Z.ones 15).
      rewrite Z.land_ones by lia. rewrite blockSize_eq.
      change (2 ^ 15) with 32768. apply Z.mod_pos_bound. lia. }
    unfold RSafe, RLoop.
    rsimpl.
    rdone.
Qed.

(** What [Read] returns, given the indexes are in order: with no error
    at least one byte, if asked for one, and never more than asked
    for; with an error no byte. *)
Lemma Read_safe x c r :
  RSafe r -> 0 <= c ->
  RSafe (fst (Read crc x c r)) /\
  (snd (snd (Read crc x c r)) = None ->
   len (fst (snd (Read crc x c r))) <= c /\
   (1 <= c -> 1 <= len (fst (snd (Read crc x c r))))) /\
  (snd (snd (Read crc x c r)) <> None -> fst (snd (Read crc x c r)) = []).
Proof.
  intros HS Hc. unfold Read.
  destruct (negb (r_seq r =? x_seq x)).
  { cbn [fst snd]. rdone. }
  destruct (r_err r) as [e|] eqn:He.
  { cbn [fst snd]. rdone. }
  assert (G : RSafe (fst (readLoop crc r)) /\
              (snd (readLoop crc r) = None ->
               r_i (fst (readLoop crc r)) < r_j (fst (readLoop crc r))
               /\ r_err (fst (readLoop crc r)) = None)).
  { revert HS He.
    apply (readLoop_elim crc
             (fun r res => RSafe r -> r_err r = None ->
                RSafe (fst res) /\
                (snd res = None ->
                 r_i (fst res) < r_j (fst res)
                 /\ r_err (fst res) = None))); clear r.
    - intros r res E [HL Hj] He. unfold readStep in E.
      destruct (r_i r =? r_j r) eqn:Eij.
      + destruct (r_last r).
        * injection E as <-. cbn [fst snd].
          split; [split; assumption|discriminate].
        * destruct (nextChunk_loop false r HL) as (G1 & G2 & G3).
          destruct (nextChunk crc false r) as [r2 [e2|]];
            cbn [set_r_err r_err fst snd] in *; [|discriminate].
          injection E as <-. cbn [fst snd].
          split; [|discriminate].
          apply RSafe_stored; [exact G1|congruence].
      + injection E as <-. cbn [fst snd]. apply Z.eqb_neq in Eij.
        destruct HL as (H1 & H2 & H3 & H4 & H5).
        split; [unfold RSafe, RLoop; rdone|].
        intros _. split; [lia|exact He].
    - intros r r' E IH [HL Hj] He. unfold readStep in E.
      destruct (r_i r =? r_j r); [|discriminate].
      destruct (r_last r); [discriminate|].
      destruct (nextChunk_loop false r HL) as (G1 & G2 & G3).
      destruct (nextChunk crc false r) as [r2 [e2|]];
        cbn [set_r_err r_err fst snd] in *; [discriminate|].
      injection E as <-. specialize (G3 eq_refl).
      destruct G1 as (K1 & K2 & K3 & K4 & K5).
      apply IH; [|reflexivity].
      unfold RSafe, RLoop. rsimpl.
      rdone. }
  destruct (readLoop crc r) as [r1 [e1|]]; cbn [fst snd] in *.
  { destruct G as [G1 G2]. splits; try discriminate; auto. }
  destruct G as [[(K1 & K2 & K3 & K4 & K5) K6] G2].
  destruct (G2 eq_refl) as [G3 G4]. specialize (K6 G4).
  set (src := slice (r_buf r1) (r_i r1) (r_j r1)).
  assert (Ls : len src = r_j r1 - r_i r1).
  { unfold src, slice. rewrite len_firstn; [lia|].
    rewrite len_skipn; lia. }
  assert (Hn : 0 <= Z.min c (len src) <= len src) by lia.
  splits.
  - unfold RSafe, RLoop. rsimpl.
    rdone.
  - intros _. rewrite len_firstn by lia. split; lia.
  - congruence.
Qed.

Lemma apply_rop_safe o r : RSafe r -> RSafe (apply_rop crc r o).
Proof.
  intros HS. destruct o; cbn [apply_rop].
  - now apply Next_safe.
  - apply Read_safe; [exact HS|lia].
  - now apply Recover_safe.
  - now apply SeekRecord_safe.
Qed.

(** X6. Whatever bytes the source holds and whatever calls are made on
    a fresh reader, its indexes stay in order and within the buffer:
    [0 <= i <= j], [0 <= n <= blockSize], and [j <= blockSize] when no
    error is stored, the buffer keeping its [blockSize] bytes. The
    error of a zeroed block is never left stored. *)
Theorem reader_indexes_safe (src : Source) (ops : list rop) :
  let r := run_rops crc ops (NewReader src) in
  0 <= r_i r /\ r_i r <= r_j r /\ 0 <= r_n r <= blockSize /\
  len (r_buf r) = blockSize /\
  (r_err r = None -> r_j r <= blockSize) /\
  r_err r <> Some ErrZeroedBlock.
Proof.
  assert (G : forall ops r, RSafe r -> RSafe (run_rops crc ops r)).
  { clear ops. induction ops as [|o ops IH]; intros r HS; [exact HS|].
    cbn [run_rops fold_left]. apply IH. now apply apply_rop_safe. }
  assert (H0 : RSafe (NewReader src)).
  { unfold RSafe, RLoop, NewReader. rsimpl.
    rewrite len_zeros. rdone. }
  destruct (G ops _ H0) as [(H1 & H2 & H3 & H4 & H5) H6].
  cbv zeta. rdone.
Qed.

(** X7. On a reader whose indexes are in order, a [Read] into [c >= 1]
    bytes that returns no error returns at least one byte and at most
    [c], and one that returns an error returns none. *)
Theorem Read_count x c r r' d e :
  RSafe r -> 1 <= c ->
  Read crc x c r = (r', (d, e)) ->
  RSafe r' /\
  (e = None -> 1 <= len d <= c) /\
  (e <> None -> d = []).
Proof.
  intros HS Hc E.
  destruct (Read_safe x c r HS) as (G1 & G2 & G3); [lia|].
  rewrite E in *. cbn [fst snd] in *. rdone.
  intros He. destruct (G2 He) as [A B]. split; [now apply B|exact A].
Qed.

End ReaderSafety.

(** * What [Flush] leaves in the sink *)

Section Flushing.
Variable crc : list byte -> Z.

Lemma Finish_idle w rs :
  WIdle crc w rs -> Finish crc w = Ok (w, None).
Proof.
  intros HI. pose proof (WIdle_err crc w rs HI) as He.
  destruct HI as (done & cs & _ & Hp & _).
  unfold Finish. rewrite Hp. cbn [bind]. now rewrite He.
Qed.

Lemma writePending_Finish (w w' : Writer (list byte)) e :
  w_err w = None -> Finish crc w = Ok (w', e) ->
  writePending crc w = writePending crc w'.
Proof.
  unfold Finish, writePending. intros He. rewrite He.
  destruct (w_pending w) eqn:Ep.
  - destruct (fillHeader crc true w) as [w0| |] eqn:Ef; cbn [bind];
      try discriminate.
    intros H. injection H as <- <-.
    apply fillHeader_err in Ef. wsimpl. rewrite Ef, He. reflexivity.
  - cbn [bind]. intros H. injection H as <- <-. rewrite He, Ep.
    cbn [bind]. now rewrite Ep.
Qed.

(** [Flush] between records hands the sink what [Close] would. *)
Lemma Flush_idle w rs :
  WIdle crc w rs ->
  exists w' bs,
    Flush crc w = Ok (w', None) /\ w_w w' = encBlocks crc bs /\
    wf_blocks crc bs /\ tight 0 bs /\
    assemble None (chunks_of bs) = Some rs /\
    w_err w' = None /\ w_pending w' = false.
Proof.
  intros (done & cs & HI & Hp & HL & Hne).
  destruct HI as (Sf & He & Hw & Hs & Hd & Hv & Hh & Hj). rewrite Hp in Hj.
  pose proof Sf as (Hi0 & Hij & HjB & _ & Hl).
  destruct (layout_good crc done cs Hd Hv) as (G1 & G2 & G3 & G4); auto; [lia|].
  unfold Flush, writePending. rewrite He, Hp.
  cbn [bind io_write io_flush memSink]. wsimpl. cbn [w_err].
  eexists _, (layout done cs). split; [reflexivity|]. wsimpl.
  splits; auto.
  - rewrite G4, Hs, Hw. f_equal. apply holds_slice; [exact Hh|lia].
  - rewrite G3. specialize (HL [] [] eq_refl). now rewrite !app_nil_r in HL.
Qed.

(** X8. [Flush] finishes the record under way and hands the sink all
    that was written: after the records [rs], and after [Write p] for
    one more record if [open] is [Some p], the bytes in the sink read
    back as those records and then [EOF]; no error is stored and no
    chunk is pending. *)
Theorem Flush_reads_back (rs : list (list byte)) (open : option (list byte))
    (c : Z) (seekable : bool) :
  1 <= c ->
  exists w,
    (w1 <- writeRecords crc rs (NewWriter (@nil byte)) ;;
     w2 <- match open with
           | Some p => '(w2, _) <- Write crc p w1 ;; Ok w2
           | None => Ok w1
           end ;;
     Flush crc w2) = Ok (w, None) /\
    w_err w = None /\ w_pending w = false /\
    let recs := rs ++ match open with Some p => [p] | None => [] end in
    exists r,
      readRecords crc (length recs) c (NewReader (mkSource (w_w w) 0 seekable))
        = (r, (recs, None)) /\
      snd (Next crc r) = (None, Some EOF).
Proof.
  intros Hc.
  destruct (writeRecords_idle crc rs _ [] (NewWriter_idle crc))
    as (w1 & E1 & HI1).
  rewrite E1. cbn [bind app] in *.
  assert (A : exists w2 w3,
             match open with
             | Some p => '(w2, _) <- Write crc p w1 ;; Ok w2
             | None => Ok w1
             end = Ok w2 /\
             Flush crc w2 = Flush crc w3 /\
             WIdle crc w3
               (rs ++ match open with Some p => [p] | None => [] end)).
  { destruct open as [p|].
    - destruct (Write_idle crc p w1 rs HI1) as (w2 & E2 & HO).
      destruct (Finish_open crc w2 rs p HO) as (w3 & E3 & HI3).
      exists w2, w3. rewrite E2. cbn [bind]. splits; auto.
      pose proof (WOpen_err crc w2 rs p HO) as He.
      unfold Flush. now rewrite (writePending_Finish w2 w3 None He E3).
    - exists w1, w1. rewrite app_nil_r. splits; auto. }
  destruct A as (w2 & w3 & -> & EF & HI3). cbn [bind]. rewrite EF.
  destruct (Flush_idle w3 _ HI3) as (w & bs & E & Es & Hw & Ht & Ha & He & Hp).
  exists w. splits; auto. cbv zeta. rewrite Es.
  exact (read_stream crc bs _ c seekable Hw Ht Ha Hc).
Qed.

End Flushing.

(** * Seeking a record *)

Section Seeking.
Variable crc : list byte -> Z.

Lemma RInv_shift r r' pre post pad later :
  RInv crc r (pre ++ post) pad later ->
  r_buf r' = r_buf r -> r_n r' = r_n r -> r_r r' = r_r r ->
  r_started r' = r_started r ->
  r_j r' = r_j r + len (encChunks crc pre) ->
  RInv crc r' post pad later.
Proof.
  intros (Hl & Hh & Hn & HnB & Hp & Hv & Hs & Hw & Hst) Eb En Er Est Ej.
  rewrite encChunks_app, <- app_assoc in Hh.
  rewrite encChunks_app, len_app in Hn.
  apply Forall_app in Hv. destruct Hv as [_ Hv].
  unfold RInv. rewrite Eb, En, Er, Est, Ej. splits; auto.
  - exact (holds_app_r _ _ _ _ Hh).
  - lia.
Qed.

Lemma wf_blocks_app pre bs :
  wf_blocks crc (pre ++ bs) -> bs <> [] ->
  len (encBlocks crc pre) = blockSize * len pre /\ wf_blocks crc bs.
Proof.
  intros Hw Hne. induction pre as [|b pre IH].
  - split; [cbn; lia|exact Hw].
  - cbn [app wf_blocks] in Hw. destruct Hw as (_ & _ & _ & Hf & Hw).
    destruct (IH Hw) as [L Hw']. split; [|exact Hw'].
    rewrite encBlocks_cons, len_app, L, Hf, len_cons; [lia|].
    destruct pre; [exact Hne|discriminate].
Qed.

Lemma block_offset k c :
  0 <= k -> 0 <= c < blockSize ->
  Z.land (blockSize * k + c) blockSizeMask = c /\
  Z.ldiff (blockSize * k + c) blockSizeMask = blockSize * k.
Proof.
  intros Hk Hc. change blockSizeMask with (Z.ones 15).
  rewrite Z.land_ones, Z.ldiff_ones_r by lia.
  rewrite Z.shiftr_div_pow2, Z.shiftl_mul_pow2 by lia.
  rewrite blockSize_eq in *. change (2 ^ 15) with 32768.
  replace (32768 * k + c) with (c + k * 32768) by lia.
  rewrite Z_mod_plus_full, Z_div_plus_full by lia.
  rewrite Z.mod_small, Z.div_small by lia. lia.
Qed.

Lemma skipn_len_app {A} (x y : list A) k :
  k = len x -> skipn (Z.to_nat k) (x ++ y) = y.
Proof.
  intros ->. unfold len. rewrite Nat2Z.id, skipn_app, skipn_all, Nat.sub_diag.
  reflexivity.
Qed.

(** [SeekRecord] at the offset of a chunk: the block of the chunk is
    fetched and the reader stands in front of the chunk. *)
Lemma SeekRecord_lands r pre b post cs1 ch cs2 :
  wf_blocks crc (pre ++ b :: post) ->
  b_chunks b = cs1 ++ ch :: cs2 ->
  r_err r = None -> s_seekable (r_r r) = true ->
  s_data (r_r r) = encBlocks crc (pre ++ b :: post) ->
  len (r_buf r) = blockSize ->
  exists r',
    SeekRecord crc (len (encBlocks crc pre) + len (encChunks crc cs1)) r
      = (r', None) /\
    RInv crc r' (ch :: cs2) (b_pad b) post /\ r_err r' = None /\
    r_seq r' = r_seq r + 1.
Proof.
  intros Hw Eb He Hs Hd Hl.
  destruct (wf_blocks_app pre (b :: post) Hw) as [Lp Hwb]; [discriminate|].
  pose proof Hwb as (Hvb & Hpb & Hlb & Hfb & Hwp).
  assert (Hc : 0 <= len (encChunks crc cs1) < blockSize).
  { unfold encBlock in Hlb. rewrite Eb, encChunks_app, !len_app in Hlb.
    rewrite len_encChunks_cons in Hlb.
    pose proof (len_nonneg (encChunks crc cs1)).
    pose proof (len_nonneg (encChunks crc cs2)).
    pose proof (len_nonneg (c_data ch)).
    pose proof (len_nonneg (zeros (b_pad b))). fmt_lia. }
  destruct (block_offset (len pre) _ (len_nonneg pre) Hc) as [E1 E2].
  unfold SeekRecord. cbn [set_r_seq r_err r_r]. rewrite He, Hs. cbn [negb].
  rewrite Lp, E1, E2. unfold Seek.
  destruct (Z.ltb_spec (blockSize * len pre) 0) as [Hneg|_];
    [pose proof (len_nonneg pre); fmt_lia|].
  rsimpl.
  set (r0 := mkReader _ _ 0 0 0 false false false None _).
  assert (HI0 : RInv crc r0 [] 0 (b :: post)).
  { unfold RInv, r0. cbn [r_buf r_j r_n r_r r_started]. splits; auto;
      try fmt_lia.
    - change (encChunks crc [] ++ zeros 0) with (@nil byte).
      apply holds_nil. fmt_lia.
    - unfold s_remaining. cbn [s_pos s_data]. rewrite Hd, encBlocks_app.
      apply skipn_len_app. now rewrite Lp. }
  destruct (RInv_cross crc false r0 0 b post HI0) as [X1 HI1];
    [unfold headerSize; lia| |].
  { apply encBlock_not_nil. rewrite Eb. now destruct cs1. }
  assert (X : exists c0 t, b_chunks b = c0 :: t).
  { rewrite Eb. destruct cs1 as [|c0 t]; eexists _, _; reflexivity. }
  destruct X as (c0 & t & Ec0).
  pose proof HI1 as HI1'. rewrite Ec0 in HI1'.
  destruct (RInv_parse crc false _ _ _ _ _ HI1') as (X2 & _).
  cbn [andb] in X2.
  rewrite nextChunk_unfold, X1, nextChunk_unfold, X2.
  cbn [set_r_err r_err accepted].
  eexists. split; [reflexivity|]. splits; try reflexivity.
  rewrite Eb in HI1.
  eapply RInv_shift; try exact HI1; reflexivity.
Qed.

(** X9. [SeekRecord] at the offset of the first chunk of a record, in
    a stream laid out in blocks, succeeds whatever the reader has done
    before, provided no error is stored; the calls of [Next] that
    follow return the records from there to the end of the stream, and
    then [EOF]. *)
Theorem SeekRecord_reads r pre b post cs1 ch cs2 rs c :
  1 <= c ->
  wf_blocks crc (pre ++ b :: post) -> tight (b_pad b) post ->
  b_chunks b = cs1 ++ ch :: cs2 ->
  assemble None (ch :: cs2 ++ chunks_of post) = Some rs ->
  r_err r = None -> s_seekable (r_r r) = true ->
  s_data (r_r r) = encBlocks crc (pre ++ b :: post) ->
  len (r_buf r) = blockSize ->
  exists r1 r2,
    SeekRecord crc (len (encBlocks crc pre) + len (encChunks crc cs1)) r
      = (r1, None) /\
    readRecords crc (length rs) c r1 = (r2, (rs, None)) /\
    snd (Next crc r2) = (None, Some EOF).
Proof.
  intros Hc Hw Ht Eb Ha He Hs Hd Hl.
  destruct (SeekRecord_lands r pre b post cs1 ch cs2 Hw Eb He Hs Hd Hl)
    as (r1 & E1 & HI1 & He1 & _).
  assert (HR : Reading crc 0 [] r1 (ch :: cs2 ++ chunks_of post)).
  { exists (ch :: cs2), (b_pad b), post. splits; auto.
    apply (tight_leads post (ch :: cs2) (b_pad b) Ht). }
  destruct (readRecords_spec crc 0 [] c Hc rs _ r1 HR Ha) as (r2 & E2 & HR2).
  exists r1, r2. splits; auto.
  apply Reading_end in HR2. destruct HR2 as [HI2 He2].
  now rewrite (Next_eof crc r2 HI2 He2).
Qed.

End Seeking.

(** * Resuming after an error *)

Section Resuming.
Variable crc : list byte -> Z.
Variables (epad : Z) (elater : list block).

(** Seeking a record start, [nextChunk] passes over the chunks that
    continue a record and stops at the first chunk that starts one. *)
Lemma nextChunk_seek : forall skip r todo pad later c cs,
  RInv crc r todo pad later ->
  leads todo pad later (skip ++ c :: cs) epad elater ->
  Forall (fun k => is_first k = false) skip -> is_first c = true ->
  exists r' todo' pad' later',
    nextChunk crc true r = (r', None) /\
    RInv crc r' todo' pad' later' /\
    leads todo' pad' later' cs epad elater /\
    at_chunk r' (c_data c) (is_last c) /\
    r_seq r' = r_seq r /\ r_err r' = r_err r /\ r_started r' = r_started r.
Proof.
  induction skip as [|k skip IH]; intros r todo pad later c cs HI Hl Hs Hf.
  - destruct (nextChunk_found crc true r todo pad later c cs epad elater
                HI Hl (fun _ => Hf))
      as (r' & todo' & pad' & later' & E & HI' & Hl' & Hat & _ & Hq & He & Hst).
    exists r', todo', pad', later'. splits; auto.
  - inversion Hs as [|? ? Hk Hs']; subst. cbn [app] in Hl.
    assert (Hcond : true && negb (is_first k) = true) by now rewrite Hk.
    destruct todo as [|c0 todo].
    + apply leads_next in Hl.
      destruct Hl as (b & later' & t1 & -> & Hpad & Eb & Hl).
      destruct (RInv_cross crc true r pad b later' HI Hpad) as [E1 HI1].
      { apply encBlock_not_nil. rewrite Eb. discriminate. }
      rewrite Eb in HI1.
      destruct (RInv_parse crc true _ _ _ _ _ HI1) as (E2 & _ & HI2 & _).
      rewrite Hcond in E2.
      destruct (IH _ _ _ _ c cs HI2 Hl Hs' Hf)
        as (r' & todo' & pad' & later'' & E & HI' & Hl' & Hat & Hq & He & Hst).
      exists r', todo', pad', later''. splits; auto.
      rewrite nextChunk_unfold, E1, nextChunk_unfold, E2. exact E.
    + apply leads_cons in Hl. destruct Hl as [E0 Hl]. subst c0.
      destruct (RInv_parse crc true _ _ _ _ _ HI) as (E2 & _ & HI2 & _).
      rewrite Hcond in E2.
      destruct (IH _ _ _ _ c cs HI2 Hl Hs' Hf)
        as (r' & todo' & pad' & later'' & E & HI' & Hl' & Hat & Hq & He & Hst).
      exists r', todo', pad', later''. splits; auto.
      rewrite nextChunk_unfold, E2. exact E.
Qed.

Lemma Next_seek r skip c cs todo pad later :
  RInv crc r todo pad later -> r_err r = None ->
  leads todo pad later (skip ++ c :: cs) epad elater ->
  Forall (fun k => is_first k = false) skip -> is_first c = true ->
  exists r' x,
    Next crc r = (r', (Some x, None)) /\ r_seq r' = x_seq x /\
    Reading crc epad elater r' cs /\ at_chunk r' (c_data c) (is_last c).
Proof.
  intros HI He Hl Hs Hf.
  set (r0 := set_r_i (r_j r) (set_r_seq (r_seq r + 1) r)).
  assert (HI0 : RInv crc r0 todo pad later).
  { eapply RInv_ext; try exact HI; try reflexivity; auto. }
  destruct (nextChunk_seek skip r0 todo pad later c cs HI0 Hl Hs Hf)
    as (r1 & todo' & pad' & later' & E & HI1 & Hl1 & Hat & Hq & He1 & Hst).
  exists (set_r_started true (set_r_err None r1)), (mkSingleReader (r_seq r1)).
  split.
  - unfold Next. cbn [set_r_seq r_err]. rewrite He.
    change (set_r_i (r_j (set_r_seq (r_seq r + 1) r)) (set_r_seq (r_seq r + 1) r))
      with r0.
    rewrite E. cbn [set_r_err r_err set_r_started r_seq]. reflexivity.
  - destruct Hat as (Hi & Hj & Hn & Hsl & Hlast).
    pose proof (len_nonneg (c_data c)).
    splits.
    + reflexivity.
    + exists todo', pad', later'. splits; auto.
      eapply RInv_ext; try exact HI1; try reflexivity.
      right. unfold headerSize in *. lia.
    + unfold at_chunk. cbn. splits; auto.
Qed.

End Resuming.

Section Recovery.
Variable crc : list byte -> Z.

(** X10. After an error met in a full block, whatever the block holds,
    [Recover] makes the reader resume in the blocks that follow: the
    chunks at their head that continue a record begun earlier are
    passed over, and [Next] returns the records from the first one
    that starts there to the end of the stream, then [EOF]. *)
Theorem Recover_resumes r e later skip ch cs rs c :
  1 <= c ->
  r_err r = Some e -> r_n r = blockSize -> len (r_buf r) = blockSize ->
  s_remaining (r_r r) = encBlocks crc later ->
  wf_blocks crc later -> tight 0 later ->
  chunks_of later = skip ++ ch :: cs ->
  Forall (fun k => is_first k = false) skip ->
  assemble None (ch :: cs) = Some rs ->
  exists r',
    readRecords crc (length rs) c (Recover r) = (r', (rs, None)) /\
    snd (Next crc r') = (None, Some EOF).
Proof.
  intros Hc He Hn Hl Hs Hw Ht Ecs Hskip Ha.
  assert (E : Recover r
              = mkReader (r_r r) (r_seq r + 1) (r_n r) (r_n r) (r_n r)
                  (r_started r) true false None (r_buf r))
    by (unfold Recover; now rewrite He).
  assert (HI : RInv crc (Recover r) [] 0 later).
  { rewrite E. unfold RInv. cbn [r_buf r_j r_n r_r r_started].
    change (len (encChunks crc [])) with 0.
    splits; auto; try fmt_lia.
    change (encChunks crc [] ++ zeros 0) with (@nil byte).
    apply holds_nil. fmt_lia. }
  assert (He' : r_err (Recover r) = None) by now rewrite E.
  destruct (assemble_head _ _ _ Ha) as (Hf & _).
  assert (Hleads : leads [] 0 later (skip ++ ch :: cs) 0 []).
  { rewrite <- Ecs. apply (tight_leads later [] 0 Ht). }
  destruct (Next_seek crc 0 [] (Recover r) skip ch cs [] 0 later
              HI He' Hleads Hskip Hf)
    as (r1 & x & EN & Hq & HR1 & Hat).
  destruct (readRecords_from crc 0 [] c rs cs ch (Recover r) r1 x
              Hc EN Hq Hat HR1 Ha)
    as (r2 & E2 & HR2).
  exists r2. split; [exact E2|].
  apply Reading_end in HR2. destruct HR2 as [HI2 He2].
  now rewrite (Next_eof crc r2 HI2 He2).
Qed.

End Recovery.

(** * The committed stream *)

Lemma slice_len (l : list byte) a b :
  0 <= a -> a <= b -> b <= len l -> len (slice l a b) = b - a.
Proof. intros. now destruct (holds_of_slice l a b). Qed.

Lemma slice_empty (l : list byte) a : slice l a a = [].
Proof. unfold slice. now rewrite Z.sub_diag. Qed.

Lemma slice_split (l : list byte) a b c :
  0 <= a -> a <= b -> b <= c -> c <= len l ->
  slice l a c = slice l a b ++ slice l b c.
Proof.
  intros Ha Hab Hbc Hc.
  destruct (holds_of_slice l a b) as [H1 L1]; try lia.
  destruct (holds_of_slice l b c) as [H2 L2]; try lia.
  apply holds_slice.
  - apply holds_app; [exact H1|]. now rewrite L1, Zplus_minus.
  - rewrite len_app, L1, L2. lia.
Qed.

(** Two buffers that hold the same bytes at the same place. *)
Lemma slice_frame (l l' : list byte) a b :
  0 <= a -> a <= b -> b <= len l ->
  (forall x, holds l a x -> a + len x <= b -> holds l' a x) ->
  slice l' a b = slice l a b.
Proof.
  intros Ha Hab Hb F.
  destruct (holds_of_slice l a b) as [H L]; try lia.
  apply holds_slice; [apply F; [exact H|lia]|lia].
Qed.

Lemma slice_splice_before (l : list byte) k x a b :
  0 <= a -> a <= b -> b <= k -> k + len x <= len l ->
  slice (splice l k x) a b = slice l a b.
Proof.
  intros Ha Hab Hb Hk. pose proof (len_nonneg x) as Hx.
  apply slice_frame; try lia.
  intros y H Hy. apply holds_splice_before; [exact H|lia|lia].
Qed.

Lemma slice_splice_at (l : list byte) k x :
  0 <= k -> k + len x <= len l -> slice (splice l k x) k (k + len x) = x.
Proof.
  intros Hk Hx. apply holds_slice; [|reflexivity].
  now apply holds_splice.
Qed.

Lemma wrap64_shift x q : wrap64 (x + q * 2 ^ 64) = wrap64 x.
Proof.
  unfold wrap64. replace (x + q * 2 ^ 64 + 2 ^ 63)
    with (x + 2 ^ 63 + q * 2 ^ 64) by lia.
  now rewrite Z_mod_plus_full.
Qed.

Lemma wrap64_eqm x : exists q, wrap64 x = x + q * 2 ^ 64.
Proof.
  exists (- ((x + 2 ^ 63) / 2 ^ 64)). unfold wrap64.
  rewrite Z.mod_eq by lia. lia.
Qed.

Lemma wrap64_succ N : wrap64 (wrap64 N + 1) = wrap64 (N + 1).
Proof.
  destruct (wrap64_eqm N) as [q ->].
  replace (N + q * 2 ^ 64 + 1) with (N + 1 + q * 2 ^ 64) by lia.
  apply wrap64_shift.
Qed.

Lemma wrap64_offset N i :
  wrap64 (0 + wrap64 N * blockSize + i) = wrap64 (N * blockSize + i).
Proof.
  destruct (wrap64_eqm N) as [q ->].
  replace (0 + (N + q * 2 ^ 64) * blockSize + i)
    with (N * blockSize + i + (q * blockSize) * 2 ^ 64) by lia.
  apply wrap64_shift.
Qed.

Lemma wrap64_small x : 0 <= x < 2 ^ 63 -> wrap64 x = x.
Proof. intros H. unfold wrap64. rewrite Z.mod_small; lia. Qed.

Lemma resink_eta (w : Writer (list byte)) :
  resink w (w_w w) (w_written w) = w.
Proof. now destruct w. Qed.

Lemma committed_resink c s k :
  committed (resink c s k) = s ++ slice (w_buf c) k (lim c).
Proof. reflexivity. Qed.

Lemma Grows_refl c s k : Kok c k -> Grows c c [] s k s k.
Proof.
  intros H. split; [exact H|]. split; [now rewrite app_nil_r|].
  split; [reflexivity|]. intros N H0 Hb Hl. exists N. auto.
Qed.

Lemma Grows_trans c c1 c2 d1 d2 s k s1 k1 s2 k2 :
  Grows c c1 d1 s k s1 k1 -> Grows c1 c2 d2 s1 k1 s2 k2 ->
  Grows c c2 (d1 ++ d2) s k s2 k2.
Proof.
  intros (K1 & E1 & B1 & C1) (K2 & E2 & B2 & C2). split; [exact K2|]. split.
  - now rewrite E2, E1, app_assoc.
  - split; [congruence|].
    intros N H0 Hb Hl. destruct (C1 N H0 Hb Hl) as (N1 & G1 & G2 & G3).
    exact (C2 N1 G1 G2 G3).
Qed.

Section Committed.
Variable crc : list byte -> Z.

Lemma fillHeader_resink last c s k :
  fillHeader crc last (resink c s k)
  = match fillHeader crc last c with
    | Ok c1 => Ok (resink c1 s k)
    | Panic => Panic
    | Diverged => Diverged
    end.
Proof.
  unfold fillHeader, resink. wsimpl.
  destruct ((w_i c + headerSize >? w_j c) || (w_j c >? blockSize));
    reflexivity.
Qed.

(** The pending chunk is sealed: it joins the committed stream. *)
Lemma seal_core c :
  WCore c ->
  exists c' d,
    WCore c' /\ w_pending c' = false /\ w_err c' = w_err c /\
    w_blockNumber c' = w_blockNumber c /\
    w_baseOffset c' = w_baseOffset c /\
    (forall s k,
       (if w_pending (resink c s k)
        then w <- fillHeader crc true (resink c s k) ;;
             Ok (set_w_pending false w)
        else Ok (resink c s k)) = Ok (resink c' s k)) /\
    lim c <= lim c' /\ lim c' = w_j c /\
    (w_pending c = true -> headerSize <= len d) /\
    forall k, 0 <= k <= lim c ->
      slice (w_buf c') k (lim c') = slice (w_buf c) k (lim c) ++ d.
Proof.
  intros [Sf Hep]. pose proof Sf as (Hi0 & Hij & HjB & Hpe & Hl).
  destruct (w_pending c) eqn:Hp.
  - specialize (Hpe eq_refl).
    destruct (fillHeader_holds crc true c Hi0 Hpe HjB Hl)
      as (X & EX & LX & _ & Hframe).
    exists (set_w_pending false (set_w_buf X c)), (slice X (w_i c) (w_j c)).
    unfold lim. wsimpl. rewrite Hp. splits; auto; try lia.
    + unfold WCore, WSafe. wsimpl. splits; auto; discriminate.
    + intros s k. cbn [resink w_pending]. rewrite Hp, fillHeader_resink, EX.
      reflexivity.
    + intros _. rewrite slice_len; lia.
    + intros k Hk. rewrite (slice_split X k (w_i c) (w_j c)) by lia.
      f_equal. apply slice_frame; try lia.
      intros x H Hx. apply Hframe; [exact H|now left].
  - exists c, []. unfold lim. rewrite Hp. splits; auto; try lia.
    + split; [assumption|intros _; exact Hp].
    + intros s k. cbn [resink w_pending]. now rewrite Hp.
    + intros k _. now rewrite app_nil_r.
Qed.

End Committed.

Section CommittedOps.
Variable crc : list byte -> Z.

Lemma Kok_seal c c' k :
  WCore c -> Kok c k -> w_err c' = w_err c -> w_pending c' = false ->
  lim c <= lim c' -> lim c' = w_j c -> Kok c' k.
Proof.
  intros [_ Hep] [Hk He] Ee Hp Hl Hj. split; [lia|].
  intros H. rewrite Ee in H. specialize (He H). specialize (Hep H).
  unfold lim in *. rewrite Hep in *. lia.
Qed.

(** [Finish], and with it [Flush], [Sync] and [Close] over a sink in
    memory: the same new state but for the sink, the same growth of
    the committed stream. *)
Lemma finish_core c :
  WCore c ->
  exists c' d,
    WCore c' /\ w_pending c' = false /\ w_err c' = w_err c /\
    (w_pending c = true -> headerSize <= len d) /\
    (forall s k, Kok c k ->
       Finish crc (resink c s k) = Ok (resink c' s k, w_err c) /\
       Grows c c' d s k s k) /\
    (forall s k, Kok c k ->
       exists s',
         writePending crc (resink c s k) = Ok (resink c' s' (lim c')) /\
         Grows c c' d s k s' (lim c')).
Proof.
  intros HC. pose proof HC as [Sf Hep].
  destruct (seal_core crc c HC)
    as (c' & d & HC' & Hp' & He' & Hb' & Hbase & Eseal & Hl & Hj' & Hd7 & Hd).
  pose proof HC' as [(Hi0 & Hij & HjB & _ & Hlen) _].
  exists c', d. splits; auto.
  - intros s k HK. pose proof (Kok_seal c c' k HC HK He' Hp' Hl Hj') as HK'.
    split.
    + unfold Finish. rewrite Eseal. cbn [bind resink w_err]. now rewrite He'.
    + split; [exact HK'|]. split.
      * rewrite Hd by apply HK. now rewrite app_assoc.
      * split; [exact Hbase|].
        intros N H0 Hb HL. exists N. splits; auto. congruence.
  - intros s k HK. pose proof (Kok_seal c c' k HC HK He' Hp' Hl Hj') as HK'.
    destruct HK as [Hk Hke]. destruct HK' as [Hk' Hke'].
    unfold writePending.
    destruct (w_err c) as [e|] eqn:He.
    + assert (Ek : k = lim c) by (apply Hke; discriminate).
      assert (Ek' : k = lim c') by (apply Hke'; rewrite He'; discriminate).
      assert (Hpc : w_pending c = false) by (apply Hep; discriminate).
      pose proof (Eseal s k) as Es. cbn [resink w_pending] in Es.
      rewrite Hpc in Es.
      exists s. split.
      * cbn [resink w_err]. rewrite He, <- Ek'. exact Es.
      * rewrite <- Ek'. split; [split; assumption|]. split.
        -- rewrite Hd by lia. now rewrite app_assoc.
        -- split; [exact Hbase|].
           intros N H0 Hb HL. exists N. splits; auto. congruence.
    + cbn [resink w_err]. rewrite He. fold (resink c s k).
      rewrite Eseal. cbn [bind io_write memSink resink w_w w_buf w_written w_j
                          w_i w_baseOffset w_blockNumber w_lastRecordOffset
                          w_first w_pending].
      exists (s ++ slice (w_buf c') k (w_j c')). split.
      * unfold resink, lim. rewrite Hp', He'. reflexivity.
      * assert (Hjl : lim c' = w_j c') by (unfold lim; now rewrite Hp').
        rewrite Hjl in Hd, Hk', Hl |- *.
        split; [unfold Kok; rewrite Hjl; split; [lia|reflexivity]|]. split.
        -- rewrite Hjl, slice_empty, app_nil_r, Hd by lia.
           now rewrite app_assoc.
        -- split; [exact Hbase|].
           intros N H0 Hb HL. exists N. splits; auto; [congruence|].
           rewrite len_app, slice_len by lia. lia.
Qed.

End CommittedOps.

Section CommittedWrite.
Variable crc : list byte -> Z.

(** [Write] starts a record: the committed stream goes on to the next
    block, padded with zeroes, when the header no longer fits. *)
Lemma startRecord_core c :
  WCore c -> w_err c = None ->
  exists c' d,
    WCore c' /\ w_pending c' = true /\ w_err c' = None /\
    w_baseOffset c' = w_baseOffset c /\
    (w_pending c = false ->
       w_lastRecordOffset c'
       = wrap64 (w_baseOffset c + w_blockNumber c' * blockSize + lim c') /\
       d = (if w_j c + headerSize >? blockSize
            then zeros (blockSize - w_j c) else [])) /\
    forall s k, Kok c k ->
      exists s' k',
        startRecord (resink c s k) = (resink c' s' k', None) /\
        Grows c c' d s k s' k'.
Proof.
  intros HC He. pose proof HC as [Sf Hep].
  pose proof Sf as (Hi0 & Hij & HjB & Hpe & Hl).
  destruct (w_pending c) eqn:Hp.
  - exists c, []. splits; auto; try discriminate.
    intros s k HK. exists s, k. split; [|now apply Grows_refl].
    unfold startRecord, resink. wsimpl. now rewrite Hp.
  - assert (Hlim : lim c = w_j c) by (unfold lim; now rewrite Hp).
    destruct (w_j c + headerSize >? blockSize) eqn:Hov.
    + apply Z.gtb_lt in Hov.
      set (buf' := splice (w_buf c) (w_j c) (zeros (blockSize - w_j c))).
      assert (Lz : len (zeros (blockSize - w_j c)) = blockSize - w_j c)
        by (rewrite len_zeros; lia).
      assert (Lb : len buf' = blockSize)
        by (unfold buf'; rewrite len_splice; lia).
      set (bn' := wrap64 (w_blockNumber c + 1)).
      set (c' := mkWriter (@nil byte) 0 headerSize 0 (w_baseOffset c) bn'
                   (wrap64 (w_baseOffset c + bn' * blockSize + 0))
                   true true None buf').
      exists c', (zeros (blockSize - w_j c)).
      assert (Hlim' : lim c' = 0) by reflexivity.
      splits; auto.
      * unfold WCore, WSafe, c'. wsimpl. splits; auto; try fmt_lia.
        congruence.
      * intros s k [Hk Hke]. rewrite Hlim in Hk.
        exists (s ++ slice buf' k (len buf')), 0. split.
        -- unfold startRecord, resink. wsimpl. rewrite Hp.
           cbn [negb]. cbv zeta. wsimpl. 
           destruct (Z.gtb_spec (w_j c + headerSize) blockSize) as [_|Hn];
             [|lia].
           rewrite writeBlock_mem. wsimpl. cbn [w_err]. reflexivity.
        -- split; [split; [rewrite Hlim'; lia|intros _; now rewrite Hlim']|].
           split.
           ++ rewrite Hlim', Hlim, slice_empty, app_nil_r, Lb.
              rewrite (slice_split buf' k (w_j c) blockSize) by lia.
              rewrite <- app_assoc. f_equal. f_equal.
              ** unfold buf'. apply slice_splice_before; lia.
              ** pose proof (slice_splice_at (w_buf c) (w_j c)
                               (zeros (blockSize - w_j c))) as Ez.
                 rewrite Lz in Ez.
                 replace (w_j c + (blockSize - w_j c)) with blockSize in Ez
                   by lia.
                 apply Ez; lia.
           ++ split; [reflexivity|].
              intros N H0 Hb HL. exists (N + 1). splits; try lia.
              ** unfold c', bn'. wsimpl. rewrite Hb. apply wrap64_succ.
              ** rewrite len_app, slice_len, Lb by lia. lia.
    + rewrite Z.gtb_ltb in Hov. apply Z.ltb_ge in Hov.
      set (c' := mkWriter (@nil byte) (w_j c) (w_j c + headerSize) 0
                   (w_baseOffset c) (w_blockNumber c)
                   (wrap64 (w_baseOffset c + w_blockNumber c * blockSize
                            + w_j c))
                   true true None (w_buf c)).
      exists c', [].
      assert (Hlim' : lim c' = w_j c) by reflexivity.
      splits; auto.
      * unfold WCore, WSafe, c'. wsimpl. splits; auto; try fmt_lia.
        congruence.
      * intros s k [Hk Hke]. rewrite Hlim in Hk.
        exists s, k. split.
        -- unfold startRecord, resink. wsimpl. rewrite Hp.
           cbn [negb]. cbv zeta. wsimpl.
           destruct (Z.gtb_spec (w_j c + headerSize) blockSize) as [Hn|_];
             [lia|].
           cbn [w_err]. rewrite He. reflexivity.
        -- split; [split; [rewrite Hlim'; lia|intros H; exfalso; now apply H]|].
           split.
           ++ now rewrite Hlim', Hlim, app_nil_r.
           ++ split; [reflexivity|].
              intros N H0 Hb HL. exists N. splits; auto.
Qed.

End CommittedWrite.

Section CommittedLoop.
Variable crc : list byte -> Z.

(** One turn of the loop of [Write]: a full block joins the committed
    stream with its last chunk. *)
Lemma writeStep_core c p :
  WCore c -> w_pending c = true -> w_err c = None -> p <> [] ->
  exists c' d n,
    WCore c' /\ w_pending c' = true /\ w_err c' = None /\ 1 <= n <= len p /\
    w_lastRecordOffset c' = w_lastRecordOffset c /\
    forall s k, Kok c k ->
      exists s' k',
        writeStep crc (resink c s k, p)
        = Continue (resink c' s' k', skipn (Z.to_nat n) p) /\
        Grows c c' d s k s' k'.
Proof.
  intros HC Hp He Hne. pose proof HC as [Sf Hep].
  pose proof Sf as (Hi0 & Hij & HjB & Hpe & Hl). specialize (Hpe Hp).
  assert (Hlim : lim c = w_i c) by (unfold lim; now rewrite Hp).
  destruct p as [|b p]; [congruence|]. set (pp := b :: p) in *.
  destruct (w_j c =? blockSize) eqn:Hfull.
  - apply Z.eqb_eq in Hfull.
    destruct (fillHeader_holds crc false c Hi0 Hpe HjB Hl)
      as (X & EX & LX & _ & Hframe).
    destruct (copy_spec X headerSize pp LX)
      as (Ecopy & Hn1 & Hn2 & Hn3 & Hn4 & Hn5 & _);
      [fmt_lia|fmt_lia|discriminate|].
    set (n := Z.min (blockSize - headerSize) (len pp)) in *.
    set (buf2 := splice X headerSize (firstn (Z.to_nat n) pp)) in *.
    set (c' := mkWriter (@nil byte) 0 (headerSize + n) 0 (w_baseOffset c)
                 (wrap64 (w_blockNumber c + 1)) (w_lastRecordOffset c)
                 false true None buf2).
    exists c', (slice X (w_i c) blockSize), n.
    assert (Hlim' : lim c' = 0) by reflexivity.
    splits; auto; try lia.
    + unfold WCore, WSafe, c'. wsimpl. splits; auto; try fmt_lia. congruence.
    + intros s k [Hk Hke]. rewrite Hlim in Hk.
      exists (s ++ slice X k (len X)), 0. split.
      * unfold writeStep. fold pp. unfold pp at 1.
        replace (w_j (resink c s k) =? blockSize) with true
          by (symmetry; apply Z.eqb_eq; exact Hfull).
        rewrite fillHeader_resink, EX. cbn [bind].
        rewrite writeBlock_mem. unfold resink. wsimpl. cbn [w_err].
        rewrite Ecopy. unfold c'. wsimpl. rewrite Hp. reflexivity.
      * split; [split; [rewrite Hlim'; lia|intros _; now rewrite Hlim']|].
        split.
        -- rewrite Hlim', Hlim, slice_empty, app_nil_r, LX.
           rewrite (slice_split X k (w_i c) blockSize) by lia.
           rewrite <- app_assoc. f_equal. f_equal.
           apply slice_frame; try lia.
           intros x H Hx. apply Hframe; [exact H|now left].
        -- split; [reflexivity|].
           intros N H0 Hb HL. exists (N + 1). splits; try lia.
           ++ unfold c'. wsimpl. rewrite Hb. apply wrap64_succ.
           ++ rewrite len_app, slice_len, LX by lia. lia.
  - apply Z.eqb_neq in Hfull.
    destruct (copy_spec (w_buf c) (w_j c) pp Hl)
      as (Ecopy & Hn1 & Hn2 & Hn3 & Hn4 & Hn5 & _);
      [lia|lia|discriminate|].
    set (n := Z.min (blockSize - w_j c) (len pp)) in *.
    set (buf2 := splice (w_buf c) (w_j c) (firstn (Z.to_nat n) pp)) in *.
    set (c' := set_w_ij (w_i c) (w_j c + n) (set_w_buf buf2 c)).
    exists c', [], n.
    assert (Hlim' : lim c' = w_i c) by (unfold lim, c'; wsimpl; now rewrite Hp).
    splits; auto; try lia.
    + unfold WCore, WSafe, c'. wsimpl. rewrite Hp, He.
      splits; auto; try fmt_lia. congruence.
    + intros s k [Hk Hke]. rewrite Hlim in Hk.
      exists s, k. split.
      * unfold writeStep. fold pp. unfold pp at 1.
        replace (w_j (resink c s k) =? blockSize) with false
          by (symmetry; apply Z.eqb_neq; exact Hfull).
        unfold resink. wsimpl. rewrite Ecopy. unfold c'. wsimpl. reflexivity.
      * split; [split; [rewrite Hlim'; lia|]|].
        { intros H. exfalso. apply H. unfold c'. wsimpl. exact He. }
        split.
        -- rewrite Hlim', Hlim, app_nil_r. f_equal. unfold c'. wsimpl.
           unfold buf2. apply slice_splice_before; lia.
        -- split; [reflexivity|].
           intros N H0 Hb HL. exists N. splits; auto.
Qed.

Lemma write_loop_core fuel : forall p c,
  WCore c -> w_pending c = true -> w_err c = None ->
  (length p < fuel)%nat ->
  exists c' d,
    WCore c' /\ w_pending c' = true /\ w_err c' = None /\
    w_lastRecordOffset c' = w_lastRecordOffset c /\
    forall s k, Kok c k ->
      exists s' k',
        run_loop (writeStep crc) fuel (resink c s k, p)
        = Some (Ok (resink c' s' k', None)) /\
        Grows c c' d s k s' k'.
Proof.
  induction fuel as [|fuel IH]; intros p c HC Hp He Hf; [lia|].
  destruct p as [|b p].
  - exists c, []. splits; auto. intros s k HK. exists s, k.
    split; [reflexivity|now apply Grows_refl].
  - destruct (writeStep_core c (b :: p) HC Hp He)
      as (c1 & d1 & n & HC1 & Hp1 & He1 & Hn & Hr1 & S1); [discriminate|].
    destruct (IH (skipn (Z.to_nat n) (b :: p)) c1 HC1 Hp1 He1)
      as (c2 & d2 & HC2 & Hp2 & He2 & Hr2 & S2).
    { rewrite length_skipn. cbn [length] in *. unfold len in Hn.
      cbn [length] in Hn. lia. }
    exists c2, (d1 ++ d2). splits; auto; [congruence|].
    intros s k HK. destruct (S1 s k HK) as (s1 & k1 & E1 & G1).
    destruct (S2 s1 k1 ltac:(apply G1)) as (s2 & k2 & E2 & G2).
    exists s2, k2. split.
    + cbn [run_loop]. rewrite E1. exact E2.
    + eapply Grows_trans; eassumption.
Qed.

(** [Write]: the committed stream grows by the padding of the block,
    if the record starts in the next one, and by the blocks that the
    payload fills. *)
Lemma Write_core p c :
  WCore c ->
  exists c' d,
    WCore c' /\
    (w_err c = None -> w_pending c' = true /\ w_err c' = None) /\
    forall s k, Kok c k ->
      exists s' k' n,
        Write crc p (resink c s k) = Ok (resink c' s' k', (n, w_err c)) /\
        Grows c c' d s k s' k'.
Proof.
  intros HC. destruct (w_err c) as [e|] eqn:He.
  - exists c, []. splits; auto; [discriminate|].
    intros s k HK. exists s, k, 0. split; [|now apply Grows_refl].
    unfold Write. cbn [resink w_err]. unfold resink. wsimpl. now rewrite He.
  - destruct (startRecord_core c HC He)
      as (c1 & d1 & HC1 & Hp1 & He1 & _ & _ & S1).
    destruct (write_loop_core (S (length p)) p c1 HC1 Hp1 He1)
      as (c2 & d2 & HC2 & Hp2 & He2 & _ & S2); [lia|].
    exists c2, (d1 ++ d2). splits; auto.
    intros s k HK. destruct (S1 s k HK) as (s1 & k1 & E1 & G1).
    destruct (S2 s1 k1 ltac:(apply G1)) as (s2 & k2 & E2 & G2).
    exists s2, k2, (len p). split.
    + unfold Write. replace (w_err (resink c s k)) with (@None error)
        by (symmetry; exact He).
      rewrite E1, E2. reflexivity.
    + eapply Grows_trans; eassumption.
Qed.

End CommittedLoop.

Section CommittedRuns.
Variable crc : list byte -> Z.

Lemma Close_core c :
  WCore c ->
  exists c' d,
    WCore c' /\
    forall s k, Kok c k ->
      exists s',
        Close crc (resink c s k) = Ok (resink c' s' (lim c'), w_err c) /\
        Grows c c' d s k s' (lim c').
Proof.
  intros HC.
  destruct (finish_core crc c HC) as (c1 & d & HC1 & Hp1 & He1 & _ & _ & S1).
  destruct (w_err c) as [e|] eqn:He.
  - exists c1, d. split; [exact HC1|]. intros s k HK.
    destruct (S1 s k HK) as (s' & E & G). exists s'. split; [|exact G].
    unfold Close. rewrite E. cbn [bind]. unfold resink at 1. wsimpl.
    now rewrite He1.
  - exists (set_w_err (Some ErrClosedWriter) c1), d.
    assert (Hlim : lim (set_w_err (Some ErrClosedWriter) c1) = lim c1)
      by reflexivity.
    split.
    { destruct HC1 as [Sf _]. split; [exact Sf|]. intros _. exact Hp1. }
    intros s k HK. destruct (S1 s k HK) as (s' & E & (K & Sum & Cnt)).
    exists s'. rewrite Hlim. split.
    + unfold Close. rewrite E. cbn [bind]. unfold resink at 1. wsimpl.
      now rewrite He1.
    + split; [|split; [exact Sum|exact Cnt]].
      split; [apply K|]. intros _. now rewrite Hlim.
Qed.

Lemma apply_op_core o c :
  WCore c ->
  exists c' d,
    WCore c' /\
    forall s k, Kok c k ->
      (exists s' k',
         apply_op crc o (resink c s k) = Ok (resink c' s' k') /\
         Grows c c' d s k s' k') /\
      (exists s' k',
         apply_op crc (unflush o) (resink c s k) = Ok (resink c' s' k') /\
         Grows c c' d s k s' k').
Proof.
  intros HC.
  assert (Twice : forall (P : Prop), P -> P /\ P) by auto.
  destruct o; cbn [unflush apply_op].
  - destruct (Write_core crc p c HC) as (c' & d & HC' & _ & S).
    exists c', d. split; [exact HC'|]. intros s k HK. apply Twice.
    destruct (S s k HK) as (s' & k' & n & E & G). exists s', k'.
    rewrite E. split; [reflexivity|exact G].
  - destruct (finish_core crc c HC) as (c' & d & HC' & _ & _ & _ & S & _).
    exists c', d. split; [exact HC'|]. intros s k HK. apply Twice.
    destruct (S s k HK) as [E G]. exists s, k. rewrite E.
    split; [reflexivity|exact G].
  - destruct (finish_core crc c HC) as (c' & d & HC' & _ & He' & _ & S & S').
    exists c', d. split; [exact HC'|]. intros s k HK. split.
    + destruct (S' s k HK) as (s' & E & G). exists s', (lim c').
      split; [|exact G]. unfold Flush. rewrite E. cbn [bind].
      unfold resink at 1. wsimpl.
      destruct (w_err c'); reflexivity.
    + destruct (S s k HK) as [E G]. exists s, k. rewrite E.
      split; [reflexivity|exact G].
  - destruct (finish_core crc c HC) as (c' & d & HC' & _ & He' & _ & S & S').
    exists c', d. split; [exact HC'|]. intros s k HK. split.
    + destruct (S' s k HK) as (s' & E & G). exists s', (lim c').
      split; [|exact G]. unfold Sync, Flush. rewrite E. cbn [bind].
      unfold resink at 1. wsimpl.
      destruct (w_err c'); reflexivity.
    + destruct (S s k HK) as [E G]. exists s, k. rewrite E.
      split; [reflexivity|exact G].
  - destruct (Close_core c HC) as (c' & d & HC' & S).
    exists c', d. split; [exact HC'|]. intros s k HK. apply Twice.
    destruct (S s k HK) as (s' & E & G). exists s', (lim c'). rewrite E.
    split; [reflexivity|exact G].
  - exists c, []. split; [exact HC|]. intros s k HK. apply Twice.
    exists s, k. split; [reflexivity|now apply Grows_refl].
Qed.

Lemma run_ops_core ops : forall c,
  WCore c ->
  exists c' d,
    WCore c' /\
    forall s k, Kok c k ->
      (exists s' k',
         run_ops crc ops (resink c s k) = Ok (resink c' s' k') /\
         Grows c c' d s k s' k') /\
      (exists s' k',
         run_ops crc (map unflush ops) (resink c s k) = Ok (resink c' s' k') /\
         Grows c c' d s k s' k').
Proof.
  induction ops as [|o ops IH]; intros c HC.
  - exists c, []. split; [exact HC|]. intros s k HK.
    split; exists s, k; (split; [reflexivity|now apply Grows_refl]).
  - destruct (apply_op_core o c HC) as (c1 & d1 & HC1 & S1).
    destruct (IH c1 HC1) as (c2 & d2 & HC2 & S2).
    exists c2, (d1 ++ d2). split; [exact HC2|]. intros s k HK.
    destruct (S1 s k HK) as [(s1 & k1 & E1 & G1) (t1 & j1 & F1 & I1)].
    split.
    + destruct (S2 s1 k1 ltac:(apply G1)) as [(s2 & k2 & E2 & G2) _].
      exists s2, k2. cbn [run_ops]. rewrite E1. cbn [bind].
      split; [exact E2|exact (Grows_trans _ _ _ _ _ _ _ _ _ _ _ G1 G2)].
    + destruct (S2 t1 j1 ltac:(apply I1)) as [_ (t2 & j2 & F2 & I2)].
      exists t2, j2. cbn [map run_ops]. rewrite F1. cbn [bind].
      split; [exact F2|exact (Grows_trans _ _ _ _ _ _ _ _ _ _ _ I1 I2)].
Qed.

Lemma NewWriter_core :
  WCore (NewWriter (@nil byte)) /\ Kok (NewWriter (@nil byte)) 0 /\
  resink (NewWriter (@nil byte)) [] 0 = NewWriter (@nil byte).
Proof.
  splits.
  - split; [apply (NewWriter_safe (@nil byte))|]. intros H. now elim H.
  - split; [split; [lia|reflexivity]|reflexivity].
  - reflexivity.
Qed.

(** X11. Over a sink in memory, [Flush] and [Sync] change nothing in
    the stream but the moment its bytes reach the sink: whatever the
    operations, once the writer is closed the sink holds the same
    bytes as if every [Flush] and [Sync] had been a [Finish], and
    [Close] returns the same. *)
Theorem Flush_is_Finish (ops : list op) :
  exists wA wB e,
    (w <- run_ops crc ops (NewWriter (@nil byte)) ;; Close crc w)
      = Ok (wA, e) /\
    (w <- run_ops crc (map unflush ops) (NewWriter (@nil byte)) ;;
     Close crc w) = Ok (wB, e) /\
    w_w wA = w_w wB.
Proof.
  destruct NewWriter_core as (HC0 & HK0 & E0).
  destruct (run_ops_core ops _ HC0) as (c1 & d1 & HC1 & S1).
  destruct (S1 [] 0 HK0) as [(sA & kA & EA & GA) (sB & kB & EB & GB)].
  rewrite E0 in EA, EB.
  destruct (Close_core c1 HC1) as (c2 & d2 & HC2 & S2).
  destruct (S2 sA kA ltac:(apply GA)) as (sA' & EA' & (_ & SumA' & _)).
  destruct (S2 sB kB ltac:(apply GB)) as (sB' & EB' & (_ & SumB' & _)).
  exists (resink c2 sA' (lim c2)), (resink c2 sB' (lim c2)), (w_err c1).
  rewrite EA, EB. cbn [bind]. splits; auto.
  destruct GA as (_ & SumA & _). destruct GB as (_ & SumB & _).
  rewrite slice_empty, app_nil_r in SumA', SumB'.
  cbn [resink w_w]. rewrite SumA', SumB', SumA, SumB. reflexivity.
Qed.

End CommittedRuns.

(** * A stream has one layout *)

Section Decoding.
Variable crc : list byte -> Z.

Lemma len_encChunks_nonneg cs : 0 <= len (encChunks crc cs).
Proof. apply len_nonneg. Qed.

Lemma chunks_small cs :
  len (encChunks crc cs) <= blockSize ->
  Forall (fun c => len (c_data c) < 2 ^ 16) cs.
Proof.
  induction cs as [|c cs IH]; intros H; [constructor|].
  rewrite len_encChunks_cons in H.
  pose proof (len_nonneg (c_data c)). pose proof (len_encChunks_nonneg cs).
  constructor; [fmt_lia|apply IH; fmt_lia].
Qed.

Lemma byte_of_type t t' :
  1 <= t <= 4 -> 1 <= t' <= 4 -> byte.of_Z t = byte.of_Z t' -> t = t'.
Proof.
  intros Ht Ht' H. apply (f_equal byte.unsigned) in H.
  rewrite !byte.unsigned_of_Z in H. unfold byte.wrap in H.
  rewrite !Z.mod_small in H by lia. exact H.
Qed.

Lemma le_split_2_inj a b :
  0 <= a < 2 ^ 16 -> 0 <= b < 2 ^ 16 -> le_split 2 a = le_split 2 b -> a = b.
Proof.
  intros Ha Hb H. apply (f_equal le_combine) in H.
  rewrite !le_combine_split in H.
  change (2 ^ (Z.of_nat 2 * 8)) with (2 ^ 16) in H.
  rewrite !Z.mod_small in H by lia. exact H.
Qed.

(** The chunk at the head of a byte string is determined by it. *)
Lemma encChunk_inj c c' R R' :
  valid_chunk c -> valid_chunk c' ->
  len (c_data c) < 2 ^ 16 -> len (c_data c') < 2 ^ 16 ->
  encChunk crc c ++ R = encChunk crc c' ++ R' -> c = c' /\ R = R'.
Proof.
  intros Hv Hv' Hl Hl' H. unfold encChunk in H.
  rewrite <- !app_assoc in H.
  apply app_eq_len in H; [|now rewrite !length_le_split].
  destruct H as [_ H].
  apply app_eq_len in H; [|now rewrite !length_le_split].
  destruct H as [H2 H].
  pose proof (len_nonneg (c_data c)). pose proof (len_nonneg (c_data c')).
  apply le_split_2_inj in H2; try lia.
  cbn [app] in H. injection H as Ht H.
  apply byte_of_type in Ht; try assumption.
  apply app_eq_len in H; [|unfold len in H2; lia].
  destruct H as [Hd HR]. split; [|exact HR].
  destruct c, c'. cbn in *. congruence.
Qed.

(** Of two chunk lists at the head of one byte string, one starts the
    other. *)
Lemma encChunks_prefix : forall cs cs' Y Y',
  Forall valid_chunk cs -> Forall valid_chunk cs' ->
  Forall (fun c => len (c_data c) < 2 ^ 16) cs ->
  Forall (fun c => len (c_data c) < 2 ^ 16) cs' ->
  encChunks crc cs ++ Y = encChunks crc cs' ++ Y' ->
  (exists m, cs' = cs ++ m /\ Y = encChunks crc m ++ Y') \/
  (exists m, cs = cs' ++ m /\ Y' = encChunks crc m ++ Y).
Proof.
  induction cs as [|c cs IH]; intros cs' Y Y' Hv Hv' Hs Hs' H.
  - left. exists cs'. split; [reflexivity|exact H].
  - destruct cs' as [|c' cs'].
    + right. exists (c :: cs). split; [reflexivity|]. now rewrite H.
    + inversion Hv; inversion Hv'; inversion Hs; inversion Hs'; subst.
      change (encChunks crc (c :: cs))
        with (encChunk crc c ++ encChunks crc cs) in H.
      change (encChunks crc (c' :: cs'))
        with (encChunk crc c' ++ encChunks crc cs') in H.
      rewrite <- !app_assoc in H.
      apply encChunk_inj in H; try assumption. destruct H as [-> H].
      destruct (IH cs' Y Y') as [(m & -> & E)|(m & -> & E)]; try assumption.
      * left. exists m. split; [reflexivity|exact E].
      * right. exists m. split; [reflexivity|exact E].
Qed.

Lemma zeros_all k : Forall (fun b => b = Byte.x00) (zeros k).
Proof. unfold zeros. apply Forall_forall. intros b H. now apply repeat_spec in H. Qed.

(** Padding does not start with a chunk. *)
Lemma zeros_not_chunk k c R R' :
  valid_chunk c -> zeros k ++ R' = encChunk crc c ++ R -> headerSize <= k ->
  False.
Proof.
  intros Hv H Hk. unfold valid_chunk in Hv.
  assert (E : nth 6 (zeros k ++ R') Byte.x00 = byte.of_Z (c_type c)).
  { rewrite H. unfold encChunk. cbn [le_split app nth]. reflexivity. }
  rewrite app_nth1 in E
    by (unfold zeros; rewrite repeat_length; unfold headerSize in Hk; lia).
  unfold zeros in E. rewrite nth_repeat in E.
  apply (f_equal byte.unsigned) in E.
  rewrite byte.unsigned_of_Z in E. unfold byte.wrap in E.
  rewrite Z.mod_small in E by lia. cbn in E. lia.
Qed.

Lemma encChunks_cons_len c m : headerSize <= len (encChunks crc (c :: m)).
Proof.
  rewrite len_encChunks_cons. pose proof (len_nonneg (c_data c)).
  pose proof (len_encChunks_nonneg m). lia.
Qed.

(** A block is determined by its bytes. *)
Lemma encBlock_inj b d :
  Forall valid_chunk (b_chunks b) -> Forall valid_chunk (b_chunks d) ->
  len (encBlock crc b) <= blockSize -> len (encBlock crc d) <= blockSize ->
  0 <= b_pad b -> 0 <= b_pad d ->
  encBlock crc b = encBlock crc d -> b = d.
Proof.
  intros Hvb Hvd Hlb Hld Hpb Hpd H. unfold encBlock in *.
  rewrite len_app in Hlb, Hld.
  pose proof (len_nonneg (zeros (b_pad b))).
  pose proof (len_nonneg (zeros (b_pad d))).
  assert (G : forall cs m p p',
             Forall valid_chunk (cs ++ m) -> 0 <= p ->
             zeros p = encChunks crc m ++ zeros p' -> m = []).
  { intros cs m p p' Hv Hp E. destruct m as [|c m]; [reflexivity|exfalso].
    apply Forall_app in Hv. destruct Hv as [_ Hv]. inversion Hv; subst.
    assert (L : len (zeros p) = len (encChunks crc (c :: m) ++ zeros p'))
      by now rewrite E.
    rewrite len_app, len_zeros in L.
    pose proof (encChunks_cons_len c m). pose proof (len_nonneg (zeros p')).
    change (encChunks crc (c :: m)) with (encChunk crc c ++ encChunks crc m)
      in E.
    rewrite <- app_assoc in E. rewrite <- (app_nil_r (zeros p)) in E.
    eapply zeros_not_chunk; [eassumption|exact E|lia]. }
  assert (F : forall p p', 0 <= p -> 0 <= p' -> zeros p = zeros p' -> p = p').
  { intros p p' Hp Hp' E. apply (f_equal len) in E.
    rewrite !len_zeros in E. lia. }
  destruct (encChunks_prefix _ _ _ _ Hvb Hvd
              (chunks_small (b_chunks b) ltac:(lia))
              (chunks_small (b_chunks d) ltac:(lia)) H)
    as [(m & Em & E)|(m & Em & E)].
  - assert (m = [])
      by (apply (G (b_chunks b) m (b_pad b) (b_pad d));
          [rewrite <- Em; exact Hvd|exact Hpb|exact E]).
    subst m. rewrite app_nil_r in Em. cbn [encChunks map concat app] in E.
    apply F in E; try assumption. destruct b, d. cbn in *. congruence.
  - assert (m = [])
      by (apply (G (b_chunks d) m (b_pad d) (b_pad b));
          [rewrite <- Em; exact Hvb|exact Hpd|exact E]).
    subst m. rewrite app_nil_r in Em. cbn [encChunks map concat app] in E.
    apply F in E; try assumption. destruct b, d. cbn in *. congruence.
Qed.

End Decoding.

(** Chunks regroup into records piece by piece. *)
Lemma assemble_app : forall pre acc rs suf l,
  assemble acc pre = Some rs -> assemble acc (pre ++ suf) = Some l ->
  exists l', assemble None suf = Some l' /\ l = rs ++ l'.
Proof.
  induction pre as [|c pre IH]; intros acc rs suf l H1 H2.
  - cbn [assemble] in H1. destruct acc; [discriminate|].
    injection H1 as <-. exists l. split; [exact H2|reflexivity].
  - cbn [app assemble] in H1, H2. destruct acc as [a|].
    + destruct (c_type c =? middleChunkType); [exact (IH _ _ _ _ H1 H2)|].
      destruct (c_type c =? lastChunkType); [|discriminate].
      destruct (assemble None pre) as [r1|] eqn:E1; [|discriminate].
      destruct (assemble None (pre ++ suf)) as [r2|] eqn:E2; [|discriminate].
      cbn [option_map] in H1, H2. injection H1 as <-. injection H2 as <-.
      destruct (IH _ _ _ _ E1 E2) as (l' & El & ->).
      exists l'. split; [exact El|reflexivity].
    + destruct (c_type c =? fullChunkType).
      * destruct (assemble None pre) as [r1|] eqn:E1; [|discriminate].
        destruct (assemble None (pre ++ suf)) as [r2|] eqn:E2; [|discriminate].
        cbn [option_map] in H1, H2. injection H1 as <-. injection H2 as <-.
        destruct (IH _ _ _ _ E1 E2) as (l' & El & ->).
        exists l'. split; [exact El|reflexivity].
      * destruct (c_type c =? firstChunkType); [|discriminate].
        exact (IH _ _ _ _ H1 H2).
Qed.

(** * Where a record starts *)

Section RecordStarts.
Variable crc : list byte -> Z.

(** In a stream laid out in blocks, the full blocks [done0] and the
    chunks [cs0], when more bytes follow them and a header still fits
    after them, are the head of the layout: the block after [done0]
    starts with [cs0], and goes on with at least one more chunk. *)
Lemma layout_at : forall done0 bs pad cs0 G,
  wf_blocks crc bs -> tight pad bs ->
  Forall (full_block crc) done0 -> Forall valid_chunk cs0 ->
  len (encChunks crc cs0) + headerSize <= blockSize ->
  encBlocks crc bs = (encBlocks crc done0 ++ encChunks crc cs0) ++ G ->
  G <> [] ->
  exists b post more,
    bs = done0 ++ b :: post /\ b_chunks b = cs0 ++ more /\ more <> [] /\
    tight (b_pad b) post.
Proof.
  induction done0 as [|d done0 IH]; intros bs pad cs0 G Hw Ht Hd Hv Hl E HG.
  - change (encBlocks crc []) with (@nil byte) in E. cbn [app] in E.
    destruct bs as [|b post].
    { exfalso. change (encBlocks crc []) with (@nil byte) in E.
      symmetry in E. apply app_eq_nil in E. now destruct E. }
    cbn [wf_blocks] in Hw. destruct Hw as (Hvb & Hpb & Hlb & Hfull & Hwp).
    cbn [tight] in Ht. destruct Ht as (_ & Hne & Ht).
    rewrite encBlocks_cons in E. unfold encBlock in E, Hlb, Hfull.
    rewrite <- app_assoc in E. rewrite len_app in Hlb, Hfull.
    pose proof (len_nonneg (zeros (b_pad b))) as Hz0.
    pose proof (len_encChunks_nonneg crc cs0) as Hc0.
    assert (Key : zeros (b_pad b) ++ encBlocks crc post = G ->
                  b_chunks b = cs0 -> False).
    { intros EG Ecs. destruct post as [|b' post'].
      - cbn [tight] in Ht. rewrite Ht in EG.
        change (encBlocks crc []) with (@nil byte) in EG. cbn in EG.
        now apply HG.
      - cbn [tight] in Ht. destruct Ht as (Hp7 & _).
        specialize (Hfull ltac:(discriminate)).
        rewrite len_zeros in Hfull by lia. rewrite Ecs in Hfull. lia. }
    destruct (encChunks_prefix crc _ _ _ _ Hvb Hv
                (chunks_small crc (b_chunks b) ltac:(lia))
                (chunks_small crc cs0 ltac:(fmt_lia)) E)
      as [(m & Em & E')|(m & Em & E')].
    + exfalso. destruct m as [|c m].
      * rewrite app_nil_r in Em. cbn [encChunks map concat app] in E'.
        now apply Key.
      * assert (Hvc : valid_chunk c).
        { rewrite Em in Hv. apply Forall_app in Hv. destruct Hv as [_ Hv].
          now inversion Hv. }
        assert (Lm : len (encChunks crc cs0)
                     = len (encChunks crc (b_chunks b))
                       + len (encChunks crc (c :: m)))
          by (rewrite Em, encChunks_app, len_app; reflexivity).
        pose proof (encChunks_cons_len crc c m) as L7.
        destruct post as [|b' post'].
        -- cbn [tight] in Ht. rewrite Ht in E'.
           change (encBlocks crc []) with (@nil byte) in E'.
           cbn [zeros Z.to_nat repeat app] in E'.
           apply (f_equal len) in E'. rewrite len_app in E'.
           change (len (@nil byte)) with 0 in E'.
           pose proof (len_nonneg G). fmt_lia.
        -- cbn [tight] in Ht. destruct Ht as (Hp7 & _).
           specialize (Hfull ltac:(discriminate)).
           rewrite len_zeros in Hfull by lia. fmt_lia.
    + destruct m as [|c m].
      * exfalso. rewrite app_nil_r in Em. cbn [encChunks map concat app] in E'.
        apply Key; [now symmetry|exact Em].
      * exists b, post, (c :: m). splits; auto. discriminate.
  - inversion Hd as [|d0 l0 Hfd Hd']; subst.
    destruct Hfd as (Hld & Hpd & Hvd & Hned).
    rewrite encBlocks_cons in E. rewrite <- !app_assoc in E.
    destruct bs as [|b post].
    { exfalso. change (encBlocks crc []) with (@nil byte) in E.
      symmetry in E. apply app_eq_nil in E. destruct E as [E _].
      rewrite E in Hld. change (len (@nil byte)) with 0 in Hld. fmt_lia. }
    cbn [wf_blocks] in Hw. destruct Hw as (Hvb & Hpb & Hlb & Hfull & Hwp).
    cbn [tight] in Ht. destruct Ht as (_ & Hne & Ht).
    rewrite encBlocks_cons in E.
    assert (Hpost : post <> []).
    { intros ->. change (encBlocks crc []) with (@nil byte) in E.
      rewrite app_nil_r in E. apply (f_equal len) in E.
      rewrite !len_app in E.
      pose proof (len_nonneg (encBlocks crc done0)).
      pose proof (len_encChunks_nonneg crc cs0).
      assert (0 < len G).
      { destruct G; [now elim HG|]. rewrite len_cons.
        pose proof (len_nonneg G). lia. }
      lia. }
    specialize (Hfull Hpost).
    apply app_eq_len in E; [|unfold len in Hfull, Hld; lia].
    destruct E as [Eb Ep].
    apply encBlock_inj in Eb; try assumption; try lia. subst d.
    rewrite app_assoc in Ep.
    destruct (IH post (b_pad b) cs0 G Hwp Ht Hd' Hv Hl Ep HG)
      as (b1 & post1 & more & -> & Em & Hm & Ht1).
    exists b1, post1, more. splits; auto.
Qed.

Lemma writeRecords_app : forall rs1 rs2 (w : Writer (list byte)),
  writeRecords crc (rs1 ++ rs2) w
  = (w' <- writeRecords crc rs1 w ;; writeRecords crc rs2 w').
Proof.
  induction rs1 as [|p rs1 IH]; intros rs2 w; [reflexivity|].
  cbn [app writeRecords].
  destruct (Write crc p w) as [[w1 [n e]]| |]; cbn [bind]; try reflexivity.
  destruct (Finish crc w1) as [[w2 e2]| |]; cbn [bind]; try reflexivity.
  apply IH.
Qed.

Lemma writeRecords_core rs : forall c,
  WCore c ->
  exists c' d,
    WCore c' /\
    forall s k, Kok c k ->
      exists s' k',
        writeRecords crc rs (resink c s k) = Ok (resink c' s' k') /\
        Grows c c' d s k s' k'.
Proof.
  induction rs as [|p rs IH]; intros c HC.
  - exists c, []. split; [exact HC|]. intros s k HK. exists s, k.
    split; [reflexivity|now apply Grows_refl].
  - destruct (Write_core crc p c HC) as (c1 & d1 & HC1 & _ & S1).
    destruct (finish_core crc c1 HC1) as (c2 & d2 & HC2 & _ & _ & _ & S2 & _).
    destruct (IH c2 HC2) as (c3 & d3 & HC3 & S3).
    exists c3, ((d1 ++ d2) ++ d3). split; [exact HC3|]. intros s k HK.
    destruct (S1 s k HK) as (s1 & k1 & n & E1 & G1).
    destruct (S2 s1 k1 ltac:(apply G1)) as [E2 G2].
    destruct (S3 s1 k1 ltac:(apply G2)) as (s3 & k3 & E3 & G3).
    exists s3, k3. split.
    + cbn [writeRecords]. rewrite E1. cbn [bind]. rewrite E2. cbn [bind].
      exact E3.
    + exact (Grows_trans _ _ _ _ _ _ _ _ _ _ _
               (Grows_trans _ _ _ _ _ _ _ _ _ _ _ G1 G2) G3).
Qed.

(** [Close] between two records hands the sink the committed stream. *)
Lemma Close_committed (w : Writer (list byte)) :
  w_err w = None -> w_pending w = false ->
  exists w', Close crc w = Ok (w', None) /\ w_w w' = committed w.
Proof.
  intros He Hp. unfold Close, writePending. rewrite He, Hp.
  cbn [bind io_write memSink]. wsimpl. cbn [w_err].
  eexists. split; [reflexivity|]. unfold committed, lim. wsimpl.
  now rewrite Hp.
Qed.

Lemma Finish_offset (w w' : Writer (list byte)) e :
  Finish crc w = Ok (w', e) ->
  w_lastRecordOffset w' = w_lastRecordOffset w /\ w_err w' = w_err w.
Proof.
  unfold Finish. destruct (w_pending w).
  - unfold fillHeader.
    destruct ((w_i w + headerSize >? w_j w) || (w_j w >? blockSize));
      cbn [bind]; [discriminate|].
    intros H; injection H as <- <-. split; reflexivity.
  - cbn [bind]. intros H; injection H as <- <-. split; reflexivity.
Qed.

(** Between records, over any sink [s] of which [buf[:k]] is written. *)
Lemma WIdle_resink c s k rs :
  WIdle crc (resink c s k) rs ->
  exists done cs,
    k = 0 /\ s = encBlocks crc done /\ w_err c = None /\
    w_pending c = false /\ w_j c = len (encChunks crc cs) /\
    holds (w_buf c) 0 (encChunks crc cs) /\
    Forall (full_block crc) done /\ Forall valid_chunk cs /\
    Linked None (chunks_of done ++ cs) rs /\ (cs = [] -> done = []).
Proof.
  intros (done & cs & (HS & He & Hwr & Hw & Hfb & Hvc & Hh & Hlen) & Hp & HL
          & Hcs).
  unfold resink in *.
  cbn [w_i w_j w_buf w_pending w_err w_w w_written] in *.
  rewrite Hp in Hlen. exists done, cs. splits; auto.
Qed.

(** The record [p] written after the records [rs] and before the
    records [rs']: where it starts in the stream that [Close] leaves. *)
Lemma Write_starts rs p rs' :
  exists w1 w2 pre b post cs1 ch cs2,
    writeRecords crc rs (NewWriter (@nil byte)) = Ok w1 /\
    Write crc p w1 = Ok (w2, (len p, None)) /\
    w_err w2 = None /\
    w_lastRecordOffset w2
    = wrap64 (len (encBlocks crc pre) + len (encChunks crc cs1)) /\
    len (encBlocks crc pre) + len (encChunks crc cs1)
    = recordStart (len (emitted crc rs)) /\
    emitted crc (rs ++ p :: rs') = encBlocks crc (pre ++ b :: post) /\
    wf_blocks crc (pre ++ b :: post) /\ tight (b_pad b) post /\
    b_chunks b = cs1 ++ ch :: cs2 /\
    assemble None (ch :: cs2 ++ chunks_of post) = Some (p :: rs').
Proof.
  destruct NewWriter_core as (HC0 & HK0 & E0).
  (* the records before *)
  destruct (writeRecords_core rs _ HC0) as (c1 & d1 & HC1 & S1).
  destruct (S1 [] 0 HK0) as (s1 & k1 & E1 & G1). rewrite E0 in E1.
  destruct (writeRecords_idle crc rs _ [] (NewWriter_idle crc))
    as (w1 & E1' & HI1).
  rewrite E1 in E1'. injection E1' as <-. cbn [app] in HI1.
  destruct (WIdle_resink _ _ _ _ HI1)
    as (done & cs & -> & -> & He1 & Hp1 & Hj1 & Hh1 & Hfb & Hvc & HL & Hcs).
  destruct G1 as (K1 & _ & B1 & Cnt1).
  change (w_baseOffset (NewWriter (@nil byte))) with 0 in B1.
  destruct (Cnt1 0) as (N1 & HN1 & Hbn1 & Hlen1);
    [lia|reflexivity|reflexivity|].
  pose proof HC1 as [(Hi1 & Hij1 & HjB1 & _ & Hbuf1) _].
  assert (Hlim1 : lim c1 = w_j c1) by (unfold lim; now rewrite Hp1).
  assert (Hsl1 : slice (w_buf c1) 0 (lim c1) = encChunks crc cs)
    by (apply holds_slice; [exact Hh1|rewrite Hlim1, Hj1; lia]).
  assert (Hem : emitted crc rs = encBlocks crc done ++ encChunks crc cs).
  { unfold emitted, writeAll. rewrite E1. cbn [bind].
    destruct (Close_committed (resink c1 (encBlocks crc done) 0) He1 Hp1)
      as (w' & -> & ->).
    rewrite committed_resink. now rewrite Hsl1. }
  (* the start of the record *)
  destruct (startRecord_core c1 HC1 He1)
    as (c2 & dpad & HC2 & Hp2 & He2 & B2 & Hoff & S2).
  destruct (Hoff Hp1) as [Hlro Hdpad].
  destruct (S2 (encBlocks crc done) 0 K1) as (s2 & k2 & E2 & G2).
  destruct (write_loop_core crc (S (length p)) p c2 HC2 Hp2 He2)
    as (c3 & d3 & HC3 & Hp3 & He3 & Hlro3 & S3); [lia|].
  destruct (S3 s2 k2 ltac:(apply G2)) as (s3 & k3 & E3 & G3).
  assert (EW : Write crc p (resink c1 (encBlocks crc done) 0)
               = Ok (resink c3 s3 k3, (len p, None))).
  { unfold Write.
    replace (w_err (resink c1 (encBlocks crc done) 0)) with (@None error)
      by (symmetry; exact He1).
    rewrite E2, E3. reflexivity. }
  pose proof G2 as (K2 & Sum2 & _ & Cnt2).
  destruct (Cnt2 N1 HN1 Hbn1 Hlen1) as (N2 & HN2 & Hbn2 & Hlen2).
  pose proof HC2 as [(Hi2 & Hij2 & HjB2 & _ & Hbuf2) _].
  assert (Hlim2 : lim c2 = w_i c2) by (unfold lim; now rewrite Hp2).
  rewrite Hsl1 in Sum2.
  assert (HlenP : len (s2 ++ slice (w_buf c2) k2 (lim c2))
                  = N2 * blockSize + lim c2).
  { destruct K2 as [K2 _]. rewrite len_app, slice_len by lia. lia. }
  (* the records after *)
  destruct (finish_core crc c3 HC3)
    as (c4 & dfin & HC4 & Hp4 & He4 & Hfin7 & S4 & _).
  specialize (Hfin7 Hp3).
  destruct (S4 s3 k3 ltac:(apply G3)) as [E4 G4].
  destruct (writeRecords_core rs' c4 HC4) as (c5 & d5 & HC5 & S5).
  destruct (S5 s3 k3 ltac:(apply G4)) as (s5 & k5 & E5 & G5).
  destruct (Close_core crc c5 HC5) as (c6 & d6 & HC6 & S6).
  destruct (S6 s5 k5 ltac:(apply G5)) as (s6 & E6 & G6).
  pose proof (Grows_trans _ _ _ _ _ _ _ _ _ _ _
                (Grows_trans _ _ _ _ _ _ _ _ _ _ _
                   (Grows_trans _ _ _ _ _ _ _ _ _ _ _ G3 G4) G5) G6)
    as (_ & Sum & _).
  rewrite slice_empty, app_nil_r in Sum.
  destruct (Write_idle crc p _ rs HI1) as (w2 & EW' & HO2).
  rewrite EW in EW'. injection EW' as <-.
  destruct (Finish_open crc _ rs p HO2) as (w3 & E4' & HI3).
  rewrite E4 in E4'. injection E4' as <- _.
  destruct (writeRecords_idle crc rs' _ _ HI3) as (w4 & E5' & HI4).
  rewrite E5 in E5'. injection E5' as <-.
  destruct (Close_idle crc _ _ HI4) as (w5 & bs & E6' & Hw5 & Hwf & Hti & Has).
  rewrite E6 in E6'. injection E6' as <- _. cbn [resink w_w] in Hw5.
  assert (Hfinal : emitted crc (rs ++ p :: rs') = s6).
  { unfold emitted, writeAll. rewrite writeRecords_app, E1.
    cbn [bind writeRecords]. rewrite EW. cbn [bind]. rewrite E4.
    cbn [bind]. rewrite E5. cbn [bind]. rewrite E6. reflexivity. }
  (* the layout up to the record *)
  assert (HPre : exists pre cs1,
             Forall (full_block crc) pre /\ Forall valid_chunk cs1 /\
             len (encChunks crc cs1) + headerSize <= blockSize /\
             s2 ++ slice (w_buf c2) k2 (lim c2)
             = encBlocks crc pre ++ encChunks crc cs1 /\
             chunks_of pre ++ cs1 = chunks_of done ++ cs /\
             len (encBlocks crc pre) + len (encChunks crc cs1)
             = recordStart (len (emitted crc rs))).
  { assert (Hmod : len (emitted crc rs) = N1 * blockSize + w_j c1).
    { rewrite Hem, len_app, Hlen1, <- Hj1. lia. }
    assert (Hmj : w_j c1 < blockSize ->
                  (N1 * blockSize + w_j c1) mod blockSize = w_j c1).
    { intros Hlt. rewrite (Z.add_comm (N1 * blockSize)), Z_mod_plus_full.
      apply Z.mod_small. lia. }
    rewrite Sum2, Hdpad.
    destruct (Z.gtb_spec (w_j c1 + headerSize) blockSize) as [Hov|Hov].
    - exists (done ++ [mkBlock cs (blockSize - w_j c1)]), [].
      assert (Hz : len (zeros (blockSize - w_j c1)) = blockSize - w_j c1)
        by (rewrite len_zeros; lia).
      splits.
      + apply Forall_app. split; [exact Hfb|].
        apply Forall_cons; [|apply Forall_nil].
        unfold full_block, encBlock. cbn [b_chunks b_pad].
        rewrite len_app, Hz, <- Hj1. splits; auto; try fmt_lia.
        intros ->. change (len (encChunks crc [])) with 0 in Hj1. fmt_lia.
      + apply Forall_nil.
      + change (len (encChunks crc [])) with 0. fmt_lia.
      + rewrite encBlocks_app, encBlocks_one. unfold encBlock.
        cbn [b_chunks b_pad]. change (encChunks crc []) with (@nil byte).
        now rewrite app_nil_r, app_assoc.
      + now rewrite chunks_of_app, chunks_of_one, app_nil_r.
      + change (len (encChunks crc [])) with 0.
        rewrite encBlocks_app, encBlocks_one, len_app. unfold encBlock.
        cbn [b_chunks b_pad]. rewrite len_app, Hz, <- Hj1, Hlen1.
        unfold recordStart. rewrite Hmod.
        destruct (Z.eq_dec (w_j c1) blockSize) as [Ej|Ej].
        * rewrite Ej.
          replace (N1 * blockSize + blockSize) with ((N1 + 1) * blockSize)
            by lia.
          rewrite Z_mod_mult.
          destruct (Z.leb_spec (0 + headerSize) blockSize); fmt_lia.
        * rewrite Hmj by lia.
          destruct (Z.leb_spec (w_j c1 + headerSize) blockSize); fmt_lia.
    - exists done, cs. rewrite app_nil_r. splits; auto.
      + rewrite <- Hj1. lia.
      + rewrite <- Hj1, Hlen1. unfold recordStart. rewrite Hmod.
        rewrite Hmj by fmt_lia.
        destruct (Z.leb_spec (w_j c1 + headerSize) blockSize); fmt_lia. }
  destruct HPre as (pre & cs1 & Hfpre & Hvcs1 & Hl7 & EP & Ecs & Hrs).
  assert (HG : ((d3 ++ dfin) ++ d5) ++ d6 <> []).
  { intros HG0. apply (f_equal len) in HG0. rewrite !len_app in HG0.
    change (len (@nil byte)) with 0 in HG0.
    pose proof (len_nonneg d3). pose proof (len_nonneg d5).
    pose proof (len_nonneg d6). fmt_lia. }
  rewrite EP in Sum. rewrite Hw5 in Sum.
  destruct (layout_at pre bs 0 cs1 _ Hwf Hti Hfpre Hvcs1 Hl7 Sum HG)
    as (b & post & more & Ebs & Eb & Hmore & Htp).
  destruct more as [|ch cs2]; [congruence|].
  (* the records from there on *)
  specialize (HL [] [] eq_refl). rewrite !app_nil_r in HL.
  assert (Has' : assemble None ((chunks_of done ++ cs)
                                ++ (ch :: cs2 ++ chunks_of post))
                 = Some ((rs ++ [p]) ++ rs')).
  { rewrite <- Has, Ebs, chunks_of_app, <- Ecs.
    change (chunks_of (b :: post)) with (b_chunks b ++ chunks_of post).
    rewrite Eb, <- !app_assoc. reflexivity. }
  destruct (assemble_app _ _ _ _ _ HL Has') as (l' & El & Eq).
  rewrite <- app_assoc in Eq. apply app_inv_head in Eq. cbn [app] in Eq.
  subst l'.
  exists (resink c1 (encBlocks crc done) 0), (resink c3 s3 k3),
    pre, b, post, cs1, ch, cs2.
  splits; auto.
  - cbn [resink w_lastRecordOffset]. rewrite Hlro3, Hlro, B1, Hbn2.
    rewrite wrap64_offset, <- HlenP, EP, len_app. reflexivity.
  - rewrite Hfinal, Hw5, Ebs. reflexivity.
  - now rewrite <- Ebs.
Qed.

Lemma LastRecordOffset_of (w : Writer (list byte)) x :
  w_err w = None -> w_lastRecordOffset w = wrap64 x -> 0 <= x < 2 ^ 63 ->
  LastRecordOffset w = (x, None).
Proof.
  intros He Ho Hx. unfold LastRecordOffset. rewrite He, Ho, wrap64_small by lia.
  destruct (Z.ltb_spec x 0); [lia|reflexivity].
Qed.

(** X12. After the records [rs], the [Write] that starts a record sets
    the offset that [LastRecordOffset] returns to the length of the
    stream of [rs], or to the start of the next block when fewer than
    [headerSize] bytes are left in the block; [Finish] keeps it. *)
Theorem LastRecordOffset_start rs p :
  recordStart (len (emitted crc rs)) < 2 ^ 63 ->
  exists w1 w2 w3,
    writeRecords crc rs (NewWriter (@nil byte)) = Ok w1 /\
    Write crc p w1 = Ok (w2, (len p, None)) /\
    LastRecordOffset w2 = (recordStart (len (emitted crc rs)), None) /\
    Finish crc w2 = Ok (w3, None) /\
    LastRecordOffset w3 = (recordStart (len (emitted crc rs)), None).
Proof.
  intros Hb.
  destruct (Write_starts rs p [])
    as (w1 & w2 & pre & b & post & cs1 & ch & cs2 & E1 & E2 & He2 & Ho & Hrs
        & _).
  rewrite Hrs in Ho.
  assert (H0 : 0 <= recordStart (len (emitted crc rs))).
  { rewrite <- Hrs. pose proof (len_nonneg (encBlocks crc pre)).
    pose proof (len_nonneg (encChunks crc cs1)). lia. }
  destruct (writeRecords_idle crc rs _ [] (NewWriter_idle crc))
    as (w1' & E1' & HI1).
  rewrite E1 in E1'. injection E1' as <-. cbn [app] in HI1.
  destruct (Write_idle crc p _ rs HI1) as (w2' & E2' & HO2).
  rewrite E2 in E2'. injection E2' as <-.
  destruct (Finish_open crc _ rs p HO2) as (w3 & E3 & _).
  destruct (Finish_offset _ _ _ E3) as [Ho3 He3].
  exists w1, w2, w3. splits; auto.
  - apply LastRecordOffset_of; [exact He2|exact Ho|lia].
  - apply LastRecordOffset_of; [congruence|congruence|lia].
Qed.

(** X13. The offset that [LastRecordOffset] returns once a record is
    begun is where [SeekRecord] finds it: whatever is written after
    it, on the stream that [Close] leaves, a reader sent to that
    offset returns this record and those written after it, then
    [EOF]. *)
Theorem LastRecordOffset_seeks rs p rs' c :
  1 <= c -> recordStart (len (emitted crc rs)) < 2 ^ 63 ->
  exists w1 w2 o,
    writeRecords crc rs (NewWriter (@nil byte)) = Ok w1 /\
    Write crc p w1 = Ok (w2, (len p, None)) /\
    LastRecordOffset w2 = (o, None) /\
    forall r,
      r_err r = None -> s_seekable (r_r r) = true ->
      s_data (r_r r) = emitted crc (rs ++ p :: rs') ->
      len (r_buf r) = blockSize ->
      exists r1 r2,
        SeekRecord crc o r = (r1, None) /\
        readRecords crc (S (length rs')) c r1 = (r2, (p :: rs', None)) /\
        snd (Next crc r2) = (None, Some EOF).
Proof.
  intros Hc Hb.
  destruct (Write_starts rs p rs')
    as (w1 & w2 & pre & b & post & cs1 & ch & cs2 & E1 & E2 & He2 & Ho & Hrs
        & Hfin & Hwf & Ht & Eb & Has).
  assert (H0 : 0 <= len (encBlocks crc pre) + len (encChunks crc cs1)).
  { pose proof (len_nonneg (encBlocks crc pre)).
    pose proof (len_nonneg (encChunks crc cs1)). lia. }
  exists w1, w2, (len (encBlocks crc pre) + len (encChunks crc cs1)).
  splits; auto.
  - apply LastRecordOffset_of; [exact He2|exact Ho|lia].
  - intros r He Hs Hd Hl. rewrite Hfin in Hd.
    destruct (SeekRecord_lands crc r pre b post cs1 ch cs2 Hwf Eb He Hs Hd Hl)
      as (r1 & Er1 & HI1 & He1 & _).
    assert (HR : Reading crc 0 [] r1 (ch :: cs2 ++ chunks_of post)).
    { exists (ch :: cs2), (b_pad b), post. splits; auto.
      apply (tight_leads post (ch :: cs2) (b_pad b) Ht). }
    destruct (readRecords_spec crc 0 [] c Hc (p :: rs') _ r1 HR Has)
      as (r2 & Er2 & HR2).
    exists r1, r2. splits; auto.
    apply Reading_end in HR2. destruct HR2 as [HI2 He2'].
    now rewrite (Next_eof crc r2 HI2 He2').
Qed.

End RecordStarts.

(** * Any sequence of operations *)

Section Operations.
Variable crc : list byte -> Z.

Lemma recordsOf_unflush : forall ops acc,
  recordsOf acc (map unflush ops) = recordsOf acc ops.
Proof.
  induction ops as [|o ops IH]; intros acc; [reflexivity|].
  destruct o; cbn [map unflush recordsOf]; try rewrite !IH; reflexivity.
Qed.

(** [Write] inside a record adds to its payload. *)
Lemma Write_open q w rs rec :
  WOpen crc w rs rec ->
  exists w', Write crc q w = Ok (w', (len q, None)) /\
             WOpen crc w' rs (rec ++ q).
Proof.
  intros HO. unfold Write. rewrite (WOpen_err _ _ _ _ HO).
  assert (Hp : w_pending w = true)
    by now destruct HO as (? & ? & ? & ? & _ & Hp & _).
  unfold startRecord. rewrite Hp. cbn [negb].
  destruct (write_loop_open crc rs (S (length q)) q w rec HO) as (w' & -> & HO');
    [lia|].
  exists w'. split; [reflexivity|exact HO'].
Qed.

Lemma Close_done (w w' : Writer (list byte)) :
  w_pending w = false -> Close crc w = Ok (w', None) ->
  w_err w' = Some ErrClosedWriter /\ w_pending w' = false.
Proof.
  intros Hp. unfold Close, writePending.
  destruct (w_err w) eqn:He; cbn [bind].
  - rewrite He. discriminate.
  - rewrite Hp. cbn [bind io_write memSink]. wsimpl. cbn [w_err].
    intros H. injection H as <-. split; [reflexivity|exact Hp].
Qed.

(** [Close] wherever the writer is: the record under way is finished. *)
Lemma Close_at w rs acc :
  WAt crc w rs acc ->
  exists w' bs,
    Close crc w = Ok (w', None) /\ w_w w' = encBlocks crc bs /\
    wf_blocks crc bs /\ tight 0 bs /\
    assemble None (chunks_of bs)
    = Some (rs ++ match acc with Some a => [a] | None => [] end) /\
    w_err w' = Some ErrClosedWriter /\ w_pending w' = false.
Proof.
  assert (G : forall w0 rs0, WIdle crc w0 rs0 ->
    exists w' bs,
      Close crc w0 = Ok (w', None) /\ w_w w' = encBlocks crc bs /\
      wf_blocks crc bs /\ tight 0 bs /\
      assemble None (chunks_of bs) = Some rs0 /\
      w_err w' = Some ErrClosedWriter /\ w_pending w' = false).
  { intros w0 rs0 HI.
    destruct (Close_idle crc w0 rs0 HI) as (w' & bs & E & Es & Hw & Ht & Ha).
    assert (Hp : w_pending w0 = false)
      by now destruct HI as (? & ? & _ & Hp & _).
    destruct (Close_done w0 w' Hp E) as [He' Hp'].
    exists w', bs. splits; auto. }
  destruct acc as [a|]; cbn [WAt]; intros H.
  - destruct (Finish_open crc w rs a H) as (w3 & E3 & HI3).
    destruct (G w3 _ HI3) as (w' & bs & E & R).
    exists w', bs. split; [|exact R].
    unfold Close.
    rewrite (writePending_Finish crc w w3 None (WOpen_err _ _ _ _ H) E3).
    exact E.
  - rewrite app_nil_r. now apply G.
Qed.

Lemma apply_op_closed o (w : Writer (list byte)) e :
  w_err w = Some e -> w_pending w = false -> apply_op crc o w = Ok w.
Proof.
  intros He Hp. destruct o; cbn [apply_op].
  - unfold Write. now rewrite He.
  - unfold Finish. now rewrite Hp.
  - unfold Flush, writePending. rewrite He. cbn [bind]. now rewrite He.
  - unfold Sync, Flush, writePending. rewrite He. cbn [bind]. now rewrite He.
  - unfold Close, writePending. rewrite He. cbn [bind]. now rewrite He.
  - reflexivity.
Qed.

Lemma run_ops_closed ops (w : Writer (list byte)) e :
  w_err w = Some e -> w_pending w = false -> run_ops crc ops w = Ok w.
Proof.
  intros He Hp. induction ops as [|o ops IH]; [reflexivity|].
  cbn [run_ops]. now rewrite (apply_op_closed o w e He Hp).
Qed.

(** [Write], [Finish], [Close] and [LastRecordOffset] in any order,
    then [Close]: the stream is laid out in blocks and its chunks make
    the records of the operations. *)
Lemma run_ops_layout : forall ops w rs acc,
  WAt crc w rs acc ->
  exists w' e bs,
    (w1 <- run_ops crc (map unflush ops) w ;; Close crc w1) = Ok (w', e) /\
    w_w w' = encBlocks crc bs /\ wf_blocks crc bs /\ tight 0 bs /\
    assemble None (chunks_of bs) = Some (rs ++ recordsOf acc ops).
Proof.
  induction ops as [|o ops IH]; intros w rs acc HA.
  - destruct (Close_at w rs acc HA) as (w' & bs & E & Es & Hw & Ht & Ha & _).
    exists w', None, bs. cbn [map run_ops bind recordsOf]. splits; auto.
  - assert (Fin : forall o', unflush o' = OpFinish ->
              recordsOf acc (o' :: ops)
              = match acc with
                | Some a => a :: recordsOf None ops
                | None => recordsOf None ops
                end ->
              exists w' e bs,
                (w1 <- run_ops crc (map unflush (o' :: ops)) w ;; Close crc w1)
                = Ok (w', e) /\
                w_w w' = encBlocks crc bs /\ wf_blocks crc bs /\ tight 0 bs /\
                assemble None (chunks_of bs)
                = Some (rs ++ recordsOf acc (o' :: ops))).
    { intros o' Eo Er. rewrite Er. cbn [map run_ops]. rewrite Eo.
      cbn [apply_op]. destruct acc as [a|]; cbn [WAt] in HA.
      - destruct (Finish_open crc w rs a HA) as (w3 & -> & HI3).
        cbn [bind]. destruct (IH w3 _ None HI3) as (w' & e & bs & E & R).
        exists w', e, bs. split; [exact E|].
        now rewrite <- app_assoc in R.
      - rewrite (Finish_idle crc w rs HA). cbn [bind].
        exact (IH w rs None HA). }
    destruct o.
    + cbn [map unflush run_ops apply_op recordsOf].
      destruct acc as [a|]; cbn [WAt] in HA.
      * destruct (Write_open p w rs a HA) as (w1 & -> & HO).
        cbn [bind]. exact (IH w1 rs (Some (a ++ p)) HO).
      * destruct (Write_idle crc p w rs HA) as (w1 & -> & HO).
        cbn [bind]. exact (IH w1 rs (Some p) HO).
    + apply Fin; reflexivity.
    + apply Fin; reflexivity.
    + apply Fin; reflexivity.
    + cbn [map unflush run_ops apply_op recordsOf].
      destruct (Close_at w rs acc HA)
        as (w1 & bs & -> & Es & Hw & Ht & Ha & He1 & Hp1).
      cbn [bind]. rewrite (run_ops_closed _ w1 _ He1 Hp1). cbn [bind].
      exists w1, (Some ErrClosedWriter), bs. splits; auto.
      unfold Close, writePending. rewrite He1. cbn [bind]. now rewrite He1.
    + cbn [map unflush run_ops apply_op recordsOf bind].
      exact (IH w rs acc HA).
Qed.

(** X14. Whatever the operations on a writer over a sink in memory,
    once it is closed the sink reads back as the records of those
    operations: for each run of [Write]s up to a [Finish], [Flush],
    [Sync] or [Close], one record that is the payloads joined; [Next]
    then returns [EOF]. *)
Theorem operations_read_back (ops : list op) (c : Z) (seekable : bool) :
  1 <= c ->
  exists w e,
    (w1 <- run_ops crc ops (NewWriter (@nil byte)) ;; Close crc w1)
    = Ok (w, e) /\
    exists r,
      readRecords crc (length (recordsOf None ops)) c
        (NewReader (mkSource (w_w w) 0 seekable))
      = (r, (recordsOf None ops, None)) /\
      snd (Next crc r) = (None, Some EOF).
Proof.
  intros Hc.
  destruct (run_ops_layout ops _ [] None (NewWriter_idle crc))
    as (wB' & eB & bs & EB0 & Es & Hw & Ht & Ha).
  cbn [app] in Ha.
  destruct NewWriter_core as (HC0 & HK0 & E0).
  destruct (run_ops_core crc ops _ HC0) as (c1 & d1 & HC1 & S1).
  destruct (S1 [] 0 HK0) as [(sA & kA & EA & GA) (sB & kB & EB & GB)].
  rewrite E0 in EA, EB.
  destruct (Close_core crc c1 HC1) as (c2 & d2 & HC2 & S2).
  destruct (S2 sA kA ltac:(apply GA)) as (sA' & EA' & (_ & SumA' & _)).
  destruct (S2 sB kB ltac:(apply GB)) as (sB' & EB' & (_ & SumB' & _)).
  rewrite EB in EB0. cbn [bind] in EB0. rewrite EB' in EB0.
  injection EB0 as <- <-. cbn [resink w_w] in Es.
  exists (resink c2 sA' (lim c2)), (w_err c1).
  rewrite EA. cbn [bind]. split; [exact EA'|].
  destruct GA as (_ & SumA & _). destruct GB as (_ & SumB & _).
  rewrite slice_empty, app_nil_r in SumA', SumB'.
  assert (Esink : w_w (resink c2 sA' (lim c2)) = encBlocks crc bs).
  { cbn [resink w_w]. rewrite SumA', SumA, <- SumB, <- SumB'. exact Es. }
  rewrite Esink.
  exact (read_stream crc bs _ c seekable Hw Ht Ha Hc).
Qed.

End Operations.

(** * A record cut short by the end of the stream *)

Section OpenRecords.
Variable crc : list byte -> Z.

Lemma tailOf_app : forall cs p cs' more,
  tailOf cs = Some (p, cs') -> tailOf (cs ++ more) = Some (p, cs' ++ more).
Proof.
  induction cs as [|c cs IH]; intros p cs' more H; [discriminate|].
  cbn [app tailOf] in *. destruct (is_last c).
  - injection H as <- <-. reflexivity.
  - destruct (tailOf cs) as [[p1 rest]|] eqn:Et; [|discriminate].
    injection H as <- <-. now rewrite (IH p1 rest more eq_refl).
Qed.

(** With the current chunk used up, the loop of [Read] moves on to the
    next chunk that has payload; when the stream ends before the record
    does, it stores [EOF] and returns it. *)
Lemma readLoop_open : forall ms r,
  Reading crc 0 [] r ms -> r_i r = r_j r -> r_last r = false ->
  Forall (fun m => is_last m = false) ms ->
  exists r',
    r_seq r' = r_seq r /\
    ((concat (map c_data ms) = [] /\ readLoop crc r = (r', Some EOF) /\
      r_err r' = Some EOF) \/
     (exists u ms',
        u <> [] /\ readLoop crc r = (r', None) /\ at_chunk r' u false /\
        concat (map c_data ms) = u ++ concat (map c_data ms') /\
        Reading crc 0 [] r' ms' /\
        Forall (fun m => is_last m = false) ms' /\
        (x_measure (r', []) < r_measure r)%nat)).
Proof.
  induction ms as [|m ms IH]; intros r HR Hij Hlast Hms.
  - destruct (Reading_end crc 0 [] r HR) as [HI He].
    exists (set_r_err (Some EOF) r). split; [reflexivity|]. left.
    splits; auto.
    rewrite readLoop_unfold. unfold readStep.
    rewrite Hij, Z.eqb_refl, Hlast, (nextChunk_eof crc false r HI).
    reflexivity.
  - inversion Hms as [|m0 l0 Hm Hms']; subst.
    destruct (nextChunk_reading crc 0 [] false r m ms HR)
      as (r1 & E & HR1 & Hat & Hq & Hs); [discriminate|].
    rewrite Hm in Hat.
    pose proof (nextChunk_success_x crc _ _ _ [] E) as Hmeas.
    pose proof (at_chunk_measure _ _ _ [] Hat) as Hxm.
    set (r1' := set_r_err None r1).
    assert (HR1' : Reading crc 0 [] r1' ms)
      by (eapply Reading_ext; try exact HR1; try reflexivity; auto).
    assert (Hat' : at_chunk r1' (c_data m) false)
      by (eapply at_chunk_ext; try exact Hat; reflexivity).
    assert (Estep : readStep crc r = Continue r1').
    { unfold readStep. rewrite Hij, Z.eqb_refl, Hlast, E. reflexivity. }
    assert (Eunf : readLoop crc r = readLoop crc r1')
      by (rewrite readLoop_unfold, Estep; reflexivity).
    rewrite Eunf. cbn [map concat].
    pose proof Hat' as (Hi & Hj & Hn & Hsl & Hl).
    destruct (c_data m) as [|b u'] eqn:Ed.
    + change (len []) with 0 in Hj.
      destruct (IH r1' HR1') as (r' & Hq' & Hres); [lia|exact Hl|exact Hms'|].
      exists r'. split; [cbn in Hq'; congruence|].
      destruct Hres as [H|(u & ms' & Hu & El & Hat2 & Ec & HR2 & Hms2 & Hlt)].
      * left. exact H.
      * right. exists u, ms'. splits; auto.
        unfold x_measure, r_measure in *.
        cbn [fst r1' set_r_err r_r r_n r_i r_j] in *.
        cbn [length] in Hxm. lia.
    + exists r1'. split; [exact Hq|]. right. exists (b :: u'), ms.
      assert (Hne : (r_i r1' =? r_j r1') = false).
      { apply Z.eqb_neq. rewrite Hj, len_cons. pose proof (len_nonneg u'). lia. }
      splits; auto.
      * discriminate.
      * rewrite readLoop_unfold. unfold readStep. now rewrite Hne.
      * unfold x_measure, r_measure in *.
        cbn [fst r1' set_r_err r_r r_n r_i] in *. lia.
Qed.

(** The loop of [ReadAll] on a record that the stream leaves
    unfinished: what there is of it is delivered, with no error. *)
Lemma ReadAll_open_loops x c : 1 <= c -> forall k r acc u ms,
  (x_measure (r, acc) <= k)%nat ->
  at_chunk r u false -> Reading crc 0 [] r ms ->
  Forall (fun m => is_last m = false) ms -> r_seq r = x_seq x ->
  exists r',
    loops_to (readAllStep crc x c) x_measure (r, acc)
      (r', (acc ++ u ++ concat (map c_data ms), None)) /\
    r_err r' = Some EOF.
Proof.
  intros Hc. induction k as [k IH] using lt_wf_ind.
  intros r acc u ms Hk Hat HR Hms Hq.
  pose proof (Reading_err crc 0 [] r ms HR) as He.
  pose proof (at_chunk_measure _ _ _ acc Hat) as Hxm.
  assert (Hset : forall i, Reading crc 0 [] (set_r_i i r) ms).
  { intros i. eapply Reading_ext; try exact HR; try reflexivity; auto. }
  destruct u as [|b u].
  - pose proof Hat as (Hi & Hj & Hn & Hs & Hl). change (len []) with 0 in Hj.
    destruct (readLoop_open ms r HR) as (r' & Hq' & Hres); auto; [lia|].
    destruct Hres as [(Ec & El & He')
                     |(u1 & ms' & Hu1 & El & Hat' & Ec & HR' & Hms' & Hlt)].
    + exists r'. split; [|exact He'].
      apply loops_return. unfold readAllStep, Read.
      rewrite Hq, Z.eqb_refl, He, El, Ec. reflexivity.
    + pose proof (Reading_err crc 0 [] r' ms' HR') as He'.
      destruct (Read_in_chunk crc x c r' u1 false Hat' Hu1) as (_ & Hat1 & Hkk);
        auto; [congruence|].
      set (kk := Z.min c (len u1)) in *.
      set (r1 := set_r_i (r_i r' + kk) r') in *.
      pose proof (at_chunk_measure _ _ _ (acc ++ firstn (Z.to_nat kk) u1) Hat1)
        as Hxm1.
      pose proof (at_chunk_measure _ _ _ [] Hat') as Hxm'.
      assert (Hlen : (length (skipn (Z.to_nat kk) u1) < length u1)%nat).
      { rewrite length_skipn. unfold len in Hkk. lia. }
      assert (Hr1 : r_measure r1 = r_measure r') by reflexivity.
      cbn [length] in Hxm.
      assert (HR1 : Reading crc 0 [] r1 ms')
        by (eapply Reading_ext; try exact HR'; try reflexivity; auto).
      assert (Hq1 : r_seq r1 = x_seq x) by (cbn; congruence).
      destruct (IH (x_measure (r1, acc ++ firstn (Z.to_nat kk) u1))
                  ltac:(lia) r1 (acc ++ firstn (Z.to_nat kk) u1)
                  (skipn (Z.to_nat kk) u1) ms' (le_n _) Hat1 HR1 Hms' Hq1)
        as (r2 & Hloop & He2).
      exists r2. split; [|exact He2].
      eapply loops_continue; [| |].
      * unfold readAllStep, Read.
        rewrite Hq, Z.eqb_refl, He, El. cbn [negb].
        destruct Hat' as (_ & _ & _ & -> & _). fold kk. fold r1.
        reflexivity.
      * lia.
      * cbn [app]. rewrite Ec.
        rewrite <- !app_assoc in Hloop.
        rewrite (app_assoc (firstn _ _)), firstn_skipn in Hloop.
        exact Hloop.
  - destruct (Read_in_chunk crc x c r (b :: u) false Hat) as (E & Hat1 & Hkk);
      auto; [discriminate|].
    set (kk := Z.min c (len (b :: u))) in *.
    set (r1 := set_r_i (r_i r + kk) r) in *.
    pose proof (at_chunk_measure _ _ _ (acc ++ firstn (Z.to_nat kk) (b :: u)) Hat1)
      as Hxm1.
    assert (Hlen : (length (skipn (Z.to_nat kk) (b :: u)) < length (b :: u))%nat).
    { rewrite length_skipn. unfold len in Hkk. lia. }
    assert (Hr1 : r_measure r1 = r_measure r) by reflexivity.
    destruct (IH (x_measure (r1, acc ++ firstn (Z.to_nat kk) (b :: u)))
                ltac:(lia) r1 (acc ++ firstn (Z.to_nat kk) (b :: u))
                (skipn (Z.to_nat kk) (b :: u)) ms (le_n _) Hat1 (Hset _) Hms Hq)
      as (r2 & Hloop & He2).
    exists r2. split; [|exact He2].
    eapply loops_continue; [| |].
    + unfold readAllStep. rewrite E. reflexivity.
    + lia.
    + rewrite <- !app_assoc in Hloop.
      rewrite (app_assoc (firstn _ _)), firstn_skipn in Hloop.
      exact Hloop.
Qed.

Lemma ReadAll_open x c r u ms :
  1 <= c -> at_chunk r u false -> Reading crc 0 [] r ms ->
  Forall (fun m => is_last m = false) ms -> r_seq r = x_seq x ->
  exists r',
    ReadAll crc x c r = (r', (u ++ concat (map c_data ms), None)) /\
    r_err r' = Some EOF.
Proof.
  intros Hc Hat HR Hms Hq.
  destruct (ReadAll_open_loops x c Hc (x_measure (r, [])) r [] u ms)
    as (r' & Hloop & He); auto.
  exists r'. split; [|exact He].
  unfold ReadAll. rewrite (loops_to_run _ _ _ _ Hloop) by lia. reflexivity.
Qed.

(** The records before the unfinished one are read as ever. *)
Lemma readRecords_open c : 1 <= c -> forall rs cs r f ms,
  Reading crc 0 [] r (cs ++ f :: ms) -> assemble None cs = Some rs ->
  is_first f = true -> is_last f = false ->
  Forall (fun m => is_last m = false) ms ->
  exists r',
    readRecords crc (S (length rs)) c r
    = (r', (rs ++ [c_data f ++ concat (map c_data ms)], None)) /\
    r_err r' = Some EOF.
Proof.
  intros Hc. induction rs as [|rec rs IH]; intros cs r f ms HR Ha Hf Hl Hms.
  - apply assemble_nil in Ha. subst cs. cbn [app] in HR.
    destruct (Next_found crc 0 [] r f ms HR Hf)
      as (r1 & EN & HR1 & Hat & Hq & Hs).
    rewrite Hl in Hat.
    destruct (ReadAll_open (mkSingleReader (r_seq r + 1)) c r1 (c_data f) ms
                Hc Hat HR1 Hms Hq)
      as (r2 & ER & He2).
    exists r2. split; [|exact He2].
    cbn [length readRecords app]. rewrite EN, ER. reflexivity.
  - destruct cs as [|ch cs]; [discriminate|].
    destruct (assemble_head _ _ _ Ha) as (Hfc & p & cs' & rs' & E & Hr & Hrest).
    injection E as -> <-. cbn [app] in HR.
    destruct (Next_found crc 0 [] r ch (cs ++ f :: ms) HR Hfc)
      as (r1 & EN & HR1 & Hat & Hq & Hs).
    destruct (ReadAll_spec crc 0 [] (mkSingleReader (r_seq r + 1)) c r1
                (c_data ch) (is_last ch) p (cs' ++ f :: ms) Hc Hat)
      as (r2 & ER & HR2 & _ & _).
    { unfold Rest. destruct (is_last ch).
      - destruct Hrest as [-> ->]. split; [reflexivity|exact HR1].
      - exists (cs ++ f :: ms). split; [exact HR1|now apply tailOf_app]. }
    { exact Hq. }
    destruct (IH cs' r2 f ms HR2 Hr Hf Hl Hms) as (r3 & E3 & He3).
    exists r3. split; [|exact He3].
    cbn [length app]. revert E3. generalize (S (length rs)). intros k E3.
    cbn [readRecords]. rewrite EN, ER, E3. reflexivity.
Qed.

(** X15. A stream that ends at a chunk boundary inside a record, after
    its [FIRST] chunk and any number of [MIDDLE] chunks, is read with
    no error: [Next] and [ReadAll] return the records before it, then
    the unfinished record as the payloads the stream has of it, and
    then [Next] returns [EOF]. *)
Theorem open_record_delivered bs cs f ms rs c seekable :
  1 <= c -> wf_blocks crc bs -> tight 0 bs ->
  chunks_of bs = cs ++ f :: ms -> assemble None cs = Some rs ->
  c_type f = firstChunkType ->
  Forall (fun m => c_type m = middleChunkType) ms ->
  exists r,
    readRecords crc (S (length rs)) c
      (NewReader (mkSource (encBlocks crc bs) 0 seekable))
    = (r, (rs ++ [c_data f ++ concat (map c_data ms)], None)) /\
    snd (Next crc r) = (None, Some EOF).
Proof.
  intros Hc Hw Ht Ecs Ha Hf Hms.
  pose proof (NewReader_reading crc bs seekable Hw Ht) as HR.
  rewrite Ecs in HR.
  assert (Hms' : Forall (fun m => is_last m = false) ms).
  { eapply Forall_impl; [|exact Hms]. intros m Hm. unfold is_last.
    rewrite Hm. reflexivity. }
  destruct (readRecords_open c Hc rs cs _ f ms HR Ha) as (r & E & He); auto.
  - unfold is_first. rewrite Hf. reflexivity.
  - unfold is_last. rewrite Hf. reflexivity.
  - exists r. split; [exact E|].
    unfold Next. cbn [set_r_seq r_err]. now rewrite He.
Qed.

End OpenRecords.

(** * What [Next] hands out *)

Section Verified.
Variable crc : list byte -> Z.

(** X16. Whatever the source holds, a source of payload returned by
    [Next] is on a chunk that lies within the bytes read, whose header
    carries the checksum of its type and payload, and whose type is
    [FULL] or [FIRST]; no error is stored and the reader is not
    recovering any more. *)
Theorem Next_verified r r' x :
  Next crc r = (r', (Some x, None)) ->
  x_seq x = r_seq r' /\ r_err r' = None /\ r_started r' = true /\
  exists h,
    in_verified_chunk crc r' h /\
    (byte.unsigned (at_ (r_buf r') (h + 6)) = fullChunkType \/
     byte.unsigned (at_ (r_buf r') (h + 6)) = firstChunkType).
Proof.
  unfold Next. cbn [set_r_seq r_err].
  destruct (r_err r); [discriminate|].
  destruct (nextChunk crc true _) as [r1 [e|]] eqn:E;
    cbn [set_r_err r_err]; [discriminate|].
  intros H. injection H as <- <-. rsimpl. splits; auto.
  destruct (nextChunk_verified crc true _ r1 E) as (h & Hv & Ht).
  exists h. split; [exact Hv|now apply Ht].
Qed.

End Verified.

(** * Records left unread *)

Section Selected.
Variable crc : list byte -> Z.

(** The chunks after the first one of a record: those that continue
    it, then the chunks of the records that follow. *)
Lemma assemble_rest : forall cs a l,
  assemble (Some a) cs = Some l ->
  exists skip cs' rec rs,
    cs = skip ++ cs' /\ Forall (fun k => is_first k = false) skip /\
    l = rec :: rs /\ assemble None cs' = Some rs.
Proof.
  induction cs as [|c cs IH]; intros a l H; [discriminate|].
  cbn [assemble] in H.
  destruct (Z.eqb_spec (c_type c) middleChunkType) as [Em|Em].
  - destruct (IH _ _ H) as (skip & cs' & rec & rs & -> & Hs & -> & Hr).
    exists (c :: skip), cs', rec, rs. splits; auto.
    apply Forall_cons; [|exact Hs]. unfold is_first. now rewrite Em.
  - destruct (Z.eqb_spec (c_type c) lastChunkType) as [El|El]; [|discriminate].
    destruct (assemble None cs) as [rs|] eqn:Er; [|discriminate].
    injection H as <-. exists [c], cs, (a ++ c_data c), rs. splits; auto.
    apply Forall_cons; [|apply Forall_nil]. unfold is_first. now rewrite El.
Qed.

Lemma assemble_next c cs rec rs :
  assemble None (c :: cs) = Some (rec :: rs) ->
  exists skip cs',
    cs = skip ++ cs' /\ Forall (fun k => is_first k = false) skip /\
    assemble None cs' = Some rs.
Proof.
  cbn [assemble].
  destruct (c_type c =? fullChunkType).
  - destruct (assemble None cs) as [rs0|] eqn:Er; [|discriminate].
    intros H. injection H as _ <-. exists [], cs. splits; auto.
  - destruct (c_type c =? firstChunkType); [|discriminate].
    intros H.
    destruct (assemble_rest _ _ _ H) as (skip & cs' & rec' & rs' & E & Hs & El
                                         & Hr).
    injection El as _ <-. exists skip, cs'. auto.
Qed.

(** Seeking a record start where only chunks that continue a record
    are left, [nextChunk] reaches the end of the stream. *)
Lemma nextChunk_seek_eof : forall skip r todo pad later,
  RInv crc r todo pad later -> r_err r = None ->
  leads todo pad later skip 0 [] ->
  Forall (fun k => is_first k = false) skip ->
  exists r', nextChunk crc true r = (r', Some EOF).
Proof.
  induction skip as [|k skip IH]; intros r todo pad later HI He Hl Hs.
  - apply leads_end in Hl. destruct Hl as (-> & <- & <-).
    exists r. now apply nextChunk_eof.
  - inversion Hs as [|? ? Hk Hs']; subst.
    assert (Hcond : true && negb (is_first k) = true) by now rewrite Hk.
    destruct todo as [|c0 todo].
    + apply leads_next in Hl.
      destruct Hl as (b & later' & t1 & -> & Hpad & Eb & Hl).
      destruct (RInv_cross crc true r pad b later' HI Hpad) as [E1 HI1].
      { apply encBlock_not_nil. rewrite Eb. discriminate. }
      rewrite Eb in HI1.
      destruct (RInv_parse crc true _ _ _ _ _ HI1) as (E2 & _ & HI2 & _).
      rewrite Hcond in E2.
      destruct (IH _ _ _ _ HI2 He Hl Hs') as (r' & E).
      exists r'. rewrite nextChunk_unfold, E1, nextChunk_unfold, E2. exact E.
    + apply leads_cons in Hl. destruct Hl as [E0 Hl]. subst c0.
      destruct (RInv_parse crc true _ _ _ _ _ HI) as (E2 & _ & HI2 & _).
      rewrite Hcond in E2.
      destruct (IH _ _ _ _ HI2 He Hl Hs') as (r' & E).
      exists r'. rewrite nextChunk_unfold, E2. exact E.
Qed.

Lemma Next_seek_eof r skip :
  Reading crc 0 [] r skip -> Forall (fun k => is_first k = false) skip ->
  snd (Next crc r) = (None, Some EOF).
Proof.
  intros (todo & pad & later & HI & Hl & He) Hs.
  set (r0 := set_r_i (r_j r) (set_r_seq (r_seq r + 1) r)).
  assert (HI0 : RInv crc r0 todo pad later).
  { eapply RInv_ext; try exact HI; try reflexivity; auto. }
  destruct (nextChunk_seek_eof skip r0 todo pad later HI0 He Hl Hs) as (r' & E).
  unfold Next. cbn [set_r_seq r_err]. rewrite He.
  change (set_r_i (r_j (set_r_seq (r_seq r + 1) r)) (set_r_seq (r_seq r + 1) r))
    with r0.
  rewrite E. reflexivity.
Qed.

(** After the chunks [skip] that are left of a record not read to its
    end, the records are read or passed over as [sel] tells. *)
Lemma readSelected_spec c : 1 <= c -> forall rs sel cs skip r,
  Reading crc 0 [] r (skip ++ cs) ->
  Forall (fun k => is_first k = false) skip ->
  assemble None cs = Some rs -> length sel = length rs ->
  exists r' skip',
    readSelected crc sel c r = (r', (selected sel rs, None)) /\
    Reading crc 0 [] r' skip' /\
    Forall (fun k => is_first k = false) skip'.
Proof.
  intros Hc. induction rs as [|rec rs IH]; intros sel cs skip r HR Hs Ha Hlen.
  - apply assemble_nil in Ha. subst cs. rewrite app_nil_r in HR.
    destruct sel; [|discriminate]. exists r, skip. splits; auto.
  - destruct sel as [|b sel]; [discriminate|]. injection Hlen as Hlen.
    destruct cs as [|ch cs]; [discriminate|].
    destruct (assemble_head _ _ _ Ha) as (Hf & p & cs' & rs' & E & Hr & Hrest).
    injection E as -> <-.
    destruct HR as (todo & pad & later & HI & Hl & He).
    destruct (Next_seek crc 0 [] r skip ch cs todo pad later HI He Hl Hs Hf)
      as (r1 & x & EN & Hq & HR1 & Hat).
    cbn [readSelected selected]. rewrite EN. destruct b.
    + destruct (ReadAll_spec crc 0 [] x c r1 (c_data ch) (is_last ch) p cs'
                  Hc Hat)
        as (r2 & ER & HR2 & _ & _).
      { unfold Rest. destruct (is_last ch).
        - destruct Hrest as [-> ->]. split; [reflexivity|exact HR1].
        - exists cs. split; assumption. }
      { exact Hq. }
      destruct (IH sel cs' [] r2 HR2 (Forall_nil _) Hr Hlen)
        as (r3 & skip3 & E3 & HR3 & Hs3).
      exists r3, skip3. rewrite ER, E3. splits; auto.
    + destruct (assemble_next _ _ _ _ Ha) as (skip1 & cs1 & -> & Hs1 & Hr1).
      exact (IH sel cs1 skip1 r1 HR1 Hs1 Hr1 Hlen).
Qed.

(** X17. It is valid to call [Next] without reading the current
    record: on the stream of the records [rs], with one [Next] per
    record and only the records that [sel] marks read to their end,
    the marked records are returned in order, the others are passed
    over, and [Next] then returns [EOF]. *)
Theorem unread_records_skipped (rs : list (list byte)) (sel : list bool)
    (c : Z) (seekable : bool) :
  1 <= c -> length sel = length rs ->
  exists r,
    readSelected crc sel c
      (NewReader (mkSource (emitted crc rs) 0 seekable))
    = (r, (selected sel rs, None)) /\
    snd (Next crc r) = (None, Some EOF).
Proof.
  intros Hc Hlen.
  destruct (writeRecords_idle crc rs _ [] (NewWriter_idle crc))
    as (w0 & E0 & HI).
  destruct (Close_idle crc w0 _ HI) as (w & bs & Ec & Es & Hw & Ht & Ha).
  cbn [app] in Ha.
  assert (Eem : emitted crc rs = encBlocks crc bs).
  { unfold emitted, writeAll. rewrite E0. cbn [bind]. now rewrite Ec. }
  rewrite Eem.
  pose proof (NewReader_reading crc bs seekable Hw Ht) as HR.
  destruct (readSelected_spec c Hc rs sel (chunks_of bs) [] _ HR
              (Forall_nil _) Ha Hlen)
    as (r & skip & E & HR' & Hs).
  exists r. split; [exact E|]. now apply (Next_seek_eof r skip).
Qed.

End Selected.

(** * A failed checksum while recovering *)

Section Resync.
Variable crc : list byte -> Z.

Lemma len_rawChunk ck t p : len (rawChunk ck t p) = headerSize + len p.
Proof.
  unfold rawChunk. rewrite !len_app, !len_le_split, len_cons.
  unfold headerSize. lia.
Qed.

Lemma raw_header_fields buf j ck t p :
  holds buf j (rawChunk ck t p) ->
  0 <= ck < 2 ^ 32 -> 0 <= t < 256 -> len p < 2 ^ 16 ->
  le_combine (slice buf (j + 0) (j + 4)) = ck /\
  le_combine (slice buf (j + 4) (j + 6)) = len p /\
  byte.unsigned (at_ buf (j + 6)) = t /\
  slice buf (j + headerSize - 1) (j + headerSize + len p) = byte.of_Z t :: p.
Proof.
  intros H Hck Ht Hl. unfold rawChunk in H.
  pose proof (holds_app_l _ _ _ _ H) as H4.
  pose proof (holds_app_r _ _ _ _ H) as H'. rewrite len_le_split in H'.
  pose proof (holds_app_l _ _ _ _ H') as H2.
  pose proof (holds_app_r _ _ _ _ H') as H3. rewrite len_le_split in H3.
  unfold headerSize.
  splits.
  - rewrite Z.add_0_r, (holds_slice _ _ _ _ H4) by (rewrite len_le_split; lia).
    rewrite le_combine_split. apply Z.mod_small.
    change (2 ^ (Z.of_nat 4 * 8)) with (2 ^ 32). exact Hck.
  - replace (j + 4) with (j + Z.of_nat 4) by lia.
    rewrite (holds_slice _ _ _ _ H2) by (rewrite len_le_split; lia).
    rewrite le_combine_split. apply Z.mod_small.
    change (2 ^ (Z.of_nat 2 * 8)) with (2 ^ 16).
    pose proof (len_nonneg p). lia.
  - replace (j + 6) with (j + Z.of_nat 4 + Z.of_nat 2) by lia.
    rewrite (holds_at _ _ _ _ H3), byte.unsigned_of_Z.
    unfold byte.wrap. apply Z.mod_small. lia.
  - apply holds_slice.
    + replace (j + 7 - 1) with (j + Z.of_nat 4 + Z.of_nat 2) by lia. exact H3.
    + rewrite len_cons. lia.
Qed.

(** At the end of its block, the reader fetches the next one; the
    chunk at its head has a wrong checksum: it is an error, unless the
    reader is recovering, and then the chunk is passed over. *)
Lemma nextChunk_bad wantFirst r ck t p tail :
  r_err r = None -> r_j r = r_n r ->
  (r_n r = blockSize \/ r_started r = false) ->
  len (r_buf r) = blockSize ->
  0 <= ck < 2 ^ 32 -> 1 <= t < 256 -> len p < 2 ^ 16 ->
  ck <> crcValue crc (byte.of_Z t :: p) ->
  firstn (Z.to_nat blockSize) (s_remaining (r_r r)) = rawChunk ck t p ++ tail ->
  len (rawChunk ck t p ++ tail) <= blockSize ->
  nextChunk crc wantFirst r
  = let r2 := set_r_j (0 + headerSize + len p)
                (set_r_i (0 + headerSize)
                   (fetched r (rawChunk ck t p ++ tail))) in
    if r_recovering r then nextChunk crc wantFirst r2
    else (r2, Some ErrChecksumMismatch).
Proof.
  intros He Hj Hn Hl Hck Ht Hp Hbad Hd Hle.
  set (raw := rawChunk ck t p) in *.
  set (d := raw ++ tail) in *.
  pose proof (len_rawChunk ck t p) as Lraw. fold raw in Lraw.
  pose proof (len_nonneg p) as Hp0. pose proof (len_nonneg tail) as Ht0.
  assert (Ld : len d = len raw + len tail) by (unfold d; now rewrite len_app).
  assert (Hd0 : (len d =? 0) = false)
    by (apply Z.eqb_neq; unfold headerSize in *; lia).
  set (r1 := fetched r d).
  assert (E1 : nextChunkStep crc wantFirst r = Continue r1).
  { unfold nextChunkStep.
    destruct (r_j r + headerSize <=? r_n r) eqn:E;
      [apply Z.leb_le in E; unfold headerSize in E; lia|].
    replace ((r_n r <? blockSize) && r_started r) with false.
    2:{ symmetry. destruct Hn as [Hn|Hn]; rewrite Hn.
        - now rewrite Z.ltb_irrefl.
        - apply andb_false_r. }
    unfold ReadFull. rewrite Hd, Hd0.
    destruct (len d <? blockSize); reflexivity. }
  assert (Hh : holds (r_buf r1) 0 d).
  { unfold r1, fetched. cbn [r_buf]. apply holds_splice; lia. }
  destruct (raw_header_fields (r_buf r1) 0 ck t p) as (F1 & F2 & F3 & F4);
    [exact (holds_app_l _ _ _ _ Hh)|lia|lia|lia|].
  cbv zeta.
  set (r2 := set_r_j (0 + headerSize + len p) (set_r_i (0 + headerSize) r1)).
  rewrite nextChunk_unfold, E1, nextChunk_unfold.
  unfold nextChunkStep.
  replace (r_j r1) with 0 by reflexivity.
  replace (r_n r1) with (len d) by reflexivity.
  destruct (Z.leb_spec (0 + headerSize) (len d)) as [_|Hx];
    [|unfold headerSize in *; lia].
  rewrite F1, F2, F3.
  replace (t =? 0) with false by (symmetry; apply Z.eqb_neq; lia).
  rewrite !andb_false_r. fold r2.
  replace (r_j r2) with (0 + headerSize + len p) by reflexivity.
  replace (r_i r2) with (0 + headerSize) by reflexivity.
  replace (r_n r2) with (len d) by reflexivity.
  replace (r_buf r2) with (r_buf r1) by reflexivity.
  replace (r_recovering r2) with (r_recovering r) by reflexivity.
  destruct (Z.gtb_spec (0 + headerSize + len p) (len d)) as [Hx|_];
    [unfold headerSize in *; lia|].
  rewrite F4.
  replace (ck =? crcValue crc (byte.of_Z t :: p)) with false
    by (symmetry; now apply Z.eqb_neq).
  cbn [negb]. destruct (r_recovering r); [|reflexivity].
  unfold Recover.
  replace (r_err r2) with (@None error) by (symmetry; exact He).
  reflexivity.
Qed.

(** A reader that is recovering, at the end of a full block: the next
    block is fetched, and the chunk at its head, whose checksum is
    wrong, is passed over; the reader goes on with the chunks after
    it in that block. *)
Lemma nextChunk_resync r ck t p b later :
  r_err r = None -> r_recovering r = true ->
  r_j r = blockSize -> r_n r = blockSize -> len (r_buf r) = blockSize ->
  0 <= ck < 2 ^ 32 -> 1 <= t < 256 -> len p < 2 ^ 16 ->
  ck <> crcValue crc (byte.of_Z t :: p) ->
  s_remaining (r_r r) = rawChunk ck t p ++ encBlocks crc (b :: later) ->
  len (rawChunk ck t p ++ encBlock crc b) <= blockSize ->
  (later <> [] -> len (rawChunk ck t p ++ encBlock crc b) = blockSize) ->
  Forall valid_chunk (b_chunks b) -> 0 <= b_pad b -> wf_blocks crc later ->
  exists r2,
    nextChunk crc true r = nextChunk crc true r2 /\
    RInv crc r2 (b_chunks b) (b_pad b) later /\
    r_err r2 = None /\ r_seq r2 = r_seq r.
Proof.
  intros He Hrec Hj Hn Hl Hck Ht Hp Hbad Hs Hle Hfull Hv Hpad Hw.
  set (raw := rawChunk ck t p) in *.
  set (d := raw ++ encBlock crc b) in *.
  pose proof (len_rawChunk ck t p) as Lraw. fold raw in Lraw.
  pose proof (len_nonneg p) as Hp0.
  pose proof (len_nonneg (encBlock crc b)) as Hb0.
  assert (Ld : len d = len raw + len (encBlock crc b))
    by (unfold d; now rewrite len_app).
  assert (Hd : firstn (Z.to_nat blockSize) (s_remaining (r_r r)) = d).
  { rewrite Hs, encBlocks_cons, app_assoc. apply firstn_block; [exact Hle|].
    intros Hy. apply Hfull. intros ->. now apply Hy. }
  pose proof (nextChunk_bad true r ck t p (encBlock crc b) He
                ltac:(lia) (or_introl Hn) Hl Hck Ht Hp Hbad Hd Hle) as E.
  cbv zeta in E. rewrite Hrec in E. fold raw in E. fold d in E.
  set (r1 := fetched r d) in *.
  set (r2 := set_r_j (0 + headerSize + len p) (set_r_i (0 + headerSize) r1))
    in *.
  assert (Hh : holds (r_buf r1) 0 d).
  { unfold r1, fetched. cbn [r_buf]. apply holds_splice; lia. }
  assert (Hbuf1 : len (r_buf r1) = blockSize).
  { unfold r1, fetched. cbn [r_buf]. rewrite len_splice; lia. }
  exists r2. splits.
  - exact E.
  - unfold RInv, r2, r1, fetched. rsimpl. fold r1.
    splits; auto.
    + apply holds_app_r in Hh. rewrite Lraw in Hh. exact Hh.
    + rewrite Ld, Lraw. unfold encBlock. rewrite len_app, len_zeros by lia.
      lia.
    + unfold s_remaining in *. cbn [s_data s_pos].
      rewrite Nat.add_comm, <- skipn_skipn, Hs, encBlocks_cons, app_assoc.
      fold d. rewrite skipn_app, skipn_all2, Nat.sub_diag by lia.
      reflexivity.
  - exact He.
  - reflexivity.
Qed.

Lemma Next_step r :
  r_err r = None ->
  Next crc r
  = match nextChunk crc true (set_r_i (r_j r) (set_r_seq (r_seq r + 1) r)) with
    | (r1, Some e) => (set_r_err (Some e) r1, (None, Some e))
    | (r1, None) =>
        (set_r_started true (set_r_err None r1),
         (Some (mkSingleReader (r_seq r1)), None))
    end.
Proof.
  intros He. unfold Next. cbn [set_r_seq r_err r_j]. rewrite He.
  destruct (nextChunk crc true _) as [r1 [e|]]; reflexivity.
Qed.

(** From a reader in a stream of whole blocks, past the chunks that
    continue a record begun earlier. *)
Lemma resume_reading r todo pad later skip ch cs rs c :
  1 <= c -> RInv crc r todo pad later -> r_err r = None ->
  leads todo pad later (skip ++ ch :: cs) 0 [] ->
  Forall (fun k => is_first k = false) skip ->
  assemble None (ch :: cs) = Some rs ->
  exists r',
    readRecords crc (length rs) c r = (r', (rs, None)) /\
    snd (Next crc r') = (None, Some EOF).
Proof.
  intros Hc HI He Hl Hskip Ha.
  destruct (assemble_head _ _ _ Ha) as (Hf & _).
  destruct (Next_seek crc 0 [] r skip ch cs todo pad later HI He Hl Hskip Hf)
    as (r1 & x & EN & Hq & HR1 & Hat).
  destruct (readRecords_from crc 0 [] c rs cs ch r r1 x Hc EN Hq Hat HR1 Ha)
    as (r2 & E2 & HR2).
  exists r2. split; [exact E2|].
  apply Reading_end in HR2. destruct HR2 as [HI2 He2].
  now rewrite (Next_eof crc r2 HI2 He2).
Qed.

(** X18. A stream whose first block starts with a chunk that fails its
    checksum: [Next] returns the checksum error, whatever else the
    block holds; after [Recover] the rest of that block is dropped and
    [Next] returns the records that start in the blocks after it, then
    [EOF]. *)
Theorem corrupt_chunk_detected ck t p junk later skip ch cs rs c seekable :
  1 <= c ->
  0 <= ck < 2 ^ 32 -> 1 <= t < 256 -> len p < 2 ^ 16 ->
  ck <> crcValue crc (byte.of_Z t :: p) ->
  len (rawChunk ck t p ++ junk) = blockSize ->
  wf_blocks crc later -> tight 0 later ->
  chunks_of later = skip ++ ch :: cs ->
  Forall (fun k => is_first k = false) skip ->
  assemble None (ch :: cs) = Some rs ->
  exists r1,
    Next crc
      (NewReader
         (mkSource ((rawChunk ck t p ++ junk) ++ encBlocks crc later) 0
            seekable))
    = (r1, (None, Some ErrChecksumMismatch)) /\
    exists r2,
      readRecords crc (length rs) c (Recover r1) = (r2, (rs, None)) /\
      snd (Next crc r2) = (None, Some EOF).
Proof.
  intros Hc Hck Ht Hp Hbad Hlen Hw Htl Ecs Hskip Ha.
  set (d := rawChunk ck t p ++ junk) in *.
  set (src := mkSource (d ++ encBlocks crc later) 0 seekable).
  set (r0 := set_r_i (r_j (NewReader src))
               (set_r_seq (r_seq (NewReader src) + 1) (NewReader src))).
  assert (Lz : len (zeros blockSize) = blockSize) by (rewrite len_zeros; fmt_lia).
  assert (Hd : firstn (Z.to_nat blockSize) (s_remaining (r_r r0)) = d).
  { change (s_remaining (r_r r0)) with (d ++ encBlocks crc later).
    apply firstn_block; [lia|auto]. }
  pose proof (nextChunk_bad true r0 ck t p junk eq_refl eq_refl
                (or_intror eq_refl) Lz Hck Ht Hp Hbad Hd ltac:(fold d; lia))
    as E.
  cbv zeta in E. change (r_recovering r0) with false in E. fold d in E.
  set (r2 := set_r_j (0 + headerSize + len p)
               (set_r_i (0 + headerSize) (fetched r0 d))) in *.
  set (r1 := set_r_err (Some ErrChecksumMismatch) r2).
  exists r1. split.
  { rewrite (Next_step (NewReader src) eq_refl). fold r0. rewrite E.
    reflexivity. }
  assert (ER : Recover r1
               = mkReader (r_r r1) (r_seq r1 + 1) (r_n r1) (r_n r1) (r_n r1)
                   (r_started r1) true false None (r_buf r1))
    by reflexivity.
  assert (Hn1 : r_n r1 = blockSize) by exact Hlen.
  assert (Hb1 : len (r_buf r1) = blockSize).
  { change (r_buf r1) with (splice (zeros blockSize) 0 d).
    rewrite len_splice; lia. }
  assert (Hs1 : s_remaining (r_r r1) = encBlocks crc later).
  { change (s_remaining (r_r r1))
      with (skipn (0 + length d) (d ++ encBlocks crc later)).
    rewrite skipn_app, skipn_all2, Nat.sub_diag by (cbn; lia).
    reflexivity. }
  assert (HI : RInv crc (Recover r1) [] 0 later).
  { rewrite ER. unfold RInv. cbn [r_buf r_j r_n r_r r_started].
    change (len (encChunks crc [])) with 0.
    splits; auto; try fmt_lia.
    change (encChunks crc [] ++ zeros 0) with (@nil byte).
    apply holds_nil. fmt_lia. }
  apply (resume_reading (Recover r1) [] 0 later skip ch cs rs c Hc HI);
    auto.
  rewrite <- Ecs. apply (tight_leads later [] 0 Htl).
Qed.

(** X19. While the reader is recovering, a chunk that fails its
    checksum is not an error and does not make the reader drop the
    block: after an error in a full block and [Recover], if the next
    block starts with such a chunk, that chunk alone is passed over
    and [Next] returns the records that start after it, in that same
    block and in the blocks that follow, then [EOF]. *)
Theorem recovering_passes_bad_chunk r e ck t p b later skip ch cs rs c :
  1 <= c ->
  r_err r = Some e -> r_n r = blockSize -> len (r_buf r) = blockSize ->
  0 <= ck < 2 ^ 32 -> 1 <= t < 256 -> len p < 2 ^ 16 ->
  ck <> crcValue crc (byte.of_Z t :: p) ->
  s_remaining (r_r r) = rawChunk ck t p ++ encBlocks crc (b :: later) ->
  len (rawChunk ck t p ++ encBlock crc b) <= blockSize ->
  (later <> [] -> len (rawChunk ck t p ++ encBlock crc b) = blockSize) ->
  Forall valid_chunk (b_chunks b) -> 0 <= b_pad b ->
  wf_blocks crc later -> tight (b_pad b) later ->
  chunks_of (b :: later) = skip ++ ch :: cs ->
  Forall (fun k => is_first k = false) skip ->
  assemble None (ch :: cs) = Some rs ->
  exists r',
    readRecords crc (length rs) c (Recover r) = (r', (rs, None)) /\
    snd (Next crc r') = (None, Some EOF).
Proof.
  intros Hc He Hn Hl Hck Ht Hp Hbad Hs Hle Hfull Hv Hpad Hw Htl Ecs Hskip Ha.
  assert (ER : Recover r
               = mkReader (r_r r) (r_seq r + 1) (r_n r) (r_n r) (r_n r)
                   (r_started r) true false None (r_buf r))
    by (unfold Recover; now rewrite He).
  set (R := Recover r) in *.
  set (r0 := set_r_i (r_j R) (set_r_seq (r_seq R + 1) R)).
  assert (A : r_err r0 = None /\ r_recovering r0 = true /\ r_j r0 = blockSize /\
              r_n r0 = blockSize /\ len (r_buf r0) = blockSize /\
              s_remaining (r_r r0) = rawChunk ck t p ++ encBlocks crc (b :: later)).
  { unfold r0. rewrite ER. rsimpl. splits; auto. }
  destruct A as (He0 & Hrec0 & Hj0 & Hn0 & Hl0 & Hs0).
  destruct (nextChunk_resync r0 ck t p b later He0 Hrec0 Hj0 Hn0 Hl0 Hck Ht Hp
              Hbad Hs0 Hle Hfull Hv Hpad Hw)
    as (r2 & E & HI2 & He2 & Hq2).
  assert (Hleads : leads (b_chunks b) (b_pad b) later (skip ++ ch :: cs) 0 []).
  { rewrite <- Ecs. apply (tight_leads later (b_chunks b) (b_pad b) Htl). }
  destruct (assemble_head _ _ _ Ha) as (Hf & _).
  destruct (nextChunk_seek crc 0 [] skip r2 _ _ _ ch cs HI2 Hleads Hskip Hf)
    as (r3 & todo' & pad' & later' & E3 & HI3 & Hl3 & Hat & Hq3 & He3 & Hst3).
  set (r1 := set_r_started true (set_r_err None r3)).
  assert (EN : Next crc R = (r1, (Some (mkSingleReader (r_seq r3)), None))).
  { rewrite (Next_step R) by (rewrite ER; reflexivity).
    fold r0. rewrite E, E3. reflexivity. }
  assert (HR1 : Reading crc 0 [] r1 cs).
  { destruct Hat as (Hi & Hj & Hnn & Hsl & Hlast).
    pose proof (len_nonneg (c_data ch)).
    exists todo', pad', later'. splits; auto.
    eapply RInv_ext; try exact HI3; try reflexivity.
    right. unfold headerSize in *. lia. }
  assert (Hat1 : at_chunk r1 (c_data ch) (is_last ch)).
  { destruct Hat as (Hi & Hj & Hnn & Hsl & Hlast).
    unfold at_chunk. cbn. splits; auto. }
  destruct (readRecords_from crc 0 [] c rs cs ch R r1 _ Hc EN eq_refl Hat1 HR1 Ha)
    as (r4 & E4 & HR4).
  exists r4. split; [exact E4|].
  apply Reading_end in HR4. destruct HR4 as [HI4 He4].
  now rewrite (Next_eof crc r4 HI4 He4).
Qed.

End Resync.

(** * A stream shorter than a header *)

Section ShortStreams.
Variable crc : list byte -> Z.

(** X20. A stream of fewer than [headerSize] bytes is read as an empty
    one: the first [Next] returns [EOF], and stores it, also when the
    stream is not empty. No [Next] has succeeded yet, so the bytes that
    do not make a header are not reported as an unexpected end. *)
Theorem short_stream_eof (data : list byte) (seekable : bool) :
  len data < headerSize ->
  exists r,
    Next crc (NewReader (mkSource data 0 seekable)) = (r, (None, Some EOF)) /\
    r_err r = Some EOF /\ r_started r = false.
Proof.
  intros Hlen. pose proof (len_nonneg data) as H0.
  set (src := mkSource data 0 seekable).
  set (r0 := set_r_i (r_j (NewReader src))
               (set_r_seq (r_seq (NewReader src) + 1) (NewReader src))).
  assert (Hfirst : firstn (Z.to_nat blockSize) data = data).
  { apply firstn_all2. unfold len in Hlen. fmt_lia. }
  assert (G : exists r1, nextChunk crc true r0 = (r1, Some EOF) /\
                         r_started r1 = false).
  { destruct (len data =? 0) eqn:Hd0.
    - assert (Ed : data = []).
      { apply Z.eqb_eq in Hd0. destruct data; [reflexivity|discriminate]. }
      unfold r0, src. rewrite Ed. fold src. fold r0.
      eexists. split.
      + rewrite nextChunk_unfold. unfold nextChunkStep.
        change (r_j r0 + headerSize <=? r_n r0) with (0 + headerSize <=? 0).
        replace (0 + headerSize <=? 0) with false by reflexivity.
        change (r_started r0) with false. rewrite andb_false_r.
        reflexivity.
      + reflexivity.
    - assert (HdB : (len data <? blockSize) = true)
        by (apply Z.ltb_lt; fmt_lia).
      set (r1 := fetched r0 data).
      assert (E1 : nextChunkStep crc true r0 = Continue r1).
      { unfold nextChunkStep.
        change (r_j r0 + headerSize <=? r_n r0) with (0 + headerSize <=? 0).
        replace (0 + headerSize <=? 0) with false by reflexivity.
        change (r_started r0) with false. rewrite andb_false_r.
        unfold ReadFull.
        change (s_remaining (r_r r0)) with data.
        rewrite Hfirst, Hd0, HdB. reflexivity. }
      eexists. split.
      + rewrite nextChunk_unfold, E1, nextChunk_unfold. unfold nextChunkStep.
        change (r_j r1) with 0. change (r_n r1) with (len data).
        destruct (Z.leb_spec (0 + headerSize) (len data)) as [Hx|_]; [lia|].
        change (r_started r1) with false. rewrite andb_false_r.
        unfold ReadFull.
        change (s_remaining (r_r r1)) with (skipn (0 + length data) data).
        rewrite skipn_all2 by (cbn; lia). rewrite firstn_nil.
        reflexivity.
      + reflexivity. }
  destruct G as (r1 & E & Hst).
  exists (set_r_err (Some EOF) r1).
  rewrite (Next_step crc (NewReader src) eq_refl). fold r0. rewrite E.
  splits; auto.
Qed.

End ShortStreams.

(** * Examples on concrete inputs *)

Lemma fillHeader_layout_witness :
  exists w', fillHeader crc32c true exWriter = Ok w' /\
             byte.unsigned (at_ (w_buf w') 6) = fullChunkType /\
             le_combine (slice (w_buf w') 4 6) = 5.
Proof.
  destruct (fillHeader_layout crc32c true exWriter)
    as (w' & E & _ & _ & Hl & Ht & _).
  - vm_compute. discriminate.
  - vm_compute. discriminate.
  - vm_compute. discriminate.
  - vm_compute. reflexivity.
  - exists w'. split; [exact E|]. split; [exact Ht|exact Hl].
Defined.

Lemma nextChunk_short_tail_witness :
  nextChunk crc32c true exReader = (exReader, Some ErrUnexpectedEOF).
Proof.
  apply (nextChunk_short_tail crc32c true exReader).
  - vm_compute. reflexivity.
  - reflexivity.
  - vm_compute. reflexivity.
Defined.



Lemma Write_count_witness :
  match Write crc32c exPayload exTracedWriter with
  | Ok (w', (n, e)) =>
      t_log (w_w w') = [Some (ErrIO "no space left")] /\
      n = 0 /\ e = Some (ErrIO "no space left")
  | _ => False
  end.
Proof.
  pose proof (Write_count crc32c exPayload exTracedWriter) as H.
  assert (Hl : match Write crc32c exPayload exTracedWriter with
               | Ok (w', _) =>
                   t_log (w_w w') = [Some (ErrIO "no space left")] /\
                   t_log (w_w exTracedWriter) = []
               | _ => False
               end) by (vm_compute; split; reflexivity).
  destruct (Write crc32c exPayload exTracedWriter) as [[w' [n e]]| |];
    try contradiction.
  destruct Hl as [Hl H0].
  destruct (H w' n e eq_refl) as (calls & El & _ & _ & _ & H5 & _).
  rewrite Hl, H0 in El. cbn [app] in El.
  split; [exact Hl|]. apply H5. rewrite <- El. left. reflexivity.
Defined.

(** In that call the sink has taken ten bytes, three of them payload,
    and the payload sits in the buffer, yet the count returned is 0. *)
Example Write_count_partial :
  match Write crc32c exPayload exQuotaWriter with
  | Ok (w', (n, e)) =>
      n = 0 /\ e = Some (ErrIO "no space left") /\
      skipn 7 (q_data (w_w w')) = firstn 3 exPayload /\
      slice (w_buf w') 7 12 = firstn 5 exPayload
  | _ => False
  end.
Proof. vm_compute. splits; reflexivity. Qed.

Lemma write_read_roundtrip_witness :
  exists w,
    writeAll crc32c helloWorld = Ok (w, None) /\
    exists r,
      readRecords crc32c (length helloWorld) 512
        (NewReader (mkSource (w_w w) 0 false))
        = (r, (helloWorld, None)) /\
      snd (Next crc32c r) = (None, Some EOF).
Proof. apply (write_read_roundtrip crc32c helloWorld 512 false). lia. Defined.

Lemma small_roundtrip_witness :
  len (emitted crc32c helloWorld) = 31 /\
  (exists r,
     readRecords crc32c 3 1
       (NewReader (mkSource (emitted crc32c helloWorld) 0 true))
     = (r, (helloWorld, None)) /\
     snd (Next crc32c r) = (None, Some EOF)) /\
  match w <- writeRecords crc32c [bytes_of "hello"; bytes_of ""]
               (NewWriter (@nil byte)) ;;
        Write crc32c (bytes_of "world") w with
  | Ok (w, (n, e)) => n = 5 /\ e = None /\ LastRecordOffset w = (19, None)
  | _ => False
  end.
Proof. apply (small_roundtrip crc32c 1 true). lia. Defined.

(** The stream of "hello", "" and "world" is not a whole block. *)
Lemma small_stream_is_short : len (emitted crc32c helloWorld) <> 32768.
Proof. vm_compute. discriminate. Qed.

Lemma zeroed_block_tolerated_witness :
  exists r,
    readRecords crc32c 2 4
      (NewReader (mkSource (encBlock crc32c exBlock1 ++ zeros blockSize
                            ++ encBlock crc32c exBlock2) 0 false))
    = (r, ([bytes_of "abc"; bytes_of "def"], None)).
Proof.
  refine (proj1 (zeroed_block_tolerated crc32c exBlock1 exBlock2
                   [bytes_of "abc"] [bytes_of "def"] 4 false
                   _ _ _ _ _ _ _ _ _)).
  - lia.
  - apply Forall_cons; [vm_compute; split; discriminate|apply Forall_nil].
  - vm_compute. discriminate.
  - vm_compute. reflexivity.
  - apply Forall_cons;
      [|apply Forall_cons; [|apply Forall_nil]]; vm_compute; split; discriminate.
  - vm_compute. discriminate.
  - vm_compute. discriminate.
  - reflexivity.
  - reflexivity.
Defined.

Lemma partial_consumption_witness :
  exists r1 x1 r2 r3 x2 r4,
    Next crc32c (NewReader (mkSource (emitted crc32c abcdefGhi) 0 false))
      = (r1, (Some x1, None)) /\
    Read crc32c x1 2 r1 = (r2, (bytes_of "ab", None)) /\
    Next crc32c r2 = (r3, (Some x2, None)) /\
    ReadAll crc32c x2 3 r3 = (r4, (bytes_of "ghi", None)) /\
    r_seq r3 <= r_seq r4 /\
    forall r', r_seq r3 <= r_seq r' ->
      Read crc32c x1 1 r' = (r', ([], Some ErrStaleReader)).
Proof. apply (partial_consumption crc32c 3 1 false). lia. Defined.

(** Closed facts by evaluation. *)
Ltac by_eval :=
  vm_compute;
  repeat match goal with
         | |- _ /\ _ => split
         | |- True => exact I
         | |- Forall _ [] => apply Forall_nil
         | |- Forall _ (_ :: _) => apply Forall_cons
         | |- _ = _ => reflexivity
         | |- _ -> _ => congruence
         end.

(** [f x = (fst (f x), y)], the second component by evaluation. *)
Ltac by_parts :=
  apply injective_projections;
  [cbn [fst]; reflexivity|cbn [snd]; vm_compute; reflexivity].

Lemma Next_error_sticky_witness :
  r_err (fst (Next crc32c exReader)) = Some ErrUnexpectedEOF /\
  snd (Next crc32c (fst (Next crc32c exReader)))
  = (None, Some ErrUnexpectedEOF) /\
  r_err (Recover (fst (Next crc32c exReader))) = None.
Proof.
  destruct (Next_error_sticky crc32c exReader (fst (Next crc32c exReader))
              None ErrUnexpectedEOF 0) as (_ & H1 & H2 & _ & H3).
  - by_parts.
  - split; [exact H1|]. split; [|exact H3]. rewrite H2. reflexivity.
Defined.

Lemma Read_error_cases_witness :
  r_err exHiDone = None /\
  r_err (fst (Read crc32c (mkSingleReader 1) 512 exHiDone)) = None.
Proof.
  destruct (Read_error_cases crc32c (mkSingleReader 1) 512 exHiDone
              (fst (Read crc32c (mkSingleReader 1) 512 exHiDone)) [] EOF)
    as (_ & [(_ & H & _)|[(_ & H & _)|(_ & _ & H1 & H2 & _)]]).
  - by_parts.
  - discriminate H.
  - exfalso. revert H. vm_compute. discriminate.
  - split; [exact H1|exact H2].
Defined.

Lemma SeekRecord_failures_witness :
  SeekRecord crc32c (-1) exHiReader
  = (set_r_err (Some ErrNegativeSeek)
       (set_r_seq (r_seq exHiReader + 1) exHiReader),
     Some ErrNegativeSeek) /\
  snd (Next crc32c (fst (SeekRecord crc32c (-1) exHiReader)))
  = (None, Some ErrNegativeSeek).
Proof.
  apply (proj2 (SeekRecord_failures crc32c (-1) exHiReader eq_refl)).
  - reflexivity.
  - lia.
Defined.

Lemma Writer_error_sticky_witness :
  Write crc32c (bytes_of "late") exClosedWriter
  = Ok (exClosedWriter, (0, Some ErrClosedWriter)) /\
  Flush crc32c exClosedWriter = Ok (exClosedWriter, Some ErrClosedWriter).
Proof.
  destruct (Writer_error_sticky crc32c exClosedWriter ErrClosedWriter
              (bytes_of "late") eq_refl) as (H1 & H2 & _).
  split; [exact H1|exact H2].
Defined.

Lemma Close_closes_witness :
  match Close crc32c (NewWriter (@nil byte)) with
  | Ok (w1, None) =>
      w_err w1 = Some ErrClosedWriter /\
      forall ops w2, run_ops crc32c ops w1 = Ok w2 ->
        w_w w2 = w_w w1 /\
        LastRecordOffset w2 = (0, Some ErrClosedWriter)
  | _ => False
  end.
Proof.
  pose proof (Close_closes crc32c (NewWriter (@nil byte))) as H.
  assert (He : match Close crc32c (NewWriter (@nil byte)) with
               | Ok (_, None) => True
               | _ => False
               end) by (vm_compute; exact I).
  destruct (Close crc32c (NewWriter (@nil byte))) as [[w1 [e|]]| |];
    try contradiction.
  destruct (H w1 eq_refl) as [H1 H2].
  split; [exact H1|]. intros ops w2 R.
  destruct (H2 ops w2 R) as (A & _ & _ & B). split; [exact A|exact B].
Defined.

Lemma Read_count_witness :
  1 <= len (fst (snd (Read crc32c (mkSingleReader 1) 1 exHiOpen))) <= 1.
Proof.
  refine (proj1 (proj2 (Read_count crc32c (mkSingleReader 1) 1 exHiOpen
                          (fst (Read crc32c (mkSingleReader 1) 1 exHiOpen))
                          (fst (snd (Read crc32c (mkSingleReader 1) 1 exHiOpen)))
                          None _ _ _)) eq_refl).
  - by_eval.
  - lia.
  - by_parts.
Defined.

Lemma Flush_reads_back_witness :
  exists w,
    (w1 <- writeRecords crc32c [bytes_of "a"] (NewWriter (@nil byte)) ;;
     w2 <- ('(w2, _) <- Write crc32c (bytes_of "b") w1 ;; Ok w2) ;;
     Flush crc32c w2) = Ok (w, None) /\
    w_err w = None /\ w_pending w = false /\
    exists r,
      readRecords crc32c 2 1 (NewReader (mkSource (w_w w) 0 false))
        = (r, ([bytes_of "a"; bytes_of "b"], None)) /\
      snd (Next crc32c r) = (None, Some EOF).
Proof.
  apply (Flush_reads_back crc32c [bytes_of "a"] (Some (bytes_of "b")) 1 false).
  lia.
Defined.

Lemma SeekRecord_reads_witness :
  exists r1 r2,
    SeekRecord crc32c
      (len (encBlocks crc32c [])
       + len (encChunks crc32c [mkChunk fullChunkType (bytes_of "abc")]))
      (NewReader (mkSource (encBlock crc32c exBlock3) 0 true)) = (r1, None) /\
    readRecords crc32c 1 4 r1 = (r2, ([bytes_of "def"], None)) /\
    snd (Next crc32c r2) = (None, Some EOF).
Proof.
  refine (SeekRecord_reads crc32c
            (NewReader (mkSource (encBlock crc32c exBlock3) 0 true))
            [] exBlock3 [] [mkChunk fullChunkType (bytes_of "abc")]
            (mkChunk fullChunkType (bytes_of "def")) [] [bytes_of "def"] 4
            _ _ _ _ _ _ _ _ _).
  - lia.
  - by_eval.
  - reflexivity.
  - reflexivity.
  - reflexivity.
  - reflexivity.
  - reflexivity.
  - vm_compute. reflexivity.
  - vm_compute. reflexivity.
Defined.

Lemma Recover_resumes_witness :
  exists r',
    readRecords crc32c 1 4 (Recover exReaderFailed)
      = (r', ([bytes_of "abc"], None)) /\
    snd (Next crc32c r') = (None, Some EOF).
Proof.
  refine (Recover_resumes crc32c exReaderFailed ErrChecksumMismatch
            [exBlock4] [mkChunk lastChunkType (bytes_of "x")]
            (mkChunk fullChunkType (bytes_of "abc")) [] [bytes_of "abc"] 4
            _ _ _ _ _ _ _ _ _ _).
  - lia.
  - reflexivity.
  - reflexivity.
  - vm_compute. reflexivity.
  - vm_compute. reflexivity.
  - by_eval.
  - by_eval.
  - reflexivity.
  - by_eval.
  - reflexivity.
Defined.

Lemma LastRecordOffset_start_witness :
  exists w1 w2 w3,
    writeRecords crc32c [bytes_of "abc"] (NewWriter (@nil byte)) = Ok w1 /\
    Write crc32c (bytes_of "de") w1 = Ok (w2, (len (bytes_of "de"), None)) /\
    LastRecordOffset w2
    = (recordStart (len (emitted crc32c [bytes_of "abc"])), None) /\
    Finish crc32c w2 = Ok (w3, None) /\
    LastRecordOffset w3
    = (recordStart (len (emitted crc32c [bytes_of "abc"])), None).
Proof.
  apply (LastRecordOffset_start crc32c [bytes_of "abc"] (bytes_of "de")).
  vm_compute. reflexivity.
Defined.

Lemma LastRecordOffset_seeks_witness :
  exists w1 w2 o,
    writeRecords crc32c [bytes_of "abc"] (NewWriter (@nil byte)) = Ok w1 /\
    Write crc32c (bytes_of "de") w1 = Ok (w2, (len (bytes_of "de"), None)) /\
    LastRecordOffset w2 = (o, None) /\
    forall r,
      r_err r = None -> s_seekable (r_r r) = true ->
      s_data (r_r r)
      = emitted crc32c ([bytes_of "abc"] ++ bytes_of "de" :: [bytes_of "f"]) ->
      len (r_buf r) = blockSize ->
      exists r1 r2,
        SeekRecord crc32c o r = (r1, None) /\
        readRecords crc32c 2 1 r1
        = (r2, ([bytes_of "de"; bytes_of "f"], None)) /\
        snd (Next crc32c r2) = (None, Some EOF).
Proof.
  apply (LastRecordOffset_seeks crc32c [bytes_of "abc"] (bytes_of "de")
           [bytes_of "f"] 1).
  - lia.
  - vm_compute. reflexivity.
Defined.

Lemma operations_read_back_witness :
  exists w e,
    (w1 <- run_ops crc32c
             [OpWrite (bytes_of "ab"); OpFlush; OpWrite (bytes_of "cd");
              OpWrite (bytes_of "ef"); OpSync; OpFinish]
             (NewWriter (@nil byte)) ;;
     Close crc32c w1) = Ok (w, e) /\
    exists r,
      readRecords crc32c 2 1 (NewReader (mkSource (w_w w) 0 false))
      = (r, ([bytes_of "ab"; bytes_of "cdef"], None)) /\
      snd (Next crc32c r) = (None, Some EOF).
Proof.
  apply (operations_read_back crc32c
           [OpWrite (bytes_of "ab"); OpFlush; OpWrite (bytes_of "cd");
            OpWrite (bytes_of "ef"); OpSync; OpFinish] 1 false).
  lia.
Defined.

Lemma open_record_delivered_witness :
  exists r,
    readRecords crc32c 2 1
      (NewReader (mkSource (encBlocks crc32c [exBlock5]) 0 false))
    = (r, ([bytes_of "abc"; bytes_of "de"], None)) /\
    snd (Next crc32c r) = (None, Some EOF).
Proof.
  refine (open_record_delivered crc32c [exBlock5]
            [mkChunk fullChunkType (bytes_of "abc")]
            (mkChunk firstChunkType (bytes_of "de")) []
            [bytes_of "abc"] 1 false _ _ _ _ _ _ _).
  - lia.
  - by_eval.
  - by_eval.
  - reflexivity.
  - reflexivity.
  - reflexivity.
  - apply Forall_nil.
Defined.

Lemma Next_verified_witness :
  r_err exHiOpen = None /\ exists h, in_verified_chunk crc32c exHiOpen h.
Proof.
  destruct (Next_verified crc32c exHiReader exHiOpen (mkSingleReader 1))
    as (_ & He & _ & h & Hv & _).
  - by_parts.
  - split; [exact He|]. exists h. exact Hv.
Defined.

Lemma unread_records_skipped_witness :
  exists r,
    readSelected crc32c [true; false; true] 1
      (NewReader (mkSource (emitted crc32c helloWorld) 0 false))
    = (r, ([bytes_of "hello"; bytes_of "world"], None)) /\
    snd (Next crc32c r) = (None, Some EOF).
Proof.
  apply (unread_records_skipped crc32c helloWorld [true; false; true] 1 false).
  - lia.
  - reflexivity.
Defined.

Lemma corrupt_chunk_detected_witness :
  exists r1,
    Next crc32c
      (NewReader
         (mkSource ((rawChunk 0 1 (bytes_of "abc") ++ zeros (blockSize - 10))
                    ++ encBlocks crc32c [exBlock2]) 0 false))
    = (r1, (None, Some ErrChecksumMismatch)) /\
    exists r2,
      readRecords crc32c 1 4 (Recover r1) = (r2, ([bytes_of "def"], None)) /\
      snd (Next crc32c r2) = (None, Some EOF).
Proof.
  refine (corrupt_chunk_detected crc32c 0 1 (bytes_of "abc")
            (zeros (blockSize - 10)) [exBlock2] []
            (mkChunk firstChunkType (bytes_of "de"))
            [mkChunk lastChunkType (bytes_of "f")] [bytes_of "def"] 4 false
            _ _ _ _ _ _ _ _ _ _ _).
  - lia.
  - lia.
  - lia.
  - by_eval.
  - by_eval.
  - vm_compute. reflexivity.
  - by_eval.
  - by_eval.
  - reflexivity.
  - apply Forall_nil.
  - reflexivity.
Defined.

Lemma recovering_passes_bad_chunk_witness :
  exists r',
    readRecords crc32c 1 4 (Recover exReaderBad)
    = (r', ([bytes_of "def"], None)) /\
    snd (Next crc32c r') = (None, Some EOF).
Proof.
  refine (recovering_passes_bad_chunk crc32c exReaderBad ErrChecksumMismatch
            0 1 (bytes_of "abc") exBlock6 [] []
            (mkChunk fullChunkType (bytes_of "def")) [] [bytes_of "def"] 4
            _ _ _ _ _ _ _ _ _ _ _ _ _ _ _ _ _ _).
  - lia.
  - reflexivity.
  - reflexivity.
  - vm_compute. reflexivity.
  - lia.
  - lia.
  - by_eval.
  - by_eval.
  - reflexivity.
  - by_eval.
  - by_eval.
  - by_eval.
  - by_eval.
  - exact I.
  - reflexivity.
  - reflexivity.
  - apply Forall_nil.
  - reflexivity.
Defined.

Lemma short_stream_eof_witness :
  exists r,
    Next crc32c (NewReader (mkSource (bytes_of "abc") 0 false))
    = (r, (None, Some EOF)) /\
    r_err r = Some EOF /\ r_started r = false.
Proof. apply (short_stream_eof crc32c (bytes_of "abc") false). by_eval. Defined.
